(** * sound_field_analysis.gen: generator functions

    A shallow embedding of [sound_field_analysis/gen.py] (quadrature grids,
    modal radial filters, ideal and sampled wave generators, noise
    generators) and of the version line of [setup.py], together with the
    properties of these functions stated in the specification and further
    ones read off the code.

    Conventions of the embedding:
    - Python [int]s are [Z]; Python [float] parameters that the code compares
      or multiplies before any array is built are exact rationals [Q];
    - the elements of numpy arrays live in an abstract scalar type [F] with the
      operations numpy applies to them (classes [Scalar], [RealFun] and
      [ComplexFun]); the theorems hold for every such [F].  Rounding,
      overflow and NaN are not part of the model;
    - functions of other modules ([sph], [process], [lebedev], numpy's
      [leggauss] and [argsort]) are the fields of the class [External], and
      numpy's [rfft] and [sph.sph_harm_all] those of the class [Spectral];
    - the samples a random generator yields are an argument of the function
      that draws them;
    - a raised exception is a value [Err e]; text written by [print] is
      collected in a list of lines;
    - [np.empty] returns a block whose shape is the requested one and whose
      contents are whatever the allocator holds ([heap]);
    - numpy is the 1.x line the code was written for: [np.complex_] exists, a
      float sample count of [linspace] is truncated, an empty array is
      false. *)

From Stdlib Require Import ZArith QArith Qabs Qround List String Bool Lia Lra Reals.
From Stdlib Require Import DecimalString Ascii.
From stdpp Require Import base list.
Import ListNotations.

Close Scope Q_scope.
Close Scope R_scope.
Open Scope string_scope.
Open Scope list_scope.
Open Scope nat_scope.

(** ** Exceptions and results *)

Inductive exn : Type :=
| ValueError (msg : string)
| InvalidDegree (degree : Z) (deg_avail : list Z)
| TypeError (msg : string)
| IndexError (msg : string)
| UnboundLocalError (name : string)
| ZeroDivisionError.

Inductive result (A : Type) : Type :=
| Ok (a : A)
| Err (e : exn).

Arguments Ok {A} a.
Arguments Err {A} e.

Definition bind {A B : Type} (r : result A) (k : A -> result B) : result B :=
  match r with
  | Ok a => k a
  | Err e => Err e
  end.

Notation "x <- r ;; k" := (bind r (fun x => k))
  (at level 100, r at next level, right associativity).

(** [for x in xs: st = body(x, st)] with exceptions. *)
Fixpoint for_each {X S : Type} (xs : list X) (body : X -> S -> result S) (st : S)
  : result S :=
  match xs with
  | [] => Ok st
  | x :: xs' => st' <- body x st ;; for_each xs' body st'
  end.

(** [[f(x) for x in xs]] with exceptions. *)
Fixpoint traverse {X Y : Type} (f : X -> result Y) (xs : list X) : result (list Y) :=
  match xs with
  | [] => Ok []
  | x :: xs' => y <- f x ;; ys <- traverse f xs' ;; Ok (y :: ys)
  end.

(** ** Observable effects

    What a call does besides returning: the lines it prints, the progress bar
    it advances, and the calls it makes to [ideal_wave]. *)

Inductive event : Type :=
| Printed (line : string)
| ProgressBar (idx total : nat) (label : string)
| IdealWaveCall (SegN lowerSegLim upperSegLim : Z).

Definition py (A : Type) : Type := list event -> list event * result A.

Definition py_ret {A : Type} (a : A) : py A := fun t => (t, Ok a).

Definition py_bind {A B : Type} (m : py A) (k : A -> py B) : py B :=
  fun t =>
    match m t with
    | (t', Ok a) => k a t'
    | (t', Err e) => (t', Err e)
    end.

Definition raise {A : Type} (e : exn) : py A := fun t => (t, Err e).

Definition lift {A : Type} (r : result A) : py A := fun t => (t, r).

Definition emit (e : event) : py unit := fun t => (t ++ [e], Ok tt).

Definition print (line : string) : py unit := emit (Printed line).

Definition when (b : bool) (m : py unit) : py unit :=
  if b then m else py_ret tt.

Notation "x <~ m ;; k" := (py_bind m (fun x => k))
  (at level 100, m at next level, right associativity).
Notation "m ;;; k" := (py_bind m (fun _ => k))
  (at level 100, right associativity).

(** The run ends in an exception. *)
Definition fails {A : Type} (x : list event * result A) : Prop :=
  exists e, snd x = Err e.

Fixpoint py_for_each {X S : Type} (xs : list X) (body : X -> S -> py S) (st : S)
  : py S :=
  match xs with
  | [] => py_ret st
  | x :: xs' => st' <~ body x st ;; py_for_each xs' body st'
  end.

(** [range(a, b)] for a natural lower end, and [range(-n, n + 1)]. *)
Definition range (a b : nat) : list nat := seq a (b - a).

Definition range_sym (n : nat) : list Z :=
  map (fun k => (Z.of_nat k - Z.of_nat n)%Z) (seq 0 (2 * n + 1)).

(** ** Python values *)

(** A [str] object.  [x is 'lit'] compares object identity: CPython keeps one
    object for every identifier-like literal and default value ([interned]),
    while a string assembled at run time is an object of its own. *)
Record pystr : Type := PyStr { text : string; interned : bool }.

Definition lit (s : string) : pystr := PyStr s true.

Inductive pyval : Type :=         (* the hashable scalars *)
| VNone
| VInt (z : Z)
| VFloat (q : Q)
| VStr (s : pystr).

Inductive pyobj : Type :=
| Atom (v : pyval)
| PyList (l : list Q).

(** [v in {'a', 'b'}]: hashing and [==] *)
Definition py_in (v : pyval) (lits : list string) : bool :=
  match v with
  | VStr s => existsb (String.eqb (text s)) lits
  | _ => false
  end.

(** [v is 'lit'] *)
Definition py_is (v : pyval) (l : string) : bool :=
  match v with
  | VStr s => interned s && String.eqb (text s) l
  | _ => false
  end.

Definition Qltb (a b : Q) : bool := negb (Qle_bool b a).

(** ** Scalars held in numpy arrays *)

Class Scalar (F : Type) : Type := {
  fzero : F;
  fone : F;
  fadd : F -> F -> F;
  fsub : F -> F -> F;
  fmul : F -> F -> F;
  fdiv : F -> F -> F;
  ofZ : Z -> F;
  ofQ : Q -> F;
  fpi : F
}.

Class RealFun (F : Type) : Type := {
  fneg : F -> F;
  fabs : F -> F;
  farctan : F -> F;
  farccos : F -> F;
  flog10 : F -> F;
  fsqrt : F -> F;
  ffloor : F -> F;
  fceil : F -> F;
  fpow : F -> F -> F;
  fmod : F -> F -> F;
  to_int : F -> Z;                (* .astype('int') *)
  feqb : F -> F -> bool;
  fltb : F -> F -> bool;
  fshow : F -> string             (* str(x) *)
}.

Class ComplexFun (F : Type) : Type := {
  fimag : F;                      (* 1j *)
  fconj : F -> F;
  fexp : F -> F
}.

Abbreviation vector F := (list F) (only parsing).
Abbreviation matrix F := (list (list F)) (only parsing).

(** ** Functions of other modules *)

Class External (F : Type) : Type := {
  (* sph.array_extrapolation as ideal_wave calls it, one frequency at a time:
     order, freq, array_radius, scatter_radius, array_configuration,
     transducer_type *)
  array_extrapolation : nat -> F -> Q -> Q -> pyval -> pyval -> F;
  (* sph.array_extrapolation as radFilter calls it, one bin at a time:
     order, krm, krs, ac *)
  array_extrapolation_kr : nat -> F -> F -> Z -> F;
  (* sph.sph_harm(m, n, azimuth, colatitude) *)
  sph_harm : Z -> nat -> pyobj -> pyobj -> F;
  (* sph.sphankel2(n, x) and sph.kr(f, distance), one frequency at a time *)
  sphankel2 : nat -> F -> F;
  kr_of : F -> Q -> F;
  (* sph.cart2sph(x, y, z), one point at a time *)
  cart2sph : F -> F -> F -> F * F * F;
  (* lebedev.genGrid(degree): the points (x, y, z, w) *)
  genGrid : Z -> result (list (F * F * F * F));
  (* process.iSpatFT(Pnm, gridData) *)
  iSpatFT : matrix F -> matrix F -> matrix F;
  (* numpy.polynomial.legendre.leggauss(deg), for deg >= 1 *)
  leggauss : nat -> vector F * vector F;
  (* numpy.ndarray.argsort() *)
  argsort : vector F -> list nat;
  (* Lines 208-272 of radFilter for a kr matrix that got past the guard on
     kr[0], which only one of shape (M, 1) or (M, 0) does: numpy's
     broadcasting of such operands is not modelled, and what the call prints
     and returns from there on is left open (N, kr, ac, amp_maxdB, plc,
     fadeover, printInfo). *)
  radFilter_narrow_matrix :
    nat -> matrix F -> Z -> Z -> Z -> Z -> bool -> py (matrix F * vector F)
}.

(** ** numpy helpers *)

Section Numpy.
Context {F : Type} `{Scalar F}.

(** The allocator: [heap i j] is what an uninitialised block holds at row
    [i], column [j]. *)
Definition np_empty (heap : nat -> nat -> F) (rows cols : nat) : matrix F :=
  map (fun i => map (heap i) (seq 0 cols)) (seq 0 rows).

Definition np_zeros (n : nat) : vector F := replicate n fzero.

Definition np_zeros2 (rows cols : nat) : matrix F :=
  replicate rows (np_zeros cols).

Definition np_ones (n : nat) : vector F := replicate n fone.

(** [np.linspace(a, b, num)] for [num >= 0] *)
Definition linspace (a b : F) (num : nat) : vector F :=
  match num with
  | 1 => [a]
  | _ => map (fun i => fadd a (fmul (ofZ (Z.of_nat i))
                                    (fdiv (fsub b a) (ofZ (Z.of_nat (num - 1))))))
             (seq 0 num)
  end.

Definition vmul (u v : vector F) : vector F := zip_with fmul u v.
Definition vadd (u v : vector F) : vector F := zip_with fadd u v.
Definition vsub (u v : vector F) : vector F := zip_with fsub u v.
Definition vdiv (u v : vector F) : vector F := zip_with fdiv u v.
Definition vscale (a : F) (v : vector F) : vector F := map (fmul a) v.

Definition vsum (v : vector F) : F := foldr fadd fzero v.

(** [a[i]] and [a[i] = x] with numpy's bounds check (no negative indices
    occur in this module except [fOrders[-1]], see [last_item]). *)
Definition get_item {A : Type} (a : list A) (i : nat) : result A :=
  match a !! i with
  | Some x => Ok x
  | None => Err (IndexError "index is out of bounds")
  end.

Definition set_item {A : Type} (a : list A) (i : nat) (x : A) : result (list A) :=
  if decide (i < length a) then Ok (<[i := x]> a)
  else Err (IndexError "index is out of bounds").

Definition last_item {A : Type} (a : list A) : result A :=
  match last a with
  | Some x => Ok x
  | None => Err (IndexError "index -1 is out of bounds")
  end.

(** [a[::step]] *)
Fixpoint every {A : Type} (k : nat) (skip : nat) (a : list A) : list A :=
  match a with
  | [] => []
  | x :: a' =>
      match skip with
      | 0 => x :: every k (k - 1) a'
      | S skip' => every k skip' a'
      end
  end.

Definition step_slice {A : Type} (step : Z) (a : list A) : result (list A) :=
  if (step =? 0)%Z then Err (ValueError "slice step cannot be zero")
  else if (0 <? step)%Z then Ok (every (Z.to_nat step) 0 a)
  else Ok (every (Z.to_nat (- step)) 0 (rev a)).

(** [g[a:b, j] = vals] for [0 <= a <= b]: the slice is clipped to the rows of
    [g]; [vals] must have as many entries as the slice has rows, or one. *)
Definition set_col_slice (g : matrix F) (a b j : nat) (vals : vector F)
  : result (matrix F) :=
  let a' := a `min` length g in
  let b' := b `min` length g in
  let len := b' - a' in
  if forallb (fun row => j <? length row) (take len (drop a' g)) then
    vals' <- (if decide (length vals = len) then Ok vals
              else match vals with
                   | [x] => Ok (replicate len x)
                   | _ => Err (ValueError "could not broadcast input array")
                   end) ;;
    Ok (take a' g
        ++ zip_with (fun row x => <[j := x]> row) (take len (drop a' g)) vals'
        ++ drop (a' + len) g)
  else Err (IndexError "index is out of bounds for axis 1").

(** [g[:, j]] *)
Definition column (g : matrix F) (j : nat) : result (vector F) :=
  traverse (fun row => get_item row j) g.

(** [g[idx]] for an index array [idx] *)
Definition take_rows (g : matrix F) (idx : list nat) : result (matrix F) :=
  traverse (get_item g) idx.
End Numpy.

(** ** gaussGrid *)

Section GaussGrid.
Context {F : Type} `{Scalar F} `{RealFun F} `{External F}.

(** # Azimuth: Gauss *)
Definition azimuth_nodes (AZnodes : nat) : vector F :=
  map (fun x => fdiv (fmul (fmul x (ofZ 2)) fpi) (ofZ (Z.of_nat AZnodes)))
      (linspace fzero (ofZ (Z.of_nat AZnodes - 1)) AZnodes).

Definition azimuth_weights (AZnodes : nat) : vector F :=
  map (fun x => fdiv (fmul (fmul x (ofZ 2)) fpi) (ofZ (Z.of_nat AZnodes)))
      (np_ones AZnodes).

(** # Weights *)
Definition grid_weights (AZw ELw : vector F) : matrix F :=
  let W := map (fun a => map (fun e => fdiv (fmul a e) (ofZ 3)) ELw) AZw in
  let total := vsum (concat W) in
  map (map (fun x => fdiv x total)) W.

Definition gaussGrid (heap : nat -> nat -> F) (AZnodes ELnodes : nat)
  : result (matrix F) :=
  let AZ := azimuth_nodes AZnodes in
  let AZw := azimuth_weights AZnodes in
  (* Elevation: Legendre *)
  if ELnodes =? 0 then Err (ValueError "deg must be a positive integer") else
  let '(EL, ELw) := leggauss ELnodes in
  let EL := map farccos EL in
  let W := grid_weights AZw ELw in
  (* VariSphere order: AZ increasing, EL alternating *)
  for_each (range 0 AZnodes)
    (fun k gridData =>
       let curIDX := k * ELnodes in
       AZk <- get_item AZ k ;;
       g0 <- set_col_slice gridData curIDX (curIDX + ELnodes) 0
               (replicate ELnodes AZk) ;;
       ELk <- step_slice (-1 + Z.of_nat k mod 2 * 2)%Z EL ;;
       g1 <- set_col_slice g0 curIDX (curIDX + ELnodes) 1 ELk ;;
       Wrow <- get_item W k ;;
       Wk <- step_slice (-1 + Z.of_nat k mod 2 * 2)%Z Wrow ;;
       set_col_slice g1 curIDX (curIDX + ELnodes) 2 Wk)
    (np_empty heap (ELnodes * AZnodes) 3).

(** The order of the elevation nodes in azimuth block [k]: what the slice
    [[::-1 + k % 2 * 2]] selects. *)
Definition zigzag {A : Type} (k : nat) (a : list A) : list A :=
  if (Z.of_nat k mod 2 =? 0)%Z then rev a else a.

(** The rows [k * ELnodes .. (k + 1) * ELnodes - 1] of the grid as iteration
    [k] leaves them. *)
Definition gauss_block (k : nat) (AZk : F) (EL Wk : vector F) : matrix F :=
  zip_with (fun e w => [AZk; e; w]) (zigzag k EL) (zigzag k Wk).

Definition gauss_blocks (AZ : vector F) (EL : vector F) (W : matrix F)
  : list (matrix F) :=
  imap (fun k aw => gauss_block k (fst aw) EL (snd aw)) (zip AZ W).

(** What numpy's [leggauss(n)] is known to return: [n] nodes in [[-1, 1]]
    and [n] positive weights.  [in_range] and [pos] say "between -1 and 1"
    and "positive" for the scalars at hand. *)
Definition leggauss_returns (in_range pos : F -> Prop) (n : nat) : Prop :=
  length (fst (leggauss n)) = n
  /\ length (snd (leggauss n)) = n
  /\ Forall in_range (fst (leggauss n))
  /\ Forall pos (snd (leggauss n)).
End GaussGrid.

(** ** lebedev *)

Section Lebedev.
Context {F : Type} `{Scalar F} `{RealFun F} `{External F}.

Definition deg_avail : list Z :=
  [6; 14; 26; 38; 50; 74; 86; 110; 146; 170; 194]%Z.

(** Lines 130-140 *)
Definition lebedev_grid (degree : Z) : py (matrix F * F) :=
  leb <~ lift (genGrid degree) ;;
  let sph := map (fun '(x, y, z, _) => cart2sph x y z) leb in
  let theta := map (fun '(t, _, _) => fmod t (fmul (ofZ 2) fpi)) sph in
  let phi := map (fun '(_, p, _) => p) sph in
  let w := map (fun '(_, _, _, w) => w) leb in
  let gridData :=
    zip_with (fun tp wi => [fst tp; fadd (snd tp) (fdiv fpi (ofZ 2)); wi])
             (zip theta phi) w in
  (* double sorting that keeps rows together *)
  col1 <~ lift (column gridData 1) ;;
  gridData <~ lift (take_rows gridData (argsort col1)) ;;
  col0 <~ lift (column gridData 0) ;;
  gridData <~ lift (take_rows gridData (argsort col0)) ;;
  let Nmax :=
    ffloor (fsub (fsqrt (fdiv (ofZ degree) (ofQ (13 # 10)))) fone) in
  py_ret (gridData, Nmax).

Definition lebedev (degree : Z) (printInfo : bool) : py (matrix F * F) :=
  when printInfo (print "Lebedev Grid") ;;;
  if negb (existsb (Z.eqb degree) deg_avail) then
    raise (InvalidDegree degree deg_avail)
  else lebedev_grid degree.

(** What [lebedev] relies on: [genGrid] has a table for each degree of
    [deg_avail], and [argsort] returns a permutation of the indices. *)
Definition genGrid_has_tables : Prop :=
  forall degree, In degree deg_avail -> exists points, genGrid degree = Ok points.

Definition argsort_permutes : Prop :=
  forall v : vector F, Permutation (argsort v) (seq 0 (length v)).
End Lebedev.

(** ** radFilter *)

Inductive ndarray (F : Type) : Type :=
| Vec (v : vector F)            (* kr.ndim == 1 *)
| Mat (rows : matrix F).        (* kr.ndim == 2 *)

Arguments Vec {F} v.
Arguments Mat {F} rows.

(** What a call of [radFilter] leaves behind: the array object the caller
    passed as [kr], the effects, and the value or exception. *)
Record rad_outcome (F : Type) : Type := RadOutcome {
  kr_after : ndarray F;
  rad_trace : list event;
  rad_returned : result (matrix F * vector F)
}.

Arguments RadOutcome {F} _ _ _.
Arguments kr_after {F} _.
Arguments rad_trace {F} _.
Arguments rad_returned {F} _.

Section RadFilter.
Context {F : Type} `{Scalar F} `{RealFun F} `{External F}.

(** [bool(a)] for a one-dimensional array [a], as [if a:] evaluates it *)
Definition array_truth (a : list bool) : result bool :=
  match a with
  | [] => Ok false
  | [b] => Ok b
  | _ => Err (ValueError
      "The truth value of an array with more than one element is ambiguous. Use a.any() or a.all()")
  end.

(** Lines 203-204: [if kr[0] == 0: kr[0] = kr[1]], on the caller's array. *)
Definition degenerate_guard (kr : ndarray F) : result (ndarray F) :=
  match kr with
  | Vec v =>
      k0 <- get_item v 0 ;;
      if feqb k0 fzero then
        k1 <- get_item v 1 ;;
        v' <- set_item v 0 k1 ;;
        Ok (Vec v')
      else Ok (Vec v)
  | Mat rows =>
      r0 <- get_item rows 0 ;;
      t <- array_truth (map (fun x => feqb x fzero) r0) ;;
      if t then
        r1 <- get_item rows 1 ;;
        rows' <- set_item rows 0 r1 ;;
        Ok (Mat rows')
      else Ok (Mat rows)
  end.

(** The first bin of [kr]: [kr[0]] of a vector, [kr[0][0]] of a matrix. *)
Definition first_bin (kr : ndarray F) : option F :=
  match kr with
  | Vec v => v !! 0
  | Mat rows => match rows !! 0 with Some r0 => r0 !! 0 | None => None end
  end.

(** Line 216, one bin *)
Definition soft_limit (a_max bnval : F) : F :=
  fmul (fmul (fdiv (fmul (ofZ 2) a_max) fpi) (fabs bnval))
       (farctan (fdiv fpi (fmul (fmul (ofZ 2) a_max) (fabs bnval)))).

(** Lines 208-217: BN filter calculation *)
Definition bn_filters (heap : nat -> nat -> F) (N : nat) (krm krs : vector F)
    (ac : Z) (limiteronflag : bool) (a_max : F) : result (matrix F) :=
  for_each (range 0 (N + 1))
    (fun ctr OutputArray =>
       let bnval := zip_with (fun m s => array_extrapolation_kr ctr m s ac) krm krs in
       let amplicalc :=
         if limiteronflag then map (soft_limit a_max) bnval
         else map (fun _ => ofZ 1) bnval in
       set_item OutputArray ctr (vdiv amplicalc bnval))
    (np_empty heap (N + 1) (length krm)).

(** Lines 226-231 *)
Definition plc_curve (N : nat) (krm krs : vector F) (ac : Z)
    (OutputArray : matrix F) : result (vector F) :=
  for_each (range 0 (length krm))
    (fun ctr xi =>
       km <- get_item krm ctr ;;
       ks <- get_item krs ctr ;;
       xi <- for_each (range 0 (N + 1))
               (fun ctrb xi =>
                  row <- get_item OutputArray ctrb ;;
                  o <- get_item row ctr ;;
                  let term :=
                    fmul (ofZ (2 * Z.of_nat ctrb + 1))
                         (fsub (ofZ 1) (fmul o (array_extrapolation_kr ctrb km ks ac))) in
                  Ok (map (fun x => fadd x term) xi))
               xi ;;
       x <- get_item xi ctr ;;
       xi <- set_item xi ctr
               (fdiv (fmul x (ofZ 1)) (array_extrapolation_kr 0 km ks ac)) ;;
       x <- get_item xi ctr ;;
       row0 <- get_item OutputArray 0 ;;
       o0 <- get_item row0 ctr ;;
       set_item xi ctr (fadd x o0))
    (np_zeros (length krm)).

(** [np.argmin] *)
Fixpoint argmin_from (best : F) (besti i : nat) (a : vector F) : nat :=
  match a with
  | [] => besti
  | x :: a' =>
      if fltb x best then argmin_from x i (S i) a'
      else argmin_from best besti (S i) a'
  end.

Definition argmin (a : vector F) : result nat :=
  match a with
  | [] => Err (ValueError "attempt to get argmin of an empty sequence")
  | x :: a' => Ok (argmin_from x 0 1 a')
  end.

(** Lines 234-259, entered with [xi] bound *)
Definition plc_low_kr (krN : nat) (amp_maxdB fadeover : Z) (a_max : F)
    (printInfo : bool) (OutputArray : matrix F) (xi : vector F) : py unit :=
  row0 <~ lift (get_item OutputArray 0) ;;
  minDisIDX <~ lift (argmin (map fabs (vsub row0 xi))) ;;
  o <~ lift (get_item row0 minDisIDX) ;;
  x <~ lift (get_item xi minDisIDX) ;;
  let minDis := fabs (fsub o x) in
  let filtergap :=
    fmul (ofZ 20) (flog10 (fdiv (ofZ 1) (fabs (fdiv o x)))) in
  when printInfo (print ("Filter fade gap:  " ++ fshow filtergap)%string) ;;;
  if fltb (ofZ 20) (fabs filtergap) then
    print "Filter fade gap too large, no powerloss compensation applied."
  else
    when (fltb (ofZ 5) (fabs filtergap)) (print "Filtergap is large (> 5 dB).") ;;;
    let fadeover :=
      if (fadeover =? 0)%Z then
        let f := fdiv (ofZ (Z.of_nat krN)) (ofZ 100) in
        if (amp_maxdB >? 0)%Z then fdiv f (fceil (fdiv a_max (ofZ 4))) else f
      else ofZ fadeover in
    (* [fadeover > minDis | (minDis + fadeover) > krN]: [|] binds tighter
       than [>], and numpy has no bitwise or of two floats *)
    raise (TypeError "ufunc 'bitwise_or' not supported for the input types").

(** Line 219: [krN < 32 & plc != 0].  [&] binds tighter than the
    comparisons, which then chain: [krN < (32 & plc) and (32 & plc) != 0]. *)
Definition plc_guard (krN : nat) (plc : Z) : bool :=
  (Z.of_nat krN <? Z.land 32 plc)%Z && negb (Z.land 32 plc =? 0)%Z.

(** Lines 208-272 for a one-dimensional [kr] *)
Definition radFilter_vector (heap : nat -> nat -> F) (N : nat) (kr : vector F)
    (ac amp_maxdB plc fadeover : Z) (printInfo : bool) (a_max : F)
    (limiteronflag : bool) : py (matrix F * vector F) :=
  let krN := length kr in
  let krm := kr in
  let krs := kr in
  OutputArray <~ lift (bn_filters heap N krm krs ac limiteronflag a_max) ;;
  plc <~ (if plc_guard krN plc then
            print "Not enough kr values for PLC fading. PLC disabled." ;;;
            py_ret 0%Z
          else py_ret plc) ;;
  (* Powerloss Compensation Filter (PLC) *)
  xi <~ (if (plc =? 0)%Z then
           xi <~ lift (plc_curve N krm krs ac OutputArray) ;; py_ret (Some xi)
         else py_ret None) ;;
  OutputArray <~
    (if (plc =? 1)%Z then
       match xi with
       | None => raise (UnboundLocalError "xi")
       | Some xi =>
           plc_low_kr krN amp_maxdB fadeover a_max printInfo OutputArray xi ;;;
           py_ret OutputArray
       end
     else if (plc =? 2)%Z then
       match xi with
       | None => raise (UnboundLocalError "xi")
       | Some xi => lift (set_item OutputArray 0 xi)
       end
     else py_ret OutputArray) ;;
  let normalizeBeam := ((Z.of_nat N + 1) ^ 2)%Z in
  BeamResponse <~
    lift (for_each (range 0 (N + 1))
            (fun ctrb BeamResponse =>
               row <- get_item OutputArray ctrb ;;
               Ok (vadd BeamResponse
                     (vmul (map (fmul (ofZ (2 * Z.of_nat ctrb + 1)))
                                (zip_with (fun m s => array_extrapolation_kr ctrb m s ac)
                                          krm krs))
                           row)))
            (np_zeros krN)) ;;
  let BeamResponse := map (fun x => fdiv x (ofZ normalizeBeam)) BeamResponse in
  py_ret (OutputArray, BeamResponse).

Definition radFilter (heap : nat -> nat -> F) (N : nat) (kr : ndarray F)
    (ac amp_maxdB plc fadeover : Z) (printInfo : bool) : rad_outcome F :=
  let a_max := fpow (ofZ 10) (ofQ (inject_Z amp_maxdB / 20)%Q) in
  let limiteronflag := negb (amp_maxdB =? 0)%Z in
  let t0 := if printInfo then [Printed "radFilter - Modal radial filter generator"]
            else [] in
  match degenerate_guard kr with
  | Err e => RadOutcome kr t0 (Err e)
  | Ok kr' =>
      let '(t, r) :=
        match kr' with
        | Vec v => radFilter_vector heap N v ac amp_maxdB plc fadeover printInfo
                     a_max limiteronflag t0
        | Mat rows => radFilter_narrow_matrix N rows ac amp_maxdB plc fadeover
                        printInfo t0
        end in
      RadOutcome kr' t r
  end.
End RadFilter.

(** ** ideal_wave *)

Section IdealWave.
Context {F : Type} `{Scalar F} `{RealFun F} `{ComplexFun F} `{External F}.

(** Lines 474-478: the right-hand sides of [radial_filters[n] = ...]. *)
Definition plane_filter (n : nat) (array_radius : Q)
    (array_configuration transducer_type : pyval)
    (freqs time_shift : vector F) : vector F :=
  vmul time_shift
    (map (fun f => array_extrapolation n f array_radius array_radius
                     array_configuration transducer_type) freqs).

Definition spherical_filter (n : nat) (array_radius : Q)
    (array_configuration transducer_type : pyval) (distance c : Q)
    (w freqs time_shift : vector F) : vector F :=
  let k_dist := map (fun f => kr_of f distance) freqs in
  vmul
    (vmul
       (vmul (map (fun wi => fdiv (fmul (fmul (fmul (ofZ 4) fpi) (fneg fimag)) wi)
                                  (ofQ c)) w)
             time_shift)
       (map (sphankel2 n) k_dist))
    (map (fun f => array_extrapolation n f array_radius array_radius
                     array_configuration transducer_type) freqs).

(** Lines 443-465: SAFETY CHECKS *)
Definition safety_checks (N : Z) (array_radius : Q)
    (array_configuration transducer_type wavetype : pyval)
    (distance fs : Q) (F_NFFT : Z) (delay : Q) (NFFT SegN lowerSegLim upperSegLim : Z)
  : result unit :=
  if (upperSegLim <? lowerSegLim)%Z then
    Err (ValueError "Upper segment limit needs to be below lower limit.")
  else if (upperSegLim >? NFFT - 1)%Z then
    Err (ValueError "Upper segment limit needs to be below NFFT - 1.")
  else if (upperSegLim >? NFFT - 1)%Z || (upperSegLim <? 0)%Z then
    Err (ValueError "Upper segment limit needs to be between 0 and NFFT - 1.")
  else if (lowerSegLim >? NFFT - 1)%Z || (lowerSegLim <? 0)%Z then
    Err (ValueError "Lower segment limit needs to be between 0 and NFFT - 1.")
  else if (SegN >? N)%Z then
    Err (ValueError "Segment order needs to be smaller than N.")
  else if negb (py_in wavetype ["plane"; "spherical"]) then
    Err (ValueError "Invalid wavetype: Choose either plane or spherical.")
  else if negb (py_in array_configuration ["open"; "rigid"; "dual"]) then
    Err (ValueError "Sphere configuration has to be either open (default), rigid, or dual.")
  else if negb (py_in transducer_type ["pressure"; "velocity"]) then
    Err (ValueError "Transducer type has to be either pressure (default) or velocity.")
  else if py_is array_configuration "dual" && negb (py_is transducer_type "pressure") then
    Err (ValueError "For dual sphere configuration, only pressure transducers are allowed.")
  else if Qltb (inject_Z F_NFFT / 2)%Q (delay * fs)%Q then
    Err (ValueError "Delay t is large for provided NFFT. Choose t < NFFT/(2*FS).")
  else if py_is wavetype "plane" && Qle_bool distance array_radius then
    Err (ValueError "Invalid source distance, source must be outside the microphone radius.")
  else Ok tt.

(** Lines 467-478: the radial filter of every order up to [SegN] *)
Definition radial_filters (array_radius : Q)
    (array_configuration transducer_type wavetype : pyval)
    (distance fs delay c : Q) (NMLocatorSize NFFT : nat) (SegN : Z)
  : result (matrix F) :=
  let w := linspace fzero (fmul fpi (ofQ fs)) NFFT in
  let freqs := linspace fzero (ofQ (fs / 2)%Q) NFFT in
  let time_shift :=
    map (fun wi => fexp (fmul (fmul (fneg fimag) wi) (ofQ delay))) w in
  for_each (range 0 (Z.to_nat (SegN + 1)))
    (fun n radial_filters =>
       if py_is wavetype "plane" then
         set_item radial_filters n
           (plane_filter n array_radius array_configuration transducer_type
              freqs time_shift)
       else if py_is wavetype "spherical" then
         set_item radial_filters n
           (spherical_filter n array_radius array_configuration transducer_type
              distance c w freqs time_shift)
       else Ok radial_filters)
    (np_zeros2 NMLocatorSize NFFT).

(** Lines 480-489: GENERATOR CORE.  (The arrays of [mnArrays(SegN + 1)] are
    bound to [m] and [n], which the loops rebind at once.) *)
Definition generator_core (heap : nat -> nat -> F) (azimuth colatitude : pyobj)
    (radial_filters : matrix F) (NMLocatorSize NFFT : nat) (SegN : Z)
  : result (matrix F) :=
  st <-
    for_each (range 0 (Z.to_nat (SegN + 1)))
      (fun n st =>
         for_each (range_sym n)
           (fun m '(ctr, Pnm) =>
              rf_n <- get_item radial_filters n ;;
              Pnm' <- set_item Pnm ctr
                        (vscale (fconj (sph_harm m n azimuth colatitude)) rf_n) ;;
              Ok (ctr + 1, Pnm'))
           st)
      (0, np_empty heap NMLocatorSize NFFT) ;;
  Ok (snd st).

(** Lines 467-489 *)
Definition generator (heap : nat -> nat -> F)
    (azimuth colatitude : pyobj) (array_radius : Q)
    (array_configuration transducer_type wavetype : pyval)
    (distance fs delay c : Q) (NMLocatorSize NFFT : nat) (SegN : Z)
  : result (matrix F) :=
  rf <- radial_filters array_radius array_configuration transducer_type wavetype
          distance fs delay c NMLocatorSize NFFT SegN ;;
  generator_core heap azimuth colatitude rf NMLocatorSize NFFT SegN.

(** The call passes the safety checks (with [SegN] and [upperSegLim]
    defaulted as lines 438-441 do). *)
Definition passes_validation (N : Z) (array_radius : Q)
    (array_configuration transducer_type wavetype : pyval)
    (distance fs : Q) (F_NFFT : Z) (delay : Q)
    (SegN : option Z) (lowerSegLim : Z) (upperSegLim : option Z) : Prop :=
  let NFFT := Z.quot (F_NFFT + 2) 2 in
  safety_checks N array_radius array_configuration transducer_type wavetype
    distance fs F_NFFT delay NFFT
    (match SegN with None => N | Some s => s end)
    lowerSegLim
    (match upperSegLim with None => (NFFT - 1)%Z | Some u => u end) = Ok tt.

Definition ideal_wave (heap : nat -> nat -> F)
    (N : Z) (azimuth colatitude : pyobj) (array_radius : Q)
    (array_configuration transducer_type scatter_radius wavetype : pyval)
    (distance fs : Q) (F_NFFT : Z) (delay c : Q)
    (SegN : option Z) (lowerSegLim : Z) (upperSegLim : option Z)
  : result (matrix F) :=
  let NFFT := Z.quot (F_NFFT + 2) 2 in          (* int(F_NFFT / 2 + 1) *)
  let NMLocatorSize := ((N + 1) ^ 2)%Z in
  let SegN := match SegN with None => N | Some s => s end in
  let upperSegLim := match upperSegLim with None => (NFFT - 1)%Z | Some u => u end in
  _ <- safety_checks N array_radius array_configuration transducer_type wavetype
         distance fs F_NFFT delay NFFT SegN lowerSegLim upperSegLim ;;
  generator heap azimuth colatitude array_radius array_configuration
    transducer_type wavetype distance fs delay c
    (Z.to_nat NMLocatorSize) (Z.to_nat NFFT) SegN.
End IdealWave.

(** ** sampledWave *)

Section SampledWave.
Context {F : Type} `{Scalar F} `{RealFun F} `{ComplexFun F} `{External F}.

(** [str(z)] *)
Definition show_Z (z : Z) : string := NilZero.string_of_int (Z.to_int z).

(** The parameters of [ideal_wave], in the order of its [def]. *)
Definition ideal_wave_parameters : list string :=
  ["N"; "azimuth"; "colatitude"; "array_radius"; "array_configuration";
   "transducer_type"; "scatter_radius"; "wavetype"; "distance"; "fs";
   "F_NFFT"; "delay"; "c"; "SegN"; "lowerSegLim"; "upperSegLim"].

(** Binding of a call with [npos] positional arguments and the keyword
    arguments [kws] to a function with these parameters and no [**kwargs]. *)
Definition bind_arguments (fname : string) (parameters : list string)
    (npos : nat) (kws : list string) : result unit :=
  if length parameters <? npos then
    Err (TypeError (fname ++ "() takes too many positional arguments")%string)
  else
    for_each kws
      (fun kw _ =>
         if negb (existsb (String.eqb kw) parameters) then
           Err (TypeError (fname ++ "() got an unexpected keyword argument '"
                                 ++ kw ++ "'")%string)
         else if existsb (String.eqb kw) (take npos parameters) then
           Err (TypeError (fname ++ "() got multiple values for argument '"
                                 ++ kw ++ "'")%string)
         else Ok tt)
      tt.

(** A number as Python arithmetic takes it out of [r]. *)
Definition as_number (v : pyval) : result Q :=
  match v with
  | VInt z => Ok (inject_Z z)
  | VFloat q => Ok q
  | VNone | VStr _ => Err (TypeError "unsupported operand type(s) for *")
  end.

(** [np.linspace(0, r * pi * FS / c, NFFT / 2 + 1)] *)
Definition kr_axis (r : Q) (FS NFFT : Z) (c : Q) : result (vector F) :=
  if Qeq_bool c 0 then Err ZeroDivisionError else
  let stop := fdiv (fmul (fmul (ofQ r) fpi) (ofZ FS)) (ofQ c) in
  let num := Z.quot (NFFT + 2) 2 in
  if (num <? 0)%Z then Err (ValueError "Number of samples must be non-negative.")
  else Ok (linspace fzero stop (Z.to_nat num)).

(** [np.max] of an integer array *)
Definition np_max (a : list Z) : result Z :=
  match a with
  | [] => Err (ValueError "zero-size array to reduction operation maximum which has no identity")
  | x :: a' => Ok (foldl Z.max x a')
  end.

(** [np.unique]: the sorted distinct values *)
Fixpoint insert_unique (x : Z) (a : list Z) : list Z :=
  match a with
  | [] => [x]
  | y :: a' =>
      if (x <? y)%Z then x :: y :: a'
      else if (x =? y)%Z then y :: a'
      else y :: insert_unique x a'
  end.

Definition np_unique (a : list Z) : list Z := foldr insert_unique [] a.

(** [np.flatnonzero(a == x)] *)
Definition flatnonzero_eq (a : list Z) (x : Z) : list nat :=
  map fst (filter (fun p => snd p = x) (imap (fun i y => (i, y)) a)).

(** [Pnm += row]: a one-dimensional operand is added to every row; its
    length must be that of the rows, or one. *)
Definition add_broadcast (Pnm : matrix F) (row : vector F) : result (matrix F) :=
  traverse
    (fun r =>
       if decide (length row = length r) then Ok (vadd r row)
       else match row with
            | [x] => Ok (map (fun y => fadd y x) r)
            | _ => Err (ValueError "operands could not be broadcast together")
            end)
    Pnm.

Definition sampledWave (heap : nat -> nat -> F)
    (r : pyobj) (gridData : option (matrix F)) (ac FS NFFT : Z) (AZ EL c : Q)
    (wavetype : Z) (ds : Q) (Nlim : Z) (printInfo : bool)
  : py (matrix F * ndarray F) :=
  gridData <~ match gridData with
              | None => g <~ lebedev 110 true ;; py_ret (fst g)
              | Some g => py_ret g
              end ;;
  krs <~ lift
    match r with
    | PyList l =>                     (* r [2,1] => rs  Sphere Radius (Scatterer) *)
        r0 <- get_item l 0 ;;
        kr0 <- kr_axis r0 FS NFFT c ;;
        r1 <- get_item l 1 ;;
        kr1 <- kr_axis r1 FS NFFT c ;;
        Ok (Mat [kr0; kr1], if Qltb r1 r0 then kr0 else kr1)
    | Atom v =>                       (* r [1,1] => rm  Microphone Radius *)
        q <- as_number v ;;
        kr <- kr_axis q FS NFFT c ;;
        Ok (Vec kr, kr)
    end ;;
  let '(kr, krRef) := krs in
  let minOrderLim := 70%Z in
  let rqOrders := map (fun k => to_int (fceil (fmul k (ofZ 2)))) krRef in
  maxReqOrder <~ lift (np_max rqOrders) ;;
  let rqOrders := map (fun o => if (o <=? minOrderLim)%Z then minOrderLim else o) rqOrders in
  let rqOrders := map (fun o => if (o >? Nlim)%Z then Nlim else o) rqOrders in
  Ng <~ lift (np_max rqOrders) ;;
  (if (maxReqOrder >? Ng)%Z then
     print ("WARNING: Requested wave needs a minimum order of " ++ show_Z maxReqOrder
            ++ " but only order " ++ show_Z Ng ++ "can be delivered.")%string
   else if (minOrderLim =? Ng)%Z then
     when printInfo (print ("Full spectrum generator order: " ++ show_Z Ng)%string)
   else
     when printInfo (print ("Segmented generator orders: " ++ show_Z minOrderLim
                            ++ " to " ++ show_Z Ng)%string)) ;;;
  (* SEGMENTATION *)
  let Pnm := np_zeros2 (Z.to_nat ((Ng + 1) ^ 2)) (Z.to_nat (Z.quot (NFFT + 2) 2)) in
  let unique_orders := np_unique rqOrders in
  Pnm <~
    py_for_each (imap (fun idx order => (idx, order)) unique_orders)
      (fun '(idx, order) Pnm =>
         emit (ProgressBar idx (length unique_orders)
                 "sampledWave - Sampled Wave Generator") ;;;
         let fOrders := flatnonzero_eq rqOrders order in
         lo <~ lift (get_item fOrders 0) ;;
         hi <~ lift (last_item fOrders) ;;
         emit (IdealWaveCall order (Z.of_nat lo) (Z.of_nat hi)) ;;;
         (* ideal_wave(Ng, r, ac, FS, NFFT, AZ, EL, wavetype=wavetype, ds=ds,
                       lowerSegLim=fOrders[0], upperSegLim=fOrders[-1],
                       SegN=order, printInfo=False) *)
         lift (bind_arguments "ideal_wave" ideal_wave_parameters 7
                 ["wavetype"; "ds"; "lowerSegLim"; "upperSegLim"; "SegN";
                  "printInfo"]) ;;;
         seg <~ lift (ideal_wave heap Ng r (Atom (VInt ac)) (inject_Z FS) (VInt NFFT)
                        (VFloat AZ) (VFloat EL) (VInt wavetype)
                        1%Q (44100 # 1)%Q 512%Z 0%Q (343 # 1)%Q
                        (Some order) (Z.of_nat lo) (Some (Z.of_nat hi))) ;;
         row0 <~ lift (get_item seg 0) ;;
         lift (add_broadcast Pnm row0))
      Pnm ;;
  let fftData := iSpatFT Pnm gridData in
  py_ret (fftData, kr).
End SampledWave.

(** ** Closed forms of the loops

    The right-hand sides of the assignments in the loops of [radFilter] and
    [ideal_wave], named so that the rows of the results can be stated. *)

Section ClosedForms.
Context {F : Type} `{Scalar F} `{RealFun F} `{ComplexFun F} `{External F}.

(** Lines 214-217: what [OutputArray[ctr]] is assigned *)
Definition filter_row (ctr : nat) (krm krs : vector F) (ac : Z)
    (limiteronflag : bool) (a_max : F) : vector F :=
  let bnval := zip_with (fun m s => array_extrapolation_kr ctr m s ac) krm krs in
  let amplicalc :=
    if limiteronflag then map (soft_limit a_max) bnval
    else map (fun _ => ofZ 1) bnval in
  vdiv amplicalc bnval.

(** Lines 467-478: what [radial_filters[n]] holds for an order [n] the loop
    visits *)
Definition radial_filter_of (n : nat) (array_radius : Q)
    (array_configuration transducer_type wavetype : pyval)
    (distance fs delay c : Q) (NFFT : nat) : vector F :=
  let w := linspace fzero (fmul fpi (ofQ fs)) NFFT in
  let freqs := linspace fzero (ofQ (fs / 2)%Q) NFFT in
  let time_shift :=
    map (fun wi => fexp (fmul (fmul (fneg fimag) wi) (ofQ delay))) w in
  if py_is wavetype "plane" then
    plane_filter n array_radius array_configuration transducer_type freqs time_shift
  else if py_is wavetype "spherical" then
    spherical_filter n array_radius array_configuration transducer_type
      distance c w freqs time_shift
  else np_zeros NFFT.

(** Lines 262-268: the beam response of a filter bank *)
Definition beam_response (N : nat) (krm krs : vector F) (ac : Z)
    (OutputArray : matrix F) : result (vector F) :=
  BeamResponse <-
    for_each (range 0 (N + 1))
      (fun ctrb BeamResponse =>
         row <- get_item OutputArray ctrb ;;
         Ok (vadd BeamResponse
               (vmul (map (fmul (ofZ (2 * Z.of_nat ctrb + 1)))
                          (zip_with (fun m s => array_extrapolation_kr ctrb m s ac)
                                    krm krs))
                     row)))
      (np_zeros (length krm)) ;;
  Ok (map (fun x => fdiv x (ofZ ((Z.of_nat N + 1) ^ 2))) BeamResponse).
End ClosedForms.

(** ** whiteNoise and spherical_noise *)

(** numpy's FFT and [sph.sph_harm_all], which only these two functions
    use. *)
Class Spectral (F : Type) : Type := {
  (* numpy.fft.rfft of one row of at least one sample *)
  np_rfft : vector F -> vector F;
  (* sph.sph_harm_all(nMax, az, co): one row per grid point *)
  sph_harm_all : Z -> pyobj -> pyobj -> matrix F
}.

Section Noise.
Context {F : Type} `{Scalar F} `{RealFun F} `{ComplexFun F} `{Spectral F}.

(** [np.atleast_2d] of an array of one or two dimensions *)
Definition atleast_2d (a : ndarray F) : matrix F :=
  match a with
  | Vec v => [v]
  | Mat rows => rows
  end.

(** [a.shape[1]].  A matrix is the list of its rows, so one without rows
    has no column count of its own and is taken to have no columns; the
    properties of [whiteNoise] and [spherical_noise] are stated for
    matrices of at least one row. *)
Definition ncols (a : matrix F) : nat :=
  match a with
  | [] => 0
  | row :: _ => length row
  end.

(** [np.random.rand(rows, cols)]: [draw i j] is the sample the generator
    yields for row [i], column [j]. *)
Definition np_random_rand (draw : nat -> nat -> F) (rows : nat) (cols : Z)
  : result (matrix F) :=
  if (cols <? 0)%Z then Err (ValueError "negative dimensions are not allowed")
  else Ok (map (fun i => map (draw i) (seq 0 (Z.to_nat cols))) (seq 0 rows)).

(** [np.mean] over all entries *)
Definition np_mean (a : matrix F) : F :=
  fdiv (vsum (concat a)) (ofZ (Z.of_nat (length (concat a)))).

(** Line 50: [dimFactor * nNoise / np.mean(np.abs(nNoise))] *)
Definition scale_noise (dimFactor : F) (nNoise : matrix F) : matrix F :=
  let m := np_mean (map (map fabs) nNoise) in
  map (map (fun x => fdiv (fmul dimFactor x) m)) nNoise.

(** [np.fft.rfft(a, axis=1)] of an array with [n] columns *)
Definition np_fft_rfft (n : nat) (a : matrix F) : result (matrix F) :=
  if n =? 0 then Err (ValueError "Invalid number of FFT data points (0) specified.")
  else Ok (map np_rfft a).

(** [a + b] for two matrices with as many rows; on the columns numpy
    broadcasts a length of one. *)
Definition add_rows (u v : vector F) : result (vector F) :=
  if decide (length u = length v) then Ok (vadd u v)
  else match u, v with
       | [x], _ => Ok (map (fadd x) v)
       | _, [y] => Ok (map (fun a => fadd a y) u)
       | _, _ => Err (ValueError "operands could not be broadcast together")
       end.

Definition add_matrices (a b : matrix F) : result (matrix F) :=
  traverse (fun uv => add_rows (fst uv) (snd uv)) (zip a b).

(** Lines 45-50: the noise in the time domain *)
Definition noise_block (draw : nat -> nat -> F) (channels : nat) (NFFT noiseLevel : Z)
  : result (matrix F) :=
  let dimFactor := fpow (ofZ 10) (ofQ (inject_Z noiseLevel / 20)%Q) in
  nNoise <- np_random_rand draw channels NFFT ;;
  Ok (scale_noise dimFactor nNoise).

Definition whiteNoise (draw : nat -> nat -> F) (fftData : ndarray F)
    (noiseLevel : Z) (printInfo : bool) : py (matrix F) :=
  when printInfo (print "Additive White Gaussian Noise Generator") ;;;
  let fftData := atleast_2d fftData in
  let channels := length fftData in
  let NFFT := (Z.of_nat (ncols fftData) * 2 - 2)%Z in
  nNoise <~ lift (noise_block draw channels NFFT noiseLevel) ;;
  nNoiseSpectrum <~ lift (np_fft_rfft (Z.to_nat NFFT) nNoise) ;;
  lift (add_matrices fftData nNoiseSpectrum).

(** What numpy's [rfft] is known to return for [n >= 1] samples:
    [n // 2 + 1] bins. *)
Definition rfft_returns : Prop :=
  forall v : vector F, v <> [] -> length (np_rfft v) = length v / 2 + 1.

(** [np.inner(a, b)] for a matrix [a] and a vector [b] *)
Definition np_inner (a : matrix F) (b : vector F) : result (vector F) :=
  traverse
    (fun row =>
       if decide (length row = length b) then Ok (vsum (vmul row b))
       else Err (ValueError "shapes not aligned"))
    a.

(** [randn_re] and [randn_im] are the samples of the two calls of
    [np.random.randn], in the order the generator yields them. *)
Definition spherical_noise (randn_re randn_im : nat -> F)
    (azimuth_grid colatitude_grid : pyobj) (order_max : Z)
    (spherical_harmonic_bases : option (matrix F)) : result (vector F) :=
  let spherical_harmonic_bases :=
    match spherical_harmonic_bases with
    | None => sph_harm_all order_max azimuth_grid colatitude_grid
    | Some b => b
    end in
  let n := Z.to_nat ((order_max + 1) ^ 2) in
  np_inner spherical_harmonic_bases
    (vadd (map randn_re (seq 0 n)) (map (fun i => fmul fimag (randn_im i)) (seq 0 n))).
End Noise.

(** ** What a run leaves in the trace *)

(** The event is a call of [ideal_wave]. *)
Definition is_ideal_wave_call (e : event) : bool :=
  match e with
  | IdealWaveCall _ _ _ => true
  | _ => false
  end.

(** [m] adds no call of [ideal_wave] to the trace. *)
Definition calls_nothing {A : Type} (m : py A) : Prop :=
  forall t, exists added,
    fst (m t) = t ++ added /\ Forall (fun e => is_ideal_wave_call e = false) added.

(** [m] calls [ideal_wave] at most once, and a run that calls it ends there
    with the exception [e]. *)
Definition stops_at_first_call {A : Type} (e : exn) (m : py A) : Prop :=
  forall t, exists before calls,
    fst (m t) = t ++ before ++ calls
    /\ Forall (fun e => is_ideal_wave_call e = false) before
    /\ (calls = []
        \/ exists order lo hi,
             calls = [IdealWaveCall order lo hi] /\ snd (m t) = Err e).

(** ** setup.py

    [version = open(...).readlines()[-1].split()[-1].strip(...)]: text is a
    list of characters below code point 256, and the function starts from
    the lines [readlines()] returned. *)

(** [c.isspace()] *)
Definition is_space (c : ascii) : bool :=
  let n := nat_of_ascii c in
  ((9 <=? n) && (n <=? 13)) || ((28 <=? n) && (n <=? 32)) || (n =? 133) || (n =? 160).

(** [s.split()]: [tok] is the word being read. *)
Fixpoint split_from (tok s : list ascii) : list (list ascii) :=
  match s with
  | [] => match tok with [] => [] | _ => [tok] end
  | c :: s' =>
      if is_space c then
        match tok with
        | [] => split_from [] s'
        | _ => tok :: split_from [] s'
        end
      else split_from (tok ++ [c]) s'
  end.

Definition py_split (s : list ascii) : list (list ascii) := split_from [] s.

(** [s.lstrip(chars)], [s.rstrip(chars)] and [s.strip(chars)] *)
Fixpoint lstrip (chars s : list ascii) : list ascii :=
  match s with
  | [] => []
  | c :: s' => if existsb (Ascii.eqb c) chars then lstrip chars s' else s
  end.

Definition rstrip (chars s : list ascii) : list ascii := rev (lstrip chars (rev s)).

Definition strip (chars s : list ascii) : list ascii := rstrip chars (lstrip chars s).

(** [a[-1]] of a list *)
Definition py_last {A : Type} (a : list A) : result A :=
  match last a with
  | Some x => Ok x
  | None => Err (IndexError "list index out of range")
  end.

(** The two quotation marks, double and single *)
Definition quotes : list ascii := [ascii_of_nat 34; ascii_of_nat 39].

Definition version (lines : list (list ascii)) : result (list ascii) :=
  line <- py_last lines ;;
  word <- py_last (py_split line) ;;
  Ok (strip quotes word).

(** ** Two carriers for the scalars

    [Exact]: the real numbers, for the properties that are about values
    (what [gaussGrid] returns).  [Rational]: rational numbers with rational
    stand-ins for the transcendental functions and for the functions of other
    modules, on which the model runs. *)

Module Exact.
Definition floor (x : R) : Z := (up x - 1)%Z.

#[export] Instance scalar : Scalar R := {
  fzero := 0%R;
  fone := 1%R;
  fadd := Rplus;
  fsub := Rminus;
  fmul := Rmult;
  fdiv := Rdiv;
  ofZ := IZR;
  ofQ := Q2R;
  fpi := PI
}.

#[export] Instance realfun : RealFun R := {
  fneg := Ropp;
  fabs := Rabs;
  farctan := atan;
  farccos := acos;
  flog10 := fun x => (ln x / ln 10)%R;
  fsqrt := sqrt;
  ffloor := fun x => IZR (floor x);
  fceil := fun x => IZR (- floor (- x));
  fpow := Rpower;
  fmod := fun a b => (a - b * IZR (floor (a / b)))%R;
  to_int := fun x => if Rle_dec 0 x then floor x else (- floor (- x))%Z;
  feqb := fun a b => if Req_dec_T a b then true else false;
  fltb := fun a b => if Rlt_dec a b then true else false;
  fshow := fun _ => "<float>"
}.

(** The one-point Gauss-Legendre rule (node 0, weight 2) and stand-ins for
    the functions [gaussGrid] does not call. *)
Definition one_point_rule : External R := {|
  array_extrapolation := fun _ f _ _ _ _ => f;
  array_extrapolation_kr := fun _ km _ _ => km;
  sph_harm := fun _ _ _ _ => 1%R;
  sphankel2 := fun _ x => x;
  kr_of := fun f _ => f;
  cart2sph := fun x y z => (x, y, z);
  genGrid := fun _ => Ok [];
  iSpatFT := fun Pnm _ => Pnm;
  leggauss := fun _ => ([0%R], [2%R]);
  argsort := fun v => seq 0 (length v);
  radFilter_narrow_matrix := fun _ _ _ _ _ _ _ =>
    raise (ValueError "non-broadcastable output operand")
|}.

(** Stand-ins with the shape of [rfft]'s result and a basis of one point. *)
Definition leading_bins : Spectral R := {|
  np_rfft := fun v => take (length v / 2 + 1) v;
  sph_harm_all := fun order_max _ _ => [replicate (Z.to_nat ((order_max + 1) ^ 2)) 1%R]
|}.
End Exact.

Module Rational.
Definition Qmod (a b : Q) : Q := (a - b * inject_Z (Qfloor (a / b)))%Q.

Definition show_Q (q : Q) : string :=
  (NilZero.string_of_int (Z.to_int (Qnum q)) ++ "/"
   ++ NilZero.string_of_int (Z.to_int (Zpos (Qden q))))%string.

#[export] Instance scalar : Scalar Q := {
  fzero := 0%Q;
  fone := 1%Q;
  fadd := Qplus;
  fsub := Qminus;
  fmul := Qmult;
  fdiv := Qdiv;
  ofZ := inject_Z;
  ofQ := fun q => q;
  fpi := (355 # 113)%Q
}.

#[export] Instance realfun : RealFun Q := {
  fneg := Qopp;
  fabs := Qabs;
  farctan := fun x => (x / (1 + Qabs x) * (355 # 226))%Q;
  farccos := fun x => ((1 - x) * (355 # 226))%Q;
  flog10 := fun x => (x - 1)%Q;
  fsqrt := fun x => (inject_Z (Z.sqrt (Qfloor (x * 1000000))) / 1000)%Q;
  ffloor := fun x => inject_Z (Qfloor x);
  fceil := fun x => inject_Z (Qceiling x);
  fpow := fun a b => Qpower a (Qfloor b);
  fmod := Qmod;
  to_int := fun x => Z.quot (Qnum x) (Zpos (Qden x));
  feqb := Qeq_bool;
  fltb := Qltb;
  fshow := show_Q
}.

#[export] Instance complexfun : ComplexFun Q := {
  fimag := 0%Q;
  fconj := fun x => x;
  fexp := fun x => (1 + x)%Q
}.

(** A stable argsort by insertion. *)
Fixpoint insert_by_value (p : nat * Q) (a : list (nat * Q)) : list (nat * Q) :=
  match a with
  | [] => [p]
  | q :: a' =>
      if Qltb (snd p) (snd q) then p :: q :: a'
      else q :: insert_by_value p a'
  end.

Definition argsort_Q (v : list Q) : list nat :=
  map fst (foldr insert_by_value [] (imap (fun i x => (i, x)) v)).

(** Six points on the axes with equal weights stand for every table. *)
Definition genGrid_Q (degree : Z) : result (list (Q * Q * Q * Q)) :=
  if existsb (Z.eqb degree) deg_avail then
    Ok [(1, 0, 0, 1 # 6); (-1, 0, 0, 1 # 6); (0, 1, 0, 1 # 6);
        (0, -1, 0, 1 # 6); (0, 0, 1, 1 # 6); (0, 0, -1, 1 # 6)]%Q
  else Err (ValueError "no such Lebedev grid").

#[export] Instance external : External Q := {
  array_extrapolation := fun n f _ _ _ _ => (inject_Z (Z.of_nat n) + 1 + f)%Q;
  array_extrapolation_kr := fun n km ks _ => (inject_Z (Z.of_nat n) + 1 + km * ks)%Q;
  sph_harm := fun m n _ _ => (inject_Z m + inject_Z (Z.of_nat n) + 1)%Q;
  sphankel2 := fun n x => (inject_Z (Z.of_nat n) + x)%Q;
  kr_of := fun f d => (f * d)%Q;
  cart2sph := fun x y z => (x, y, z);
  genGrid := genGrid_Q;
  iSpatFT := fun Pnm _ => Pnm;
  leggauss := fun n =>
    (map (fun i => ((2 * inject_Z (Z.of_nat i) + 1) / inject_Z (Z.of_nat n) - 1)%Q) (seq 0 n),
     replicate n (2 / inject_Z (Z.of_nat n))%Q);
  argsort := argsort_Q;
  radFilter_narrow_matrix := fun _ _ _ _ _ _ _ =>
    raise (ValueError "non-broadcastable output operand")
}.

(** Arguments for sample calls *)
Definition plane : pyval := VStr (lit "plane").
Definition open_sphere : pyval := VStr (lit "open").
Definition pressure : pyval := VStr (lit "pressure").
Definition angle : pyobj := Atom (VFloat 0%Q).

Definition zero_heap : nat -> nat -> Q := fun _ _ => 0%Q.
Definition stale_heap : nat -> nat -> Q := fun _ _ => (7 # 1)%Q.

(** Stand-ins with the shape of [rfft]'s result and a basis of one point. *)
#[export] Instance spectral : Spectral Q := {
  np_rfft := fun v => take (length v / 2 + 1) v;
  sph_harm_all := fun order_max _ _ => [replicate (Z.to_nat ((order_max + 1) ^ 2)) 1%Q]
}.

(** A generator that yields 1/2, 1/3, 1/4, ... along each row. *)
Definition ramp : nat -> nat -> Q := fun _ j => (1 / inject_Z (Z.of_nat j + 2))%Q.
End Rational.

(** * Properties *)

(** ** Loops *)

Lemma for_each_inv {X St : Type} (I : nat -> St -> Prop) (xs : list X)
    (body : X -> St -> result St) (st : St) :
  I 0 st ->
  (forall i x s, xs !! i = Some x -> I i s ->
     exists s', body x s = Ok s' /\ I (S i) s') ->
  exists s', for_each xs body st = Ok s' /\ I (length xs) s'.
Proof.
  revert I st. induction xs as [|x xs IH]; intros I st H0 Hstep; simpl.
  - exists st. split; [reflexivity | assumption].
  - destruct (Hstep 0 x st eq_refl H0) as (s1 & E1 & I1).
    rewrite E1. simpl.
    apply (IH (fun i => I (S i))); [assumption |].
    intros i y s Hy Hi. apply (Hstep (S i) y s); assumption.
Qed.

Lemma range_lookup (k i x : nat) : range 0 k !! i = Some x -> x = i /\ i < k.
Proof.
  unfold range. rewrite Nat.sub_0_r. intros Hl.
  apply lookup_seq in Hl. lia.
Qed.

Lemma range_length (k : nat) : length (range 0 k) = k.
Proof. unfold range. rewrite length_seq. lia. Qed.

Lemma range_sym_length (n : nat) : length (range_sym n) = 2 * n + 1.
Proof. unfold range_sym. rewrite length_map, length_seq. reflexivity. Qed.

Lemma set_item_ok {A : Type} (a : list A) (i : nat) (x : A) :
  i < length a -> set_item a i x = Ok (<[i := x]> a).
Proof. intros Hi. unfold set_item. destruct (decide (i < length a)); [reflexivity | lia]. Qed.

Lemma get_item_ok {A : Type} (a : list A) (i : nat) :
  i < length a -> exists x, get_item a i = Ok x /\ a !! i = Some x.
Proof.
  intros Hi. unfold get_item.
  destruct (lookup_lt_is_Some_2 a i Hi) as [x Hx].
  exists x. rewrite Hx. split; reflexivity.
Qed.

Lemma map_lookup {A B : Type} (f : A -> B) (l : list A) (i : nat) :
  map f l !! i = f <$> (l !! i).
Proof.
  revert i. induction l as [|x l IH]; intros [|i]; simpl; try reflexivity.
  apply IH.
Qed.

Lemma map_replicate {A B : Type} (f : A -> B) (n : nat) (x : A) :
  map f (replicate n x) = replicate n (f x).
Proof. induction n as [|n IH]; simpl; [reflexivity | rewrite IH; reflexivity]. Qed.

Lemma np_empty_length {F : Type} (heap : nat -> nat -> F) (rows cols : nat) :
  length (np_empty heap rows cols) = rows.
Proof. unfold np_empty. rewrite length_map, length_seq. reflexivity. Qed.

Lemma np_empty_lookup {F : Type} (heap : nat -> nat -> F) (rows cols i : nat) :
  i < rows -> np_empty heap rows cols !! i = Some (map (heap i) (seq 0 cols)).
Proof.
  intros Hi. unfold np_empty. rewrite map_lookup.
  rewrite (lookup_seq_lt 0 rows i Hi). reflexivity.
Qed.

(** ** ideal_wave *)

Section IdealWaveFacts.
Context {F : Type} `{Scalar F} `{RealFun F} `{ComplexFun F} `{External F}.

(** Every way out of the safety checks but the last is a [ValueError]. *)
Lemma safety_checks_error N ar acfg tr wt d fs F_NFFT delay NFFT s l u e :
  safety_checks N ar acfg tr wt d fs F_NFFT delay NFFT s l u = Err e ->
  exists msg, e = ValueError msg.
Proof.
  unfold safety_checks.
  repeat match goal with
         | |- (if ?b then _ else _) = _ -> _ => destruct b
         end;
    intros E; inversion E; eauto.
Qed.

Lemma safety_checks_bounds N ar acfg tr wt d fs F_NFFT delay NFFT s l u :
  safety_checks N ar acfg tr wt d fs F_NFFT delay NFFT s l u = Ok tt ->
  (0 <= l <= u)%Z /\ (u <= NFFT - 1)%Z /\ (s <= N)%Z.
Proof.
  unfold safety_checks.
  destruct (u <? l)%Z eqn:E1; [discriminate |].
  destruct (u >? NFFT - 1)%Z eqn:E2; [discriminate |].
  simpl.
  destruct (u <? 0)%Z eqn:E3; [discriminate |].
  destruct (l >? NFFT - 1)%Z eqn:E4; [discriminate |].
  simpl.
  destruct (l <? 0)%Z eqn:E5; [discriminate |].
  destruct (s >? N)%Z eqn:E6; [discriminate |].
  intros _. lia.
Qed.

(** The loop of lines 473-478 never indexes out of range. *)
Lemma radial_filters_returns ar acfg tr wt d fs delay c rows nfft SegN :
  Z.to_nat (SegN + 1) * Z.to_nat (SegN + 1) <= rows ->
  exists rf,
    radial_filters ar acfg tr wt d fs delay c rows nfft SegN = Ok rf
    /\ length rf = rows.
Proof.
  intros Hrows. unfold radial_filters. cbv zeta.
  set (K := Z.to_nat (SegN + 1)) in *.
  match goal with
  | |- context [for_each (range 0 K) ?body ?st] =>
      destruct (for_each_inv (fun _ rf => length rf = rows) (range 0 K) body st)
        as (rf & Erf & Hrf)
  end.
  - unfold np_zeros2. apply length_replicate.
  - intros i n rf Hn Hlen. apply range_lookup in Hn as [-> Hi].
    assert (i < length rf) by nia.
    destruct (py_is wt "plane");
      [| destruct (py_is wt "spherical") ];
      try (rewrite set_item_ok by assumption; eexists; split;
           [reflexivity | rewrite length_insert; assumption]).
    eexists; split; [reflexivity | assumption].
  - exists rf. split; assumption.
Qed.

(** The generator core never indexes out of range.  It writes row
    [n^2 + n + m] for every order [n <= SegN] and degree [m] in [-n .. n], and
    leaves the rows from [(SegN + 1)^2] on as the allocator handed them
    out. *)
Lemma generator_core_rows heap az col (rf : list (list F)) rows nfft SegN :
  length rf = rows ->
  Z.to_nat (SegN + 1) * Z.to_nat (SegN + 1) <= rows ->
  exists Pnm,
    generator_core heap az col rf rows nfft SegN = Ok Pnm
    /\ length Pnm = rows
    /\ (forall i, Z.to_nat (SegN + 1) * Z.to_nat (SegN + 1) <= i ->
          Pnm !! i = np_empty heap rows nfft !! i)
    /\ (forall n j row,
          n < Z.to_nat (SegN + 1) -> j < 2 * n + 1 -> rf !! n = Some row ->
          Pnm !! (n * n + j)
          = Some (vscale (fconj (sph_harm (Z.of_nat j - Z.of_nat n) n az col)) row)).
Proof.
  intros Hrf Hrows. unfold generator_core.
  set (K := Z.to_nat (SegN + 1)) in *.
  set (P0 := np_empty heap rows nfft).
  set (written := fun (P : list (list F)) (n j : nat) =>
         forall row, rf !! n = Some row ->
           P !! (n * n + j)
           = Some (vscale (fconj (sph_harm (Z.of_nat j - Z.of_nat n) n az col)) row)).
  match goal with
  | |- context [for_each (range 0 K) ?body (0, P0)] =>
      destruct (for_each_inv
                  (fun n st => fst st = n * n /\ length (snd st) = rows
                               /\ (forall i, n * n <= i -> snd st !! i = P0 !! i)
                               /\ (forall n' j, n' < n -> j < 2 * n' + 1 ->
                                     written (snd st) n' j))
                  (range 0 K) body (0, P0)) as (st & Est & Hst)
  end.
  { simpl. split; [reflexivity |]. split; [apply np_empty_length |].
    split; [reflexivity |]. intros n' j Hn'. lia. }
  { intros j n st Hn (Hctr & Hlen & Hrest & Hdone).
    apply range_lookup in Hn as [-> Hj].
    match goal with
    | |- context [for_each (range_sym j) ?body st] =>
        destruct (for_each_inv
                    (fun k st' => fst st' = j * j + k /\ length (snd st') = rows
                                  /\ (forall i, j * j + k <= i -> snd st' !! i = P0 !! i)
                                  /\ (forall i, i < j * j -> snd st' !! i = snd st !! i)
                                  /\ (forall k', k' < k -> written (snd st') j k'))
                    (range_sym j) body st) as (st' & Est' & Hst')
    end.
    { rewrite Nat.add_0_r. split; [assumption |]. split; [assumption |].
      split; [assumption |]. split; [reflexivity |]. intros k' Hk'. lia. }
    { intros k m [ctr Pnm] Hm (Hc & Hl & Hr & Hlow & Hw). simpl in Hc, Hl, Hr, Hlow, Hw.
      assert (Hk : k < 2 * j + 1).
      { apply lookup_lt_Some in Hm. rewrite range_sym_length in Hm. lia. }
      assert (Em : m = (Z.of_nat k - Z.of_nat j)%Z).
      { unfold range_sym in Hm. rewrite map_lookup in Hm.
        rewrite (lookup_seq_lt 0 _ k Hk) in Hm. inversion Hm. reflexivity. }
      destruct (get_item_ok rf j) as (row & Erow & Hrow); [nia |].
      rewrite Erow. simpl.
      rewrite set_item_ok by nia. simpl.
      eexists; split; [reflexivity |]. simpl.
      split; [lia |]. split; [rewrite length_insert; assumption |].
      split; [intros i Hi; rewrite list_lookup_insert_ne by lia; apply Hr; lia |].
      split; [intros i Hi; rewrite list_lookup_insert_ne by lia; apply Hlow; lia |].
      intros k' Hk' row' Hrow'.
      destruct (decide (k' = k)) as [-> | Hne].
      - rewrite Hc, list_lookup_insert_eq by nia.
        rewrite Hrow in Hrow'. inversion Hrow'. subst row' m. reflexivity.
      - rewrite list_lookup_insert_ne by lia. apply Hw; [lia | assumption]. }
    rewrite range_sym_length in Hst'.
    exists st'. split; [assumption |].
    destruct Hst' as (Hc & Hl & Hr & Hlow & Hw).
    split; [lia |]. split; [assumption |].
    split; [intros i Hi; apply Hr; lia |].
    intros n' k Hn' Hk.
    destruct (decide (n' = j)) as [-> | Hne].
    - apply Hw. assumption.
    - intros row Hrow. rewrite Hlow by nia. apply Hdone; [lia | assumption | assumption]. }
  rewrite range_length in Hst.
  rewrite Est. simpl.
  exists (snd st). destruct Hst as (_ & Hl & Hr & Hw).
  split; [reflexivity |]. split; [assumption |]. split; [assumption |].
  intros n j row Hn Hj Hrow. apply Hw; assumption.
Qed.

Lemma generator_rows heap az col ar acfg tr wt d fs delay c rows nfft SegN :
  Z.to_nat (SegN + 1) * Z.to_nat (SegN + 1) <= rows ->
  exists Pnm,
    generator heap az col ar acfg tr wt d fs delay c rows nfft SegN = Ok Pnm
    /\ length Pnm = rows
    /\ forall i, Z.to_nat (SegN + 1) * Z.to_nat (SegN + 1) <= i ->
         Pnm !! i = np_empty heap rows nfft !! i.
Proof.
  intros Hrows. unfold generator.
  destruct (radial_filters_returns ar acfg tr wt d fs delay c rows nfft SegN Hrows)
    as (rf & Erf & Hrf).
  destruct (generator_core_rows heap az col rf rows nfft SegN Hrf Hrows)
    as (Pnm & E & Hlen & Hhigh & _).
  rewrite Erf. simpl. exists Pnm. auto.
Qed.

(** The rows the generator core writes do not depend on the block [np.empty]
    handed out. *)
Lemma generator_written_rows heap1 heap2 az col ar acfg tr wt d fs delay c rows nfft
    SegN Pnm1 Pnm2 i :
  generator heap1 az col ar acfg tr wt d fs delay c rows nfft SegN = Ok Pnm1 ->
  generator heap2 az col ar acfg tr wt d fs delay c rows nfft SegN = Ok Pnm2 ->
  Z.to_nat (SegN + 1) * Z.to_nat (SegN + 1) <= rows ->
  i < Z.to_nat (SegN + 1) * Z.to_nat (SegN + 1) ->
  Pnm1 !! i = Pnm2 !! i.
Proof.
  unfold generator. intros E1 E2 Hrows Hi.
  destruct (radial_filters_returns ar acfg tr wt d fs delay c rows nfft SegN Hrows)
    as (rf & Erf & Hrf).
  rewrite Erf in E1, E2. simpl in E1, E2.
  destruct (generator_core_rows heap1 az col rf rows nfft SegN Hrf Hrows)
    as (P1 & EP1 & _ & _ & Hw1).
  destruct (generator_core_rows heap2 az col rf rows nfft SegN Hrf Hrows)
    as (P2 & EP2 & _ & _ & Hw2).
  rewrite EP1 in E1. rewrite EP2 in E2. inversion E1. inversion E2. subst.
  set (K := Z.to_nat (SegN + 1)) in *.
  set (n := Nat.sqrt i).
  pose proof (Nat.sqrt_spec i (Nat.le_0_l i)) as [Hlo Hhi]. fold n in Hlo, Hhi.
  assert (Hn : n < K) by nia.
  destruct (lookup_lt_is_Some_2 rf n) as [row Hrow]; [nia |].
  replace i with (n * n + (i - n * n)) by lia.
  rewrite (Hw1 n (i - n * n) row), (Hw2 n (i - n * n) row);
    try assumption; try reflexivity; simpl in Hhi; lia.
Qed.

(** A call that passes the safety checks returns. *)
Lemma ideal_wave_returns heap N az col ar acfg tr sr wt d fs F_NFFT delay c SegN l u :
  passes_validation N ar acfg tr wt d fs F_NFFT delay SegN l u ->
  exists Pnm,
    ideal_wave heap N az col ar acfg tr sr wt d fs F_NFFT delay c SegN l u = Ok Pnm
    /\ generator heap az col ar acfg tr wt d fs delay c
         (Z.to_nat ((N + 1) ^ 2)) (Z.to_nat (Z.quot (F_NFFT + 2) 2))
         (match SegN with None => N | Some s => s end) = Ok Pnm.
Proof.
  unfold passes_validation, ideal_wave. intros Hv.
  simpl in Hv. rewrite Hv. simpl.
  apply safety_checks_bounds in Hv as (_ & _ & Hs).
  destruct (generator_rows heap az col ar acfg tr wt d fs delay c
              (Z.to_nat ((N + 1) ^ 2)) (Z.to_nat (Z.quot (F_NFFT + 2) 2))
              (match SegN with None => N | Some s => s end)) as (Pnm & E & _).
  { nia. }
  exists Pnm. split; assumption.
Qed.
End IdealWaveFacts.

Section IdealWaveClaims.
Context {F : Type} `{Scalar F} `{RealFun F} `{ComplexFun F} `{External F}.

(** C4 (as the code has it).  In a call of [ideal_wave] that returns with
    segment order [SegN < N], every row of [Pnm] whose flattened
    (order, degree) index is at or above [(SegN + 1)^2] is the row of the
    block [np.empty] handed out, untouched: the generator core writes rows
    [0 .. (SegN + 1)^2 - 1] only, and nothing sets the others to zero. *)
Theorem ideal_wave_rows_above_segment_order
    heap N az col ar acfg tr sr wt d fs F_NFFT delay c s l u Pnm i :
  ideal_wave heap N az col ar acfg tr sr wt d fs F_NFFT delay c (Some s) l u
    = Ok Pnm ->
  (s < N)%Z ->
  ((s + 1) ^ 2 <= Z.of_nat i < (N + 1) ^ 2)%Z ->
  Pnm !! i = Some (map (heap i) (seq 0 (Z.to_nat (Z.quot (F_NFFT + 2) 2)))).
Proof.
  intros Hcall Hs Hi. unfold ideal_wave in Hcall.
  destruct (safety_checks N ar acfg tr wt d fs F_NFFT delay
              (Z.quot (F_NFFT + 2) 2) s l
              (match u with None => (Z.quot (F_NFFT + 2) 2 - 1)%Z | Some u0 => u0 end))
    as [[]|e] eqn:Hv; simpl in Hcall; [| discriminate].
  destruct (generator_rows heap az col ar acfg tr wt d fs delay c
              (Z.to_nat ((N + 1) ^ 2)) (Z.to_nat (Z.quot (F_NFFT + 2) 2)) s)
    as (P' & E' & _ & Hrows').
  { nia. }
  rewrite E' in Hcall. inversion Hcall; subst P'.
  rewrite Hrows' by nia.
  apply np_empty_lookup. lia.
Qed.

(** X9.  When wavetype is the literal ['plane'], every call with
    [distance <= array_radius] (equality included) raises a [ValueError] out
    of the safety checks; and when the call would pass them with some other
    distance, the error is the one about the source distance. *)
Lemma ideal_wave_plane_source_inside_array
    heap N az col ar acfg tr sr d fs F_NFFT delay c SegN l u :
  (d <= ar)%Q ->
  (exists msg,
     ideal_wave heap N az col ar acfg tr sr (VStr (lit "plane")) d fs F_NFFT
       delay c SegN l u = Err (ValueError msg))
  /\ (forall d',
        passes_validation N ar acfg tr (VStr (lit "plane")) d' fs F_NFFT delay
          SegN l u ->
        ideal_wave heap N az col ar acfg tr sr (VStr (lit "plane")) d fs F_NFFT
          delay c SegN l u
        = Err (ValueError
            "Invalid source distance, source must be outside the microphone radius.")).
Proof.
  intros Hd. apply Qle_bool_iff in Hd.
  split.
  - unfold ideal_wave.
    match goal with
    | |- context [bind ?chk _] => destruct chk as [[]|e] eqn:Hv
    end.
    + exfalso. revert Hv. unfold safety_checks.
      repeat match goal with
             | |- (if ?b then _ else _) = _ -> _ =>
                 destruct b eqn:?; try discriminate
             end.
      simpl in *. congruence.
    + apply safety_checks_error in Hv as [msg ->]. exists msg. reflexivity.
  - intros d'. unfold passes_validation, ideal_wave, safety_checks. simpl.
    repeat match goal with
           | |- (if ?b then _ else _) = _ -> _ =>
               destruct b eqn:?; try discriminate
           end.
    intros _. simpl. rewrite Hd. reflexivity.
Qed.

(** C5 (as the code has it).  Line 464 tests [wavetype is 'plane'], the
    identity of the object, where line 454 tests membership by equality.  A
    string equal to 'plane' that is not the interned literal gets through
    line 454 and skips the source-distance check: if the call passes the
    safety checks with the literal and some distance, then with such a string
    it returns a matrix for every distance, [distance <= array_radius]
    included. *)
Theorem ideal_wave_plane_check_by_identity
    heap N az col ar acfg tr sr d d' fs F_NFFT delay c SegN l u :
  (d <= ar)%Q ->
  passes_validation N ar acfg tr (VStr (lit "plane")) d' fs F_NFFT delay SegN l u ->
  exists Pnm,
    ideal_wave heap N az col ar acfg tr sr (VStr (PyStr "plane" false)) d fs F_NFFT
      delay c SegN l u = Ok Pnm.
Proof.
  intros _ Hv.
  destruct (ideal_wave_returns heap N az col ar acfg tr sr (VStr (PyStr "plane" false))
              d fs F_NFFT delay c SegN l u) as (Pnm & E & _).
  - revert Hv. unfold passes_validation, safety_checks. simpl.
    repeat match goal with
           | |- (if ?b then _ else _) = _ -> _ =>
               destruct b eqn:?; try discriminate
           end.
    intros _. reflexivity.
  - exists Pnm. assumption.
Qed.

(** On one and the same block from [np.empty], any two choices of
    [lowerSegLim] and [upperSegLim] that pass the safety checks make
    [ideal_wave] return the same [Pnm]: the limits are checked and never
    used again.  (Two calls get a block each: that case is treated with
    the layout of the rows, further down.) *)
Theorem ideal_wave_ignores_segment_limits
    heap N az col ar acfg tr sr wt d fs F_NFFT delay c SegN l1 u1 l2 u2 :
  passes_validation N ar acfg tr wt d fs F_NFFT delay SegN l1 u1 ->
  passes_validation N ar acfg tr wt d fs F_NFFT delay SegN l2 u2 ->
  exists Pnm,
    ideal_wave heap N az col ar acfg tr sr wt d fs F_NFFT delay c SegN l1 u1 = Ok Pnm
    /\ ideal_wave heap N az col ar acfg tr sr wt d fs F_NFFT delay c SegN l2 u2 = Ok Pnm.
Proof.
  intros Hv1 Hv2.
  destruct (ideal_wave_returns heap N az col ar acfg tr sr wt d fs F_NFFT delay c
              SegN l1 u1 Hv1) as (P1 & E1 & G1).
  destruct (ideal_wave_returns heap N az col ar acfg tr sr wt d fs F_NFFT delay c
              SegN l2 u2 Hv2) as (P2 & E2 & G2).
  exists P1. split; [assumption |].
  rewrite E2. congruence.
Qed.
(** The same with two blocks from [np.empty]: the rows below [(SegN + 1)^2],
    which are the ones the call computes, are the same whatever the limits
    and whatever the blocks held. *)
Lemma ideal_wave_computed_rows
    heap1 heap2 N az col ar acfg tr sr wt d fs F_NFFT delay c SegN l1 u1 l2 u2 :
  passes_validation N ar acfg tr wt d fs F_NFFT delay SegN l1 u1 ->
  passes_validation N ar acfg tr wt d fs F_NFFT delay SegN l2 u2 ->
  exists Pnm1 Pnm2,
    ideal_wave heap1 N az col ar acfg tr sr wt d fs F_NFFT delay c SegN l1 u1 = Ok Pnm1
    /\ ideal_wave heap2 N az col ar acfg tr sr wt d fs F_NFFT delay c SegN l2 u2 = Ok Pnm2
    /\ forall i,
         (Z.of_nat i < (match SegN with None => N | Some s => s end + 1) ^ 2)%Z ->
         (0 <= match SegN with None => N | Some s => s end + 1)%Z ->
         Pnm1 !! i = Pnm2 !! i.
Proof.
  intros Hv1 Hv2.
  destruct (ideal_wave_returns heap1 N az col ar acfg tr sr wt d fs F_NFFT delay c
              SegN l1 u1 Hv1) as (P1 & E1 & G1).
  destruct (ideal_wave_returns heap2 N az col ar acfg tr sr wt d fs F_NFFT delay c
              SegN l2 u2 Hv2) as (P2 & E2 & G2).
  exists P1, P2. split; [assumption |]. split; [assumption |].
  intros i Hi Hs.
  apply safety_checks_bounds in Hv1 as (_ & _ & HsN).
  eapply generator_written_rows; [exact G1 | exact G2 | nia | nia].
Qed.
End IdealWaveClaims.

(** ** radFilter *)

Section RadFilterFacts.
Context {F : Type} `{Scalar F} `{RealFun F} `{External F}.

Lemma bn_filters_returns heap N krm krs ac lim a_max :
  exists OutputArray,
    bn_filters heap N krm krs ac lim a_max = Ok OutputArray
    /\ length OutputArray = N + 1.
Proof.
  unfold bn_filters.
  match goal with
  | |- context [for_each ?xs ?body ?st] =>
      destruct (for_each_inv (fun _ O => length O = N + 1) xs body st)
        as (O & E & HO)
  end.
  - apply np_empty_length.
  - intros i ctr O Hctr HlenO. apply range_lookup in Hctr as [-> Hi].
    rewrite set_item_ok by lia.
    eexists. split; [reflexivity |]. rewrite length_insert. assumption.
  - exists O. split; assumption.
Qed.

(** The guard of line 219 holds exactly when [krN < 32] and bit 5 of [plc]
    is set: never for the modes 1 and 2. *)
Lemma land_32 (p : Z) : Z.land 32 p = if Z.testbit p 5 then 32%Z else 0%Z.
Proof.
  apply Z.bits_inj'. intros n Hn. rewrite Z.land_spec.
  change 32%Z with (2 ^ 5)%Z.
  destruct (Z.testbit p 5) eqn:E.
  - rewrite Z.pow2_bits_eqb by lia.
    destruct (Z.eqb_spec 5 n) as [<- | Hne]; [rewrite E |]; reflexivity.
  - rewrite Z.pow2_bits_eqb, Z.bits_0 by lia.
    destruct (Z.eqb_spec 5 n) as [<- | Hne]; [rewrite E |]; reflexivity.
Qed.

Lemma plc_guard_spec (krN : nat) (plc : Z) :
  plc_guard krN plc = true <-> krN < 32 /\ Z.testbit plc 5 = true.
Proof.
  unfold plc_guard. rewrite land_32.
  destruct (Z.testbit plc 5); simpl.
  - rewrite andb_true_r, Z.ltb_lt. split; [intros; split; [lia | reflexivity] | lia].
  - rewrite andb_false_r. split; [discriminate | intros [_ E]; discriminate].
Qed.

(** With [plc] 1 or 2, [xi] is read and was never assigned: the guard of
    line 219 compares [krN] with [32 & plc], which is 0, and line 225
    computes [xi] only when [plc] is 0. *)
Lemma radFilter_vector_plc heap N v ac amp_maxdB plc fadeover printInfo a_max lim t :
  plc = 1%Z \/ plc = 2%Z ->
  radFilter_vector heap N v ac amp_maxdB plc fadeover printInfo a_max lim t
  = (t, Err (UnboundLocalError "xi")).
Proof.
  intros Hplc. unfold radFilter_vector.
  destruct (bn_filters_returns heap N v v ac lim a_max) as (O & E & _).
  unfold py_bind at 1. unfold lift at 1. rewrite E.
  assert (Hguard : plc_guard (length v) plc = false).
  { apply not_true_is_false. intros Hg. apply plc_guard_spec in Hg as [_ Hbit].
    destruct Hplc as [-> | ->]; discriminate. }
  rewrite Hguard.
  destruct Hplc as [-> | ->]; reflexivity.
Qed.

Lemma degenerate_guard_vec v kr' :
  degenerate_guard (Vec v) = Ok kr' -> exists v', kr' = Vec v'.
Proof.
  unfold degenerate_guard.
  destruct (get_item v 0) as [k0|]; simpl; [| discriminate].
  destruct (feqb k0 fzero).
  - destruct (get_item v 1) as [k1|]; simpl; [| discriminate].
    destruct (set_item v 0 k1) as [v'|]; simpl; [| discriminate].
    intros E; inversion E. eauto.
  - intros E; inversion E. eauto.
Qed.

Lemma degenerate_guard_long v :
  2 <= length v -> exists v', degenerate_guard (Vec v) = Ok (Vec v').
Proof.
  destruct v as [|k0 [|k1 rest]]; simpl; try lia. intros _.
  destruct (feqb k0 fzero); simpl; eauto.
Qed.

Lemma radFilter_kr_after heap N kr ac amp_maxdB plc fadeover printInfo :
  kr_after (radFilter heap N kr ac amp_maxdB plc fadeover printInfo)
  = match degenerate_guard kr with Ok kr' => kr' | Err _ => kr end.
Proof.
  unfold radFilter. destruct (degenerate_guard kr) as [kr'|e]; [| reflexivity].
  destruct kr' as [v|rows].
  - destruct (radFilter_vector _ _ _ _ _ _ _ _ _ _ _); reflexivity.
  - destruct (radFilter_narrow_matrix _ _ _ _ _ _ _ _); reflexivity.
Qed.

(** C1 (as the code has it).  A call of [radFilter] with a [kr] vector of at
    least 32 bins that asks for powerloss compensation ([plc] 1 or 2)
    returns no filter bank: it raises [UnboundLocalError] where the
    compensation curve [xi] is first read. *)
Theorem radFilter_plc_raises heap N v ac amp_maxdB plc fadeover printInfo :
  32 <= length v ->
  plc = 1%Z \/ plc = 2%Z ->
  rad_returned (radFilter heap N (Vec v) ac amp_maxdB plc fadeover printInfo)
  = Err (UnboundLocalError "xi").
Proof.
  intros Hlen Hplc. unfold radFilter.
  destruct (degenerate_guard_long v) as (v' & ->); [lia |].
  rewrite radFilter_vector_plc by assumption. reflexivity.
Qed.

(** C2 (as the code has it).  A call of [radFilter] with a [kr] vector of
    fewer than 32 bins and [plc] 1 or 2 raises an exception, and the line
    about disabling the compensation is not printed. *)
Theorem radFilter_short_kr_plc_not_disabled
    heap N v ac amp_maxdB plc fadeover printInfo :
  length v < 32 ->
  plc = 1%Z \/ plc = 2%Z ->
  let o := radFilter heap N (Vec v) ac amp_maxdB plc fadeover printInfo in
  (exists e, rad_returned o = Err e)
  /\ ~ In (Printed "Not enough kr values for PLC fading. PLC disabled.")
          (rad_trace o).
Proof.
  intros _ Hplc. unfold radFilter.
  destruct (degenerate_guard (Vec v)) as [kr'|e] eqn:G.
  - apply degenerate_guard_vec in G as (v' & ->).
    rewrite radFilter_vector_plc by assumption. simpl.
    split; [eauto |].
    destruct printInfo; simpl; [intros [E | []]; discriminate | intros []].
  - simpl. split; [eauto |].
    destruct printInfo; simpl; [intros [E | []]; discriminate | intros []].
Qed.

(** C9.  [radFilter] writes to the array the caller passed as [kr]: for a
    vector whose first bin is zero (and that has a second bin), the array
    holds the second bin's value in its first place once the call is over,
    whatever the call returns or raises; an array whose first bin is not zero
    is left as it was.  (A matrix of one column is treated alike, row for
    bin.) *)
Theorem radFilter_mutates_kr heap N ac amp_maxdB plc fadeover printInfo :
  (forall k0 k1 rest,
      feqb k0 fzero = true ->
      kr_after (radFilter heap N (Vec (k0 :: k1 :: rest)) ac amp_maxdB plc
                  fadeover printInfo)
      = Vec (k1 :: k1 :: rest))
  /\ (forall k0 r1 rest,
        feqb k0 fzero = true ->
        kr_after (radFilter heap N (Mat ([k0] :: r1 :: rest)) ac amp_maxdB plc
                    fadeover printInfo)
        = Mat (r1 :: r1 :: rest))
  /\ (forall kr k0,
        first_bin kr = Some k0 ->
        feqb k0 fzero = false ->
        kr_after (radFilter heap N kr ac amp_maxdB plc fadeover printInfo) = kr).
Proof.
  split; [| split].
  - intros k0 k1 rest Hz. rewrite radFilter_kr_after. simpl.
    rewrite Hz. reflexivity.
  - intros k0 r1 rest Hz. rewrite radFilter_kr_after. simpl.
    rewrite Hz. reflexivity.
  - intros kr k0 Hfirst Hnz. rewrite radFilter_kr_after.
    destruct kr as [v|rows]; simpl in Hfirst.
    + destruct v as [|x v]; [discriminate |].
      inversion Hfirst; subst x. simpl. rewrite Hnz. reflexivity.
    + destruct rows as [|r0 rows]; [discriminate |].
      destruct r0 as [|x r0]; [discriminate |].
      inversion Hfirst; subst x. simpl. rewrite Hnz.
      destruct r0 as [|y r0]; reflexivity.
Qed.

(** C10.  For a two-row [kr] matrix with more than one bin per row,
    [radFilter] raises at [if kr[0] == 0]: the comparison yields an array
    of more than one truth value.  Nothing but the banner has been printed
    by then, no filter is computed, and [kr] is as it was. *)
Theorem radFilter_two_row_kr_raises
    heap N (r0 r1 : list F) ac amp_maxdB plc fadeover printInfo :
  1 < length r0 ->
  length r1 = length r0 ->
  radFilter heap N (Mat [r0; r1]) ac amp_maxdB plc fadeover printInfo
  = RadOutcome (Mat [r0; r1])
      (if printInfo then [Printed "radFilter - Modal radial filter generator"]
       else [])
      (Err (ValueError
         "The truth value of an array with more than one element is ambiguous. Use a.any() or a.all()")).
Proof.
  intros Hlen _.
  destruct r0 as [|a [|b r0]]; simpl in Hlen; try lia.
  reflexivity.
Qed.
End RadFilterFacts.


(** ** lebedev *)

Lemma traverse_returns {X Y : Type} (f : X -> result Y) (P : Y -> Prop) (xs : list X) :
  Forall (fun x => exists y, f x = Ok y /\ P y) xs ->
  exists ys, traverse f xs = Ok ys /\ Forall P ys /\ length ys = length xs.
Proof.
  induction 1 as [|x xs (y & Ey & Py) _ (ys & Eys & Pys & Hlen)]; simpl.
  - exists []. repeat split. constructor.
  - rewrite Ey. simpl. rewrite Eys. simpl.
    exists (y :: ys). repeat split; [constructor; assumption | simpl; congruence].
Qed.

Section LebedevFacts.
Context {F : Type} `{Scalar F} `{RealFun F} `{External F}.

Lemma column_returns (g : list (list F)) (j : nat) :
  Forall (fun row => length row = 3) g -> j < 3 ->
  exists col, column g j = Ok col /\ length col = length g.
Proof.
  intros Hg Hj. unfold column.
  destruct (traverse_returns (fun row => get_item row j) (fun _ => True) g)
    as (col & E & _ & Hlen).
  - eapply Forall_impl; [exact Hg |]. intros row Hrow. simpl in *.
    destruct (get_item_ok row j) as (x & Ex & _); [lia |].
    exists x. split; [assumption | exact I].
  - exists col. split; assumption.
Qed.

Lemma take_rows_returns (g : list (list F)) (idx : list nat) :
  Forall (fun row => length row = 3) g ->
  Forall (fun i => i < length g) idx ->
  exists g', take_rows g idx = Ok g'
             /\ Forall (fun row => length row = 3) g'
             /\ length g' = length idx.
Proof.
  intros Hg Hidx. unfold take_rows. apply traverse_returns.
  eapply Forall_impl; [exact Hidx |]. intros i Hi. simpl in *.
  destruct (get_item_ok g i Hi) as (row & Erow & Hrow).
  exists row. split; [assumption |].
  exact (Forall_lookup_1 _ _ _ _ Hg Hrow).
Qed.

Lemma argsort_in_range (v : list F) :
  argsort_permutes -> Forall (fun i => i < length v) (argsort v).
Proof.
  intros Hperm. rewrite (Hperm v).
  apply Forall_forall. intros i Hi. apply elem_of_seq in Hi. lia.
Qed.

Lemma lebedev_grid_returns degree t :
  argsort_permutes ->
  (exists points, genGrid degree = Ok points) ->
  exists gridData Nmax, snd (lebedev_grid degree t) = Ok (gridData, Nmax).
Proof.
  intros Hsort (points & Epoints). unfold lebedev_grid.
  unfold py_bind at 1. unfold lift at 1. rewrite Epoints. cbv zeta.
  match goal with
  | |- context [zip_with ?f ?a ?b] => set (g0 := zip_with f a b)
  end.
  assert (Hg0 : Forall (fun row : list F => length row = 3) g0).
  { subst g0. apply Forall_forall. intros row Hrow.
    apply elem_of_lookup_zip_with in Hrow as (i & x & y & -> & _). reflexivity. }
  destruct (column_returns g0 1 Hg0) as (col1 & Ecol1 & Hcol1); [lia |].
  destruct (take_rows_returns g0 (argsort col1) Hg0) as (g1 & Eg1 & Hg1 & _).
  { rewrite <- Hcol1. apply argsort_in_range. assumption. }
  destruct (column_returns g1 0 Hg1) as (col0 & Ecol0 & Hcol0); [lia |].
  destruct (take_rows_returns g1 (argsort col0) Hg1) as (g2 & Eg2 & _ & _).
  { rewrite <- Hcol0. apply argsort_in_range. assumption. }
  exists g2. eexists.
  unfold py_bind, lift, py_ret.
  rewrite Ecol1, Eg1, Ecol0, Eg2. reflexivity.
Qed.

(** C7.  [lebedev(degree)] raises the invalid-degree error, which carries
    the degree and the list of the allowed ones, for every degree outside
    6, 14, 26, 38, 50, 74, 86, 110, 146, 170, 194, and returns a grid and
    an order for every degree among them. *)
Theorem lebedev_degree_check degree printInfo t :
  genGrid_has_tables ->
  argsort_permutes ->
  (~ In degree [6; 14; 26; 38; 50; 74; 86; 110; 146; 170; 194]%Z ->
     snd (lebedev degree printInfo t)
     = Err (InvalidDegree degree [6; 14; 26; 38; 50; 74; 86; 110; 146; 170; 194]%Z))
  /\ (In degree [6; 14; 26; 38; 50; 74; 86; 110; 146; 170; 194]%Z ->
        exists gridData Nmax, snd (lebedev degree printInfo t) = Ok (gridData, Nmax)).
Proof.
  intros Htables Hsort.
  change [6; 14; 26; 38; 50; 74; 86; 110; 146; 170; 194]%Z with deg_avail.
  split.
  - intros Hout. unfold lebedev.
    assert (Hex : existsb (Z.eqb degree) deg_avail = false).
    { apply not_true_is_false. intros Hex.
      apply existsb_exists in Hex as (x & Hx & Heq).
      apply Z.eqb_eq in Heq. subst x. contradiction. }
    rewrite Hex. destruct printInfo; reflexivity.
  - intros Hin. unfold lebedev.
    assert (Hex : existsb (Z.eqb degree) deg_avail = true).
    { apply existsb_exists. exists degree. split; [assumption | apply Z.eqb_refl]. }
    rewrite Hex.
    destruct printInfo.
    + unfold when, print, emit. unfold py_bind at 1.
      apply lebedev_grid_returns; auto.
    + unfold when, py_ret at 1. unfold py_bind at 1.
      apply lebedev_grid_returns; auto.
Qed.
End LebedevFacts.

(** ** gaussGrid *)

Lemma every_one {A : Type} (a : list A) : every 1 0 a = a.
Proof. induction a as [|x a IH]; simpl; [reflexivity | rewrite IH; reflexivity]. Qed.

Lemma step_slice_zigzag {A : Type} (k : nat) (a : list A) :
  step_slice (-1 + Z.of_nat k mod 2 * 2)%Z a = Ok (zigzag k a).
Proof.
  unfold step_slice, zigzag.
  assert (Hm : (Z.of_nat k mod 2 = 0 \/ Z.of_nat k mod 2 = 1)%Z).
  { pose proof (Z.mod_pos_bound (Z.of_nat k) 2). lia. }
  destruct Hm as [-> | ->]; simpl; rewrite every_one; reflexivity.
Qed.

Lemma zigzag_length {A : Type} (k : nat) (a : list A) : length (zigzag k a) = length a.
Proof. unfold zigzag. destruct (_ =? _)%Z; [apply length_rev | reflexivity]. Qed.

Lemma forallb_Forall {A : Type} (p : A -> bool) (a : list A) :
  Forall (fun x => p x = true) a -> forallb p a = true.
Proof. induction 1 as [|x a Hx _ IH]; simpl; [reflexivity | rewrite Hx, IH; reflexivity]. Qed.

Section SliceFacts.
Context {F : Type} `{Scalar F}.

Lemma linspace_length (a b : F) (n : nat) : length (linspace a b n) = n.
Proof.
  unfold linspace. destruct n as [|[|n]]; try reflexivity.
  rewrite length_map, length_seq. reflexivity.
Qed.

Lemma linspace_lookup (a b : F) (n i : nat) :
  i < n ->
  linspace a b n !! i
  = Some (if n =? 1 then a
          else fadd a (fmul (ofZ (Z.of_nat i))
                            (fdiv (fsub b a) (ofZ (Z.of_nat (n - 1)))))).
Proof.
  intros Hi. unfold linspace.
  destruct n as [|[|n]]; [lia | |].
  - assert (i = 0) as -> by lia. reflexivity.
  - rewrite map_lookup, (lookup_seq_lt 0 _ i Hi). reflexivity.
Qed.

(** A column write that covers exactly a middle part of the rows. *)
Lemma set_col_slice_app (pre mid post : list (list F)) (j : nat) (vals : list F) :
  length vals = length mid ->
  Forall (fun row => j < length row) mid ->
  set_col_slice (pre ++ mid ++ post) (length pre) (length pre + length mid) j vals
  = Ok (pre ++ zip_with (fun row x => <[j := x]> row) mid vals ++ post).
Proof.
  intros Hvals Hrows. unfold set_col_slice.
  rewrite !length_app.
  replace (length pre `min` (length pre + (length mid + length post)))
    with (length pre) by lia.
  replace ((length pre + length mid) `min` (length pre + (length mid + length post)))
    with (length pre + length mid) by lia.
  replace (length pre + length mid - length pre) with (length mid) by lia.
  rewrite drop_app_length, take_app_length.
  rewrite forallb_Forall.
  - destruct (decide (length vals = length mid)); [| contradiction].
    simpl.
    rewrite take_app_length.
    rewrite (app_assoc pre mid post).
    replace (length pre + length mid) with (length (pre ++ mid))
      by (rewrite length_app; reflexivity).
    rewrite drop_app_length. reflexivity.
  - eapply Forall_impl; [exact Hrows |]. intros row Hrow. simpl in *.
    apply Nat.ltb_lt. assumption.
Qed.

(** Writing the three columns of rows of three entries leaves nothing of
    what the rows held. *)
Lemma three_columns (mid : list (list F)) (va ve vw : list F) :
  Forall (fun row => length row = 3) mid ->
  length va = length mid -> length ve = length mid -> length vw = length mid ->
  zip_with (fun row x => <[2 := x]> row)
    (zip_with (fun row x => <[1 := x]> row)
       (zip_with (fun row x => <[0 := x]> row) mid va) ve) vw
  = zip_with (fun ae w => [fst ae; snd ae; w]) (zip va ve) vw.
Proof.
  intros Hmid. revert va ve vw.
  induction Hmid as [|row mid Hrow _ IH]; intros [|a va] [|e ve] [|w vw];
    simpl; try discriminate; try reflexivity.
  intros Ha He Hw.
  destruct row as [|r0 [|r1 [|r2 [|r3 row]]]]; simpl in Hrow; try lia.
  simpl. f_equal. apply IH; lia.
Qed.
End SliceFacts.

Lemma concat_length_uniform {A : Type} (n : nat) (bs : list (list A)) :
  Forall (fun b => length b = n) bs -> length (concat bs) = length bs * n.
Proof.
  induction 1 as [|b bs Hb _ IH]; simpl; [reflexivity |].
  rewrite length_app, IH, Hb. reflexivity.
Qed.

Lemma block_rows {A : Type} (n : nat) (a : A) (ve vw : list A) :
  length ve = n ->
  zip_with (fun ae w => [fst ae; snd ae; w]) (zip (replicate n a) ve) vw
  = zip_with (fun e w => [a; e; w]) ve vw.
Proof.
  revert ve vw. induction n as [|n IH]; intros [|e ve] vw; simpl; try discriminate;
    try reflexivity.
  intros Hlen. destruct vw as [|w vw]; [reflexivity |].
  simpl. f_equal. apply IH. lia.
Qed.

Section GaussGridShape.
Context {F : Type} `{Scalar F} `{RealFun F} `{External F}.

Lemma azimuth_nodes_length (n : nat) : length (azimuth_nodes n) = n.
Proof. unfold azimuth_nodes. rewrite length_map. apply linspace_length. Qed.

Lemma grid_weights_rows (AZw ELw : list F) :
  length (grid_weights AZw ELw) = length AZw
  /\ Forall (fun row => length row = length ELw) (grid_weights AZw ELw).
Proof.
  unfold grid_weights. cbv zeta. rewrite !length_map. split; [reflexivity |].
  apply Forall_forall. intros row Hrow.
  apply list_elem_of_In, in_map_iff in Hrow as (row0 & <- & Hrow0).
  apply in_map_iff in Hrow0 as (a & <- & _).
  rewrite !length_map. reflexivity.
Qed.

Lemma gauss_block_length (k : nat) (AZk : F) (EL Wk : list F) :
  length Wk = length EL -> length (gauss_block k AZk EL Wk) = length EL.
Proof.
  intros Hlen. unfold gauss_block.
  rewrite length_zip_with, !zigzag_length. lia.
Qed.

Lemma gauss_blocks_lookup (AZ EL : list F) (W : list (list F)) (k : nat) AZk Wk :
  AZ !! k = Some AZk -> W !! k = Some Wk ->
  gauss_blocks AZ EL W !! k = Some (gauss_block k AZk EL Wk).
Proof.
  intros HAZ HW. unfold gauss_blocks.
  rewrite list_lookup_imap.
  assert (Hz : zip AZ W !! k = Some (AZk, Wk)).
  { apply lookup_zip_with_Some. eauto. }
  rewrite Hz. reflexivity.
Qed.

Lemma gauss_blocks_uniform (AZ EL : list F) (W : list (list F)) :
  Forall (fun row => length row = length EL) W ->
  Forall (fun b => length b = length EL) (gauss_blocks AZ EL W).
Proof.
  intros HW. apply Forall_lookup. intros k b Hb.
  unfold gauss_blocks in Hb. rewrite list_lookup_imap in Hb.
  destruct (zip AZ W !! k) as [[AZk Wk]|] eqn:Hz; [| discriminate].
  inversion Hb; subst b. simpl.
  apply lookup_zip_with_Some in Hz as (a & w & Heq & _ & Hw).
  inversion Heq; subst a w.
  apply gauss_block_length.
  exact (Forall_lookup_1 _ _ _ _ HW Hw).
Qed.

Lemma np_empty_rows (heap : nat -> nat -> F) (rows cols : nat) :
  Forall (fun row => length row = cols) (np_empty heap rows cols).
Proof.
  apply Forall_lookup. intros i row Hrow.
  assert (Hi : i < rows).
  { apply lookup_lt_Some in Hrow. rewrite np_empty_length in Hrow. assumption. }
  rewrite np_empty_lookup in Hrow by assumption.
  inversion Hrow. rewrite length_map, length_seq. reflexivity.
Qed.

(** The loop of [gaussGrid] overwrites the whole block [np.empty] handed
    out, one azimuth block of rows per iteration. *)
Lemma gaussGrid_blocks heap (AZnodes ELnodes : nat) :
  1 <= ELnodes ->
  length (fst (leggauss ELnodes)) = ELnodes ->
  length (snd (leggauss ELnodes)) = ELnodes ->
  gaussGrid heap AZnodes ELnodes
  = Ok (concat (gauss_blocks (azimuth_nodes AZnodes)
                  (map farccos (fst (leggauss ELnodes)))
                  (grid_weights (azimuth_weights AZnodes) (snd (leggauss ELnodes))))).
Proof.
  intros HEL Hx Hw. unfold gaussGrid.
  destruct (ELnodes =? 0) eqn:E0; [apply Nat.eqb_eq in E0; lia |].
  destruct (leggauss ELnodes) as [x w]. simpl in Hx, Hw. simpl fst. simpl snd.
  cbv zeta.
  set (AZ := azimuth_nodes AZnodes).
  set (EL := map farccos x).
  set (W := grid_weights (azimuth_weights AZnodes) w).
  set (g0 := np_empty heap (ELnodes * AZnodes) 3).
  set (blocks := gauss_blocks AZ EL W).
  assert (HELlen : length EL = ELnodes) by (subst EL; rewrite length_map; assumption).
  assert (HAZlen : length AZ = AZnodes) by apply azimuth_nodes_length.
  destruct (grid_weights_rows (azimuth_weights AZnodes) w) as [HWlen HWrows].
  fold W in HWlen, HWrows. rewrite Hw, <- HELlen in HWrows.
  assert (HWlen' : length W = AZnodes).
  { rewrite HWlen. unfold azimuth_weights, np_ones.
    rewrite length_map, length_replicate. reflexivity. }
  assert (Hblocks : Forall (fun b => length b = ELnodes) blocks).
  { rewrite <- HELlen. apply gauss_blocks_uniform. assumption. }
  assert (Hnblocks : length blocks = AZnodes).
  { subst blocks. unfold gauss_blocks. rewrite length_imap.
    rewrite length_zip_with. lia. }
  match goal with
  | |- for_each ?xs ?body ?st = _ =>
      destruct (for_each_inv
                  (fun k g => g = concat (take k blocks) ++ drop (k * ELnodes) g0)
                  xs body st) as (g & Eg & Hg)
  end.
  - simpl. rewrite drop_0. reflexivity.
  - intros i k g Hk Hinv. apply range_lookup in Hk as [-> Hi].
    destruct (get_item_ok AZ i) as (AZk & EAZk & HAZk); [lia |].
    destruct (get_item_ok W i) as (Wk & EWk & HWk); [lia |].
    assert (HWklen : length Wk = ELnodes).
    { rewrite <- HELlen. exact (Forall_lookup_1 _ _ _ _ HWrows HWk). }
    set (pre := concat (take i blocks)).
    set (mid := take ELnodes (drop (i * ELnodes) g0)).
    set (post := drop (i * ELnodes + ELnodes) g0).
    assert (Hg0len : length g0 = ELnodes * AZnodes) by apply np_empty_length.
    assert (Hpre : length pre = i * ELnodes).
    { subst pre. rewrite (concat_length_uniform ELnodes).
      - rewrite length_take. lia.
      - apply Forall_take. assumption. }
    assert (Hmid : length mid = ELnodes).
    { subst mid. rewrite length_take, length_drop. nia. }
    assert (Hmid3 : Forall (fun row : list F => length row = 3) mid).
    { subst mid. apply Forall_take, Forall_drop, np_empty_rows. }
    assert (Hsplit : g = pre ++ mid ++ post).
    { rewrite Hinv. fold pre. f_equal. subst mid post.
      rewrite <- drop_drop. symmetry. apply take_drop. }
    rewrite EAZk. simpl bind.
    replace (i * ELnodes) with (length pre) by assumption.
    replace (length pre + ELnodes) with (length pre + length mid) by lia.
    rewrite Hsplit.
    rewrite set_col_slice_app;
      [| rewrite length_replicate; lia
       | eapply Forall_impl; [exact Hmid3 |]; simpl; intros; lia].
    simpl bind. rewrite step_slice_zigzag. simpl bind.
    replace (length mid) with
      (length (zip_with (fun (row : list F) x => <[0 := x]> row) mid
                 (replicate ELnodes AZk)))
      by (rewrite length_zip_with, length_replicate; lia).
    rewrite set_col_slice_app.
    2: { rewrite zigzag_length, length_zip_with, length_replicate. lia. }
    2: { apply Forall_forall. intros row Hrow.
         apply elem_of_lookup_zip_with in Hrow as (j & r & a & -> & Hr & _).
         rewrite length_insert.
         pose proof (Forall_lookup_1 _ _ _ _ Hmid3 Hr) as Hr3. simpl in Hr3. lia. }
    simpl bind. rewrite EWk. simpl bind. rewrite step_slice_zigzag. simpl bind.
    match goal with
    | |- context [set_col_slice (pre ++ ?m ++ post) _ (_ + length ?m0) 2 _] =>
        replace (length m0) with (length m)
          by (rewrite !length_zip_with, zigzag_length, length_replicate; lia)
    end.
    rewrite set_col_slice_app.
    2: { rewrite !length_zip_with, !zigzag_length, length_replicate. lia. }
    2: { apply Forall_forall. intros row Hrow.
         apply elem_of_lookup_zip_with in Hrow as (j & r & a & -> & Hr & _).
         apply list_elem_of_lookup_2 in Hr.
         apply elem_of_lookup_zip_with in Hr as (j' & r' & a' & -> & Hr' & _).
         rewrite !length_insert.
         pose proof (Forall_lookup_1 _ _ _ _ Hmid3 Hr') as Hr3. simpl in Hr3. lia. }
    eexists. split; [reflexivity |].
    rewrite three_columns;
      [| assumption | rewrite length_replicate; lia
       | rewrite zigzag_length; lia | rewrite zigzag_length; lia].
    rewrite block_rows by (rewrite zigzag_length; lia).
    rewrite (take_S_r blocks i (gauss_block i AZk EL Wk)).
    2: { apply gauss_blocks_lookup; assumption. }
    rewrite concat_app. simpl concat. rewrite app_nil_r.
    fold pre. rewrite <- app_assoc. unfold gauss_block. subst post.
    replace (S i * ELnodes) with (i * ELnodes + ELnodes) by lia.
    reflexivity.
  - rewrite Eg. f_equal. rewrite Hg.
    rewrite range_length.
    rewrite take_ge by lia.
    rewrite drop_ge; [apply app_nil_r |].
    subst g0. rewrite np_empty_length. lia.
Qed.
End GaussGridShape.

Section GaussGridExact.
Import Exact.
Context `{External R}.
Open Scope R_scope.

Lemma vsum_nil : vsum (@nil R) = 0.
Proof. reflexivity. Qed.

Lemma vsum_cons (x : R) (a : list R) : vsum (x :: a) = x + vsum a.
Proof. reflexivity. Qed.

Lemma vsum_app (a b : list R) : vsum (a ++ b) = vsum a + vsum b.
Proof.
  induction a as [|x a IH].
  - rewrite app_nil_l, vsum_nil. lra.
  - rewrite <- app_comm_cons, !vsum_cons, IH. lra.
Qed.

Lemma vsum_rev (a : list R) : vsum (rev a) = vsum a.
Proof.
  induction a as [|x a IH]; [reflexivity |].
  simpl rev. rewrite vsum_app, IH, !vsum_cons, vsum_nil. lra.
Qed.

Lemma vsum_zigzag (k : nat) (a : list R) : vsum (zigzag k a) = vsum a.
Proof. unfold zigzag. destruct (_ =? _)%Z; [apply vsum_rev | reflexivity]. Qed.

Lemma vsum_map_div (t : R) (a : list R) :
  vsum (map (fun x => fdiv x t) a) = vsum a / t.
Proof.
  induction a as [|x a IH].
  - cbn [map]. rewrite vsum_nil. lra.
  - cbn [map]. rewrite !vsum_cons, IH. simpl fdiv. lra.
Qed.

Lemma vsum_concat_map_div (t : R) (W : list (list R)) :
  vsum (concat (map (map (fun x => fdiv x t)) W)) = vsum (concat W) / t.
Proof.
  induction W as [|row W IH].
  - cbn [map concat]. rewrite vsum_nil. lra.
  - cbn [map concat]. rewrite !vsum_app, IH, vsum_map_div. lra.
Qed.

Lemma vsum_pos (a : list R) : Forall (fun x => 0 < x) a -> a <> [] -> 0 < vsum a.
Proof.
  intros Ha. induction Ha as [|x a Hx Ha IH]; [congruence |].
  intros _. rewrite vsum_cons. destruct a as [|y a].
  - rewrite vsum_nil. lra.
  - assert (0 < vsum (y :: a)) by (apply IH; discriminate). lra.
Qed.

(** The third column of an azimuth block is its row of weights. *)
Lemma gauss_block_weights (a : R) (ve vw : list R) :
  length ve = length vw ->
  map (fun row => nth 2 row 0) (zip_with (fun e w => [a; e; w]) ve vw) = vw.
Proof.
  revert vw. induction ve as [|e ve IH]; intros [|w vw]; simpl; try discriminate;
    try reflexivity.
  intros Hlen. f_equal. apply IH. lia.
Qed.

Lemma gauss_blocks_weights (j : nat -> nat) (AZ EL : list R) (W : list (list R)) :
  length AZ = length W ->
  Forall (fun row => length row = length EL) W ->
  vsum (map (fun row => nth 2 row 0)
          (concat (imap (fun k aw => gauss_block (j k) (fst aw) EL (snd aw))
                        (zip AZ W))))
  = vsum (concat W).
Proof.
  intros Hlen HW. revert j AZ Hlen.
  induction HW as [|Wk W HWk _ IH]; intros j [|a AZ] Hlen; simpl in Hlen;
    try discriminate; [reflexivity |].
  simpl. rewrite map_app, !vsum_app.
  unfold gauss_block at 1.
  rewrite gauss_block_weights by (rewrite !zigzag_length; lia).
  rewrite vsum_zigzag. f_equal.
  apply (IH (fun k => j (S k))). lia.
Qed.

Lemma column_of_triples (g : list (list R)) :
  Forall (fun row => length row = 3%nat) g ->
  column g 2 = Ok (map (fun row => nth 2 row 0) g).
Proof.
  unfold column. induction 1 as [|row g Hrow _ IH]; [reflexivity |].
  simpl. destruct row as [|r0 [|r1 [|r2 [|r3 row]]]]; simpl in Hrow; try lia.
  simpl. rewrite IH. reflexivity.
Qed.

Lemma azimuth_nodes_lookup (n k : nat) :
  (k < n)%nat -> azimuth_nodes n !! k = Some (INR k * 2 * PI / INR n).
Proof.
  intros Hk. unfold azimuth_nodes.
  rewrite map_lookup, linspace_lookup by assumption. simpl.
  f_equal. rewrite !INR_IZR_INZ.
  destruct (n =? 1)%nat eqn:E1.
  - apply Nat.eqb_eq in E1. subst n. assert (k = 0%nat) as -> by lia.
    reflexivity.
  - apply Nat.eqb_neq in E1.
    replace (Z.of_nat n - 1)%Z with (Z.of_nat (n - 1)) by lia.
    assert (Hd : IZR (Z.of_nat (n - 1)) <> 0).
    { apply not_0_IZR. lia. }
    field. split; [| assumption].
    apply not_0_IZR. lia.
Qed.

Lemma azimuth_node_range (n k : nat) :
  (k < n)%nat -> 0 <= INR k * 2 * PI / INR n < 2 * PI.
Proof.
  intros Hk.
  assert (Hn : 0 < INR n) by (apply lt_0_INR; lia).
  assert (Hk0 : 0 <= INR k) by apply pos_INR.
  assert (Hkn : INR k < INR n) by (apply lt_INR; assumption).
  pose proof PI_RGT_0 as Hpi.
  split.
  - apply Rmult_le_pos; [nra | left; apply Rinv_0_lt_compat; assumption].
  - apply (Rmult_lt_reg_r (INR n)); [assumption |].
    unfold Rdiv. rewrite Rmult_assoc, Rinv_l by lra. nra.
Qed.
End GaussGridExact.

Section GaussGridClaim.
Import Exact.
Context `{External R}.
Open Scope R_scope.

Lemma zigzag_In {A : Type} (k : nat) (a : list A) (x : A) :
  In x (zigzag k a) -> In x a.
Proof.
  unfold zigzag. destruct (_ =? _)%Z; [| auto].
  intros Hx. apply in_rev. assumption.
Qed.

Lemma grid_weights_sum (AZnodes : nat) (ELw : list R) :
  (1 <= AZnodes)%nat -> ELw <> [] -> Forall (fun w => 0 < w) ELw ->
  vsum (concat (grid_weights (azimuth_weights AZnodes) ELw)) = 1.
Proof.
  intros HAZ Hne Hpos. unfold grid_weights. cbv zeta.
  rewrite vsum_concat_map_div.
  match goal with |- ?t / ?t = 1 => assert (Ht : 0 < t) end.
  { unfold azimuth_weights, np_ones. rewrite !map_replicate.
    destruct AZnodes as [|n]; [lia |].
    apply vsum_pos.
    - apply Forall_forall. intros x Hx.
      apply list_elem_of_In, in_concat in Hx as (row & Hrow & Hx).
      apply list_elem_of_In, elem_of_replicate in Hrow as [-> _].
      apply in_map_iff in Hx as (w & <- & Hw).
      assert (0 < w).
      { apply list_elem_of_In in Hw.
        exact (proj1 (Forall_forall _ _) Hpos w Hw). }
      assert (0 < INR (S n)) by (apply lt_0_INR; lia).
      pose proof PI_RGT_0.
      simpl fone. simpl fdiv. simpl fmul. simpl ofZ. rewrite <- INR_IZR_INZ.
      apply Rdiv_lt_0_compat; [| lra].
      apply Rmult_lt_0_compat; [| assumption].
      apply Rdiv_lt_0_compat; [nra | assumption].
    - simpl. destruct ELw; [congruence | discriminate]. }
  field. lra.
Qed.

(** C6.  For [AZnodes >= 1] and [ELnodes >= 1], [gaussGrid] returns a grid
    of exactly [AZnodes * ELnodes] rows [[azimuth, colatitude, weight]]
    whose weights sum to 1, with every azimuth in [[0, 2 pi)] and every
    colatitude in [[0, pi]].  (In exact real arithmetic; [leggauss] is
    taken to return [ELnodes] nodes in [[-1, 1]] and [ELnodes] positive
    weights.) *)
Theorem gaussGrid_rows_weights_angles heap (AZnodes ELnodes : nat) :
  (1 <= AZnodes)%nat ->
  (1 <= ELnodes)%nat ->
  leggauss_returns (fun x => -1 <= x <= 1) (fun w => 0 < w) ELnodes ->
  exists gridData,
    gaussGrid heap AZnodes ELnodes = Ok gridData
    /\ length gridData = (AZnodes * ELnodes)%nat
    /\ (exists W, column gridData 2 = Ok W /\ vsum W = 1)
    /\ Forall (fun row => exists az el w,
                   row = [az; el; w]
                   /\ 0 <= az < 2 * PI /\ 0 <= el <= PI) gridData.
Proof.
  intros HAZ HEL (Hx & Hw & Hxr & Hwp).
  rewrite gaussGrid_blocks by assumption.
  set (AZ := azimuth_nodes AZnodes).
  set (EL := map farccos (fst (leggauss ELnodes))).
  set (W := grid_weights (azimuth_weights AZnodes) (snd (leggauss ELnodes))).
  assert (HELlen : length EL = ELnodes) by (subst EL; rewrite length_map; assumption).
  assert (HAZlen : length AZ = AZnodes) by apply azimuth_nodes_length.
  destruct (grid_weights_rows (azimuth_weights AZnodes) (snd (leggauss ELnodes)))
    as [HWlen HWrows].
  fold W in HWlen, HWrows. rewrite Hw, <- HELlen in HWrows.
  assert (HWlen' : length W = AZnodes).
  { rewrite HWlen. unfold azimuth_weights, np_ones.
    rewrite length_map, length_replicate. reflexivity. }
  assert (Hrows : Forall (fun row => exists az el w,
                             row = [az; el; w]
                             /\ 0 <= az < 2 * PI /\ 0 <= el <= PI)
                    (concat (gauss_blocks AZ EL W))).
  { apply Forall_concat, Forall_lookup. intros k block Hblock.
    unfold gauss_blocks in Hblock. rewrite list_lookup_imap in Hblock.
    destruct (zip AZ W !! k) as [[AZk Wk]|] eqn:Hz; [| discriminate].
    inversion Hblock; subst block. simpl fst. simpl snd.
    apply lookup_zip_with_Some in Hz as (a & wk & Heq & Ha & _).
    inversion Heq; subst a wk.
    assert (Hk : (k < AZnodes)%nat).
    { apply lookup_lt_Some in Ha. lia. }
    subst AZ. rewrite azimuth_nodes_lookup in Ha by assumption.
    inversion Ha; subst AZk.
    apply Forall_forall. intros row Hrow. unfold gauss_block in Hrow.
    apply elem_of_lookup_zip_with in Hrow as (i & e & w & -> & He & _).
    exists (INR k * 2 * PI / INR AZnodes), e, w.
    split; [reflexivity |]. split; [apply azimuth_node_range; assumption |].
    apply list_elem_of_lookup_2, list_elem_of_In, zigzag_In in He.
    subst EL. apply in_map_iff in He as (x & <- & _).
    apply acos_bound. }
  exists (concat (gauss_blocks AZ EL W)).
  split; [reflexivity |]. split; [| split; [| assumption]].
  - rewrite (concat_length_uniform ELnodes).
    + unfold gauss_blocks. rewrite length_imap, length_zip_with. lia.
    + rewrite <- HELlen. apply gauss_blocks_uniform. assumption.
  - eexists. split.
    + apply column_of_triples.
      eapply Forall_impl; [exact Hrows |].
      intros row (az & el & w & -> & _). reflexivity.
    + unfold gauss_blocks.
      rewrite (gauss_blocks_weights (fun k => k)) by (assumption || lia).
      subst W. apply grid_weights_sum; [assumption | | assumption].
      intros Hnil. rewrite Hnil in Hw. simpl in Hw. lia.
Qed.
End GaussGridClaim.

(** ** sampledWave *)

Lemma py_bind_fails {A B : Type} (m : py A) (k : A -> py B) (t : list event) :
  (forall a t', m t = (t', Ok a) -> fails (k a t')) ->
  fails (py_bind m k t).
Proof.
  intros Hk. unfold py_bind. destruct (m t) as [t' [a|e]].
  - apply Hk. reflexivity.
  - exists e. reflexivity.
Qed.

Lemma py_for_each_fails {X St : Type} (x : X) (xs : list X)
    (body : X -> St -> py St) (st : St) (t : list event) :
  fails (body x st t) -> fails (py_for_each (x :: xs) body st t).
Proof.
  intros [e He]. simpl. unfold py_bind.
  destruct (body x st t) as [t' [s|e']]; simpl in He; [discriminate |].
  exists e'. reflexivity.
Qed.

Lemma py_for_each_imap_fails {X Y St : Type} (f : nat -> X -> Y)
    (xs : list X) (body : Y -> St -> py St) (st : St) (t : list event) :
  xs <> [] ->
  (forall x, fails (body (f 0 x) st t)) ->
  fails (py_for_each (imap f xs) body st t).
Proof.
  intros Hne Hb. destruct xs as [|x xs]; [congruence |].
  simpl. apply py_for_each_fails. apply Hb.
Qed.

Lemma insert_unique_nonempty (x : Z) (a : list Z) : insert_unique x a <> [].
Proof.
  destruct a as [|y a]; simpl; [discriminate |].
  destruct (x <? y)%Z; [discriminate |].
  destruct (x =? y)%Z; discriminate.
Qed.

Lemma np_unique_nonempty (a : list Z) : a <> [] -> np_unique a <> [].
Proof.
  destruct a as [|x a]; [congruence |]. intros _. simpl.
  apply insert_unique_nonempty.
Qed.

Lemma np_max_nonempty (a : list Z) (m : Z) : np_max a = Ok m -> a <> [].
Proof. destruct a; [discriminate | discriminate]. Qed.

Lemma clip_below_all (b : Z) (a : list Z) :
  Forall (fun o => (o <= b)%Z) a ->
  map (fun o => if (o <=? b)%Z then b else o) a = replicate (length a) b.
Proof.
  induction 1 as [|o a Ho _ IH]; simpl; [reflexivity |].
  rewrite IH. destruct (Z.leb_spec o b); [reflexivity | lia].
Qed.

Lemma clip_above_replicate (b lim : Z) (n : nat) :
  (b <= lim)%Z ->
  map (fun o => if (o >? lim)%Z then lim else o) (replicate n b) = replicate n b.
Proof.
  intros Hb. rewrite map_replicate.
  destruct (b >? lim)%Z eqn:E; [lia | reflexivity].
Qed.

Lemma foldl_max_bound (b x : Z) (a : list Z) :
  (x <= b)%Z -> Forall (fun o => (o <= b)%Z) a -> (foldl Z.max x a <= b)%Z.
Proof.
  intros Hx Ha. revert x Hx. induction Ha as [|o a Ho _ IH]; intros x Hx; simpl.
  - assumption.
  - apply IH. lia.
Qed.

Lemma np_max_bound (b : Z) (a : list Z) :
  a <> [] -> Forall (fun o => (o <= b)%Z) a ->
  exists m, np_max a = Ok m /\ (m <= b)%Z.
Proof.
  intros Hne Ha. destruct Ha as [|o a Ho Ha]; [congruence |].
  simpl. eexists. split; [reflexivity |].
  apply foldl_max_bound; assumption.
Qed.

Lemma np_max_replicate (x : Z) (n : nat) : np_max (replicate (S n) x) = Ok x.
Proof.
  simpl. f_equal. induction n as [|n IH]; simpl; [reflexivity |].
  rewrite Z.max_id. assumption.
Qed.

Lemma np_unique_replicate (x : Z) (n : nat) : np_unique (replicate (S n) x) = [x].
Proof.
  induction n as [|n IH]; [reflexivity |].
  change (np_unique (replicate (S (S n)) x))
    with (insert_unique x (np_unique (replicate (S n) x))).
  rewrite IH. simpl. rewrite Z.ltb_irrefl, Z.eqb_refl. reflexivity.
Qed.

Lemma flatnonzero_eq_replicate (x : Z) (n : nat) :
  flatnonzero_eq (replicate n x) x = seq 0 n.
Proof.
  unfold flatnonzero_eq.
  assert (Hgen : forall j,
             map fst (filter (fun p : nat * Z => snd p = x)
                        (imap (fun i y => (j + i, y)) (replicate n x)))
             = seq j n).
  { induction n as [|n IH]; intros j; [reflexivity |].
    simpl. rewrite filter_cons_True by reflexivity.
    simpl. rewrite Nat.add_0_r. f_equal.
    rewrite <- (IH (S j)). do 2 f_equal.
    apply imap_ext. intros i y _. simpl. f_equal. lia. }
  apply (Hgen 0).
Qed.

Lemma last_item_seq (n : nat) : last_item (seq 0 (S n)) = Ok n.
Proof. unfold last_item. rewrite seq_S, last_snoc. reflexivity. Qed.

Section SampledWaveFacts.
Context {F : Type} `{Scalar F} `{RealFun F} `{ComplexFun F} `{External F}.

(** The keyword arguments of the call in line 381 do not fit [ideal_wave]. *)
Lemma sampledWave_call_does_not_bind :
  bind_arguments "ideal_wave" ideal_wave_parameters 7
    ["wavetype"; "ds"; "lowerSegLim"; "upperSegLim"; "SegN"; "printInfo"]
  = Err (TypeError "ideal_wave() got an unexpected keyword argument 'ds'").
Proof. reflexivity. Qed.

(** C3 (as the code has it).  No call of [sampledWave] returns: whatever
    the arguments, the call ends in an exception.  Once the orders per bin
    are there, the first segment's call of [ideal_wave] passes the keyword
    arguments [ds] and [printInfo], which [ideal_wave] does not have. *)
Theorem sampledWave_never_returns
    heap r gridData ac FS NFFT AZ EL c wavetype ds Nlim printInfo t :
  exists e,
    snd (sampledWave heap r gridData ac FS NFFT AZ EL c wavetype ds Nlim
           printInfo t) = Err e.
Proof.
  change (fails (sampledWave heap r gridData ac FS NFFT AZ EL c wavetype ds Nlim
                   printInfo t)).
  unfold sampledWave.
  apply py_bind_fails. intros g t1 _.
  apply py_bind_fails. intros [kr krRef] t2 _.
  apply py_bind_fails. intros maxReqOrder t3 Hmax.
  apply py_bind_fails. intros Ng t4 HNg.
  apply py_bind_fails. intros _u t5 _.
  apply py_bind_fails. intros Pnm t6 Hloop. exfalso.
  unfold lift in HNg. inversion HNg as [[Ht HNg']]. clear HNg.
  apply np_max_nonempty in HNg'.
  apply np_unique_nonempty in HNg'.
  match type of Hloop with
  | py_for_each (imap ?f ?u) ?body ?st ?t = _ =>
      destruct (py_for_each_imap_fails f u body st t HNg') as [e He]
  end.
  - intros o. cbv beta iota.
    apply py_bind_fails. intros _u1 t7 _.
    apply py_bind_fails. intros lo t8 _.
    apply py_bind_fails. intros hi t9 _.
    apply py_bind_fails. intros _u2 t10 _.
    apply py_bind_fails. intros _u3 t11 Hbind.
    unfold lift in Hbind. rewrite sampledWave_call_does_not_bind in Hbind.
    discriminate.
  - rewrite Hloop in He. discriminate.
Qed.
(** X16.  The call the specification describes, as far as it gets: a radius
    given as a number, a grid supplied, and [ceil(2 * kr) <= 70 <= Nlim] for
    every bin.  One segment of order 70 is formed and [ideal_wave] is called
    once, for bins 0 to NFFT/2; that call raises the [TypeError]. *)
Lemma sampledWave_single_segment
    heap q g ac FS NFFT AZ EL c wavetype ds Nlim printInfo t :
  ~ (c == 0)%Q ->
  (0 <= NFFT)%Z ->
  (70 <= Nlim)%Z ->
  (forall kr, kr_axis q FS NFFT c = Ok kr ->
     Forall (fun k => (to_int (fceil (fmul k (ofZ 2))) <= 70)%Z) kr) ->
  sampledWave heap (Atom (VFloat q)) (Some g) ac FS NFFT AZ EL c wavetype ds Nlim
    printInfo t
  = (t ++ (if printInfo then [Printed "Full spectrum generator order: 70"] else [])
       ++ [ProgressBar 0 1 "sampledWave - Sampled Wave Generator";
           IdealWaveCall 70 0 (Z.quot (NFFT + 2) 2 - 1)],
     Err (TypeError "ideal_wave() got an unexpected keyword argument 'ds'")).
Proof.
  intros Hc HNFFT HNlim Hkr. unfold sampledWave.
  assert (Hnum : (1 <= Z.quot (NFFT + 2) 2)%Z).
  { apply Z.quot_le_lower_bound; lia. }
  destruct (Z.to_nat (Z.quot (NFFT + 2) 2)) as [|n] eqn:En; [lia |].
  assert (Eaxis : exists kr, kr_axis q FS NFFT c = Ok kr /\ length kr = S n).
  { unfold kr_axis.
    destruct (Qeq_bool c 0) eqn:Ec; [apply Qeq_bool_iff in Ec; contradiction |].
    destruct (Z.ltb_spec (Z.quot (NFFT + 2) 2) 0); [lia |].
    eexists. split; [reflexivity |]. rewrite linspace_length. assumption. }
  destruct Eaxis as (kr & Ekr & Hlen).
  specialize (Hkr kr Ekr).
  unfold py_bind at 1. unfold py_ret at 1.
  unfold py_bind at 1. unfold lift at 1. simpl as_number. simpl bind.
  rewrite Ekr. simpl bind. cbv iota beta.
  set (rq := map (fun k : F => to_int (fceil (fmul k (ofZ 2)))) kr).
  assert (Hrq : Forall (fun o => (o <= 70)%Z) rq).
  { subst rq. apply Forall_forall. intros o Ho.
    apply list_elem_of_In, in_map_iff in Ho as (k & <- & Hk).
    apply list_elem_of_In in Hk.
    exact (proj1 (Forall_forall _ _) Hkr k Hk). }
  assert (Hrqlen : length rq = S n) by (subst rq; rewrite length_map; assumption).
  destruct (np_max_bound 70 rq) as (m & Em & Hm); [| assumption |].
  { intros Hnil. rewrite Hnil in Hrqlen. discriminate. }
  unfold py_bind at 1. unfold lift at 1. rewrite Em.
  rewrite (clip_below_all 70 rq Hrq), Hrqlen.
  rewrite (clip_above_replicate 70 Nlim (S n) HNlim).
  unfold py_bind at 1. unfold lift at 1. rewrite np_max_replicate.
  destruct (Z.gtb_spec m 70) as [Hgt | _]; [lia |].
  change (70 =? 70)%Z with true. cbv iota.
  rewrite np_unique_replicate.
  unfold py_bind at 1.
  assert (Hprint : when printInfo
                     (print ("Full spectrum generator order: " ++ show_Z 70)%string) t
                   = (t ++ (if printInfo
                            then [Printed "Full spectrum generator order: 70"]
                            else []), Ok tt)).
  { destruct printInfo; simpl; [reflexivity |]. rewrite app_nil_r. reflexivity. }
  rewrite Hprint.
  set (t1 := t ++ (if printInfo then [Printed "Full spectrum generator order: 70"]
                   else [])).
  unfold py_bind at 1. simpl imap. simpl py_for_each.
  change (70%Z :: replicate n 70%Z) with (replicate (S n) 70%Z).
  rewrite flatnonzero_eq_replicate, last_item_seq, sampledWave_call_does_not_bind.
  change (get_item (seq 0 (S n)) 0) with (Ok (A := nat) 0).
  unfold py_bind, lift, emit, py_ret. cbv beta iota.
  subst t1. rewrite <- !app_assoc. simpl app.
  replace (Z.of_nat n) with (Z.quot (NFFT + 2) 2 - 1)%Z by lia.
  reflexivity.
Qed.
End SampledWaveFacts.

(** ** The rational carrier meets what [lebedev] relies on *)

Section RationalFacts.
Import Rational.

Lemma insert_by_value_perm (p : nat * Q) (a : list (nat * Q)) :
  Permutation (insert_by_value p a) (p :: a).
Proof.
  induction a as [|q a IH]; simpl; [reflexivity |].
  destruct (Qltb (snd p) (snd q)); [reflexivity |].
  rewrite IH. apply perm_swap.
Qed.

Lemma insertion_sort_perm (a : list (nat * Q)) :
  Permutation (foldr insert_by_value [] a) a.
Proof.
  induction a as [|p a IH]; simpl; [reflexivity |].
  rewrite insert_by_value_perm, IH. reflexivity.
Qed.

Lemma indices_of_imap (j : nat) (v : list Q) :
  map fst (imap (fun i x => (j + i, x)) v) = seq j (length v).
Proof.
  revert j. induction v as [|x v IH]; intros j; simpl; [reflexivity |].
  rewrite Nat.add_0_r. f_equal.
  rewrite <- IH. f_equal. apply imap_ext. intros i y _. simpl. f_equal. lia.
Qed.

Lemma argsort_Q_permutes : @argsort_permutes Q external.
Proof.
  intros v. simpl. unfold argsort_Q.
  rewrite insertion_sort_perm.
  rewrite <- (indices_of_imap 0 v). reflexivity.
Qed.

Lemma genGrid_Q_has_tables : @genGrid_has_tables Q external.
Proof.
  intros degree Hin. simpl. unfold genGrid_Q.
  assert (Hex : existsb (Z.eqb degree) deg_avail = true).
  { apply existsb_exists. exists degree. split; [assumption | apply Z.eqb_refl]. }
  rewrite Hex. eexists. reflexivity.
Qed.
End RationalFacts.

(** * Further properties

    The layout and shape of the results, when the functions return and what
    they raise, and what the noise generators and the packaging script
    do. *)

(** ** ideal_wave: shape, layout, errors *)

Section IdealWaveLayout.
Context {F : Type} `{Scalar F} `{RealFun F} `{ComplexFun F} `{External F}.

Lemma plane_filter_length n ar acfg tr (freqs ts : list F) :
  length ts = length freqs ->
  length (plane_filter n ar acfg tr freqs ts) = length freqs.
Proof.
  intros Hlen. unfold plane_filter, vmul.
  rewrite length_zip_with, length_map. lia.
Qed.

Lemma spherical_filter_length n ar acfg tr d c (w freqs ts : list F) :
  length ts = length freqs -> length w = length freqs ->
  length (spherical_filter n ar acfg tr d c w freqs ts) = length freqs.
Proof.
  intros Hts Hw. unfold spherical_filter, vmul. cbv zeta.
  rewrite !length_zip_with, !length_map. lia.
Qed.

Lemma radial_filter_of_length n ar acfg tr wt d fs delay c nfft :
  length (radial_filter_of n ar acfg tr wt d fs delay c nfft) = nfft.
Proof.
  unfold radial_filter_of. cbv zeta.
  destruct (py_is wt "plane"); [| destruct (py_is wt "spherical")].
  - rewrite plane_filter_length; rewrite ?length_map, !linspace_length; reflexivity.
  - rewrite spherical_filter_length; rewrite ?length_map, !linspace_length; reflexivity.
  - apply length_replicate.
Qed.

(** The loop of lines 473-478 leaves the filter of order [n] in row [n], for
    every order up to [SegN]. *)
Lemma radial_filters_rows ar acfg tr wt d fs delay c rows nfft SegN :
  Z.to_nat (SegN + 1) * Z.to_nat (SegN + 1) <= rows ->
  exists rf,
    radial_filters ar acfg tr wt d fs delay c rows nfft SegN = Ok rf
    /\ length rf = rows
    /\ forall n, n < Z.to_nat (SegN + 1) ->
         rf !! n = Some (radial_filter_of n ar acfg tr wt d fs delay c nfft).
Proof.
  intros Hrows. unfold radial_filters. cbv zeta.
  set (K := Z.to_nat (SegN + 1)) in *.
  match goal with
  | |- context [for_each (range 0 K) ?body ?st] =>
      destruct (for_each_inv
                  (fun i rf =>
                     length rf = rows
                     /\ (forall n, n < i ->
                           rf !! n
                           = Some (radial_filter_of n ar acfg tr wt d fs delay c nfft))
                     /\ (forall n, i <= n -> n < rows ->
                           rf !! n = Some (np_zeros nfft)))
                  (range 0 K) body st) as (rf & Erf & Hrf)
  end.
  - split; [apply length_replicate |]. split; [intros n Hn; lia |].
    intros n _ Hn. unfold np_zeros2. apply lookup_replicate_2. assumption.
  - intros i n rf Hn (Hlen & Hdone & Hrest). apply range_lookup in Hn as [-> Hi].
    assert (Hir : i < length rf) by nia.
    unfold radial_filter_of in *. cbv zeta in *.
    destruct (py_is wt "plane");
      [| destruct (py_is wt "spherical") ];
      try (rewrite set_item_ok by assumption; eexists; split; [reflexivity |];
           split; [rewrite length_insert; assumption |];
           split;
           [ intros n Hn; destruct (decide (n = i)) as [-> | Hne];
             [ rewrite list_lookup_insert_eq by assumption; reflexivity
             | rewrite list_lookup_insert_ne by lia; apply Hdone; lia ]
           | intros n Hn Hn'; rewrite list_lookup_insert_ne by lia;
             apply Hrest; lia ]).
    eexists; split; [reflexivity |]. split; [assumption |].
    split.
    + intros n Hn. destruct (decide (n = i)) as [-> | Hne].
      * apply Hrest; lia.
      * apply Hdone. lia.
    + intros n Hn Hn'. apply Hrest; lia.
  - rewrite range_length in Hrf. destruct Hrf as (Hlen & Hdone & _).
    exists rf. split; [assumption |]. split; assumption.
Qed.

Lemma ideal_wave_generator heap N az col ar acfg tr sr wt d fs F_NFFT delay c SegN l u Pnm :
  ideal_wave heap N az col ar acfg tr sr wt d fs F_NFFT delay c SegN l u = Ok Pnm ->
  passes_validation N ar acfg tr wt d fs F_NFFT delay SegN l u
  /\ generator heap az col ar acfg tr wt d fs delay c
       (Z.to_nat ((N + 1) ^ 2)) (Z.to_nat (Z.quot (F_NFFT + 2) 2))
       (match SegN with None => N | Some s => s end) = Ok Pnm.
Proof.
  unfold ideal_wave, passes_validation. cbv zeta.
  match goal with
  | |- context [bind ?chk _] => destruct chk as [[]|e] eqn:Hv
  end; simpl; [| discriminate].
  intros E. split; [reflexivity | assumption].
Qed.

(** What a returned [Pnm] holds, row by row. *)
Lemma ideal_wave_rows heap N az col ar acfg tr sr wt d fs F_NFFT delay c SegN l u Pnm :
  ideal_wave heap N az col ar acfg tr sr wt d fs F_NFFT delay c SegN l u = Ok Pnm ->
  let nfft := Z.to_nat (Z.quot (F_NFFT + 2) 2) in
  let rows := Z.to_nat ((N + 1) ^ 2) in
  let K := Z.to_nat (match SegN with None => N | Some s => s end + 1) in
  K * K <= rows
  /\ length Pnm = rows
  /\ (forall i, K * K <= i -> Pnm !! i = np_empty heap rows nfft !! i)
  /\ (forall n j, n < K -> j < 2 * n + 1 ->
        Pnm !! (n * n + j)
        = Some (vscale (fconj (sph_harm (Z.of_nat j - Z.of_nat n) n az col))
                  (radial_filter_of n ar acfg tr wt d fs delay c nfft))).
Proof.
  intros Hcall. apply ideal_wave_generator in Hcall as [Hv G].
  cbv zeta.
  set (s := match SegN with None => N | Some s => s end) in *.
  assert (Hrows : Z.to_nat (s + 1) * Z.to_nat (s + 1) <= Z.to_nat ((N + 1) ^ 2)).
  { apply safety_checks_bounds in Hv as (_ & _ & Hs). fold s in Hs. nia. }
  unfold generator in G.
  destruct (radial_filters_rows ar acfg tr wt d fs delay c _
              (Z.to_nat (Z.quot (F_NFFT + 2) 2)) s Hrows) as (rf & Erf & Hrf & Hrfn).
  rewrite Erf in G. simpl in G.
  destruct (generator_core_rows heap az col rf _ (Z.to_nat (Z.quot (F_NFFT + 2) 2)) s
              Hrf Hrows) as (P & EP & Hlen & Hhigh & Hw).
  rewrite EP in G. inversion G; subst P.
  split; [assumption |]. split; [assumption |]. split; [assumption |].
  intros n j Hn Hj. apply Hw; [assumption | assumption |]. apply Hrfn. assumption.
Qed.

(** X1.  [ideal_wave] returns a matrix exactly when the call passes the
    safety checks, and an exception it raises is a [ValueError] of those
    checks: the loops never index out of range. *)
Theorem ideal_wave_returns_iff
    heap N az col ar acfg tr sr wt d fs F_NFFT delay c SegN l u :
  (passes_validation N ar acfg tr wt d fs F_NFFT delay SegN l u
   <-> exists Pnm,
         ideal_wave heap N az col ar acfg tr sr wt d fs F_NFFT delay c SegN l u
         = Ok Pnm)
  /\ (forall e,
        ideal_wave heap N az col ar acfg tr sr wt d fs F_NFFT delay c SegN l u
        = Err e ->
        exists msg, e = ValueError msg).
Proof.
  split; [split |].
  - intros Hv.
    destruct (ideal_wave_returns heap N az col ar acfg tr sr wt d fs F_NFFT delay c
                SegN l u Hv) as (Pnm & E & _).
    exists Pnm. assumption.
  - intros (Pnm & E). apply ideal_wave_generator in E as [Hv _]. assumption.
  - intros e E. unfold ideal_wave in E. cbv zeta in E.
    match type of E with
    | context [bind ?chk _] => destruct chk as [[]|e'] eqn:Hv
    end; simpl in E.
    + destruct (ideal_wave_returns heap N az col ar acfg tr sr wt d fs F_NFFT delay c
                  SegN l u Hv) as (Pnm & _ & G).
      rewrite G in E. discriminate.
    + inversion E; subst e'. eapply safety_checks_error. exact Hv.
Qed.

(** X2.  The matrix [ideal_wave] returns has [(N + 1)^2] rows of
    [int(F_NFFT / 2 + 1)] entries each. *)
Theorem ideal_wave_shape
    heap N az col ar acfg tr sr wt d fs F_NFFT delay c SegN l u Pnm :
  ideal_wave heap N az col ar acfg tr sr wt d fs F_NFFT delay c SegN l u = Ok Pnm ->
  length Pnm = Z.to_nat ((N + 1) ^ 2)
  /\ Forall (fun row => length row = Z.to_nat (Z.quot (F_NFFT + 2) 2)) Pnm.
Proof.
  intros Hcall. apply ideal_wave_rows in Hcall. cbv zeta in Hcall.
  destruct Hcall as (HK & Hlen & Hhigh & Hw).
  split; [assumption |].
  apply Forall_lookup. intros i row Hrow.
  set (K := Z.to_nat (match SegN with None => N | Some s => s end + 1)) in *.
  destruct (le_lt_dec (K * K) i) as [Hge | Hlt].
  - rewrite Hhigh in Hrow by assumption.
    apply (Forall_lookup_1 _ _ _ _ (np_empty_rows heap _ _) Hrow).
  - set (n := Nat.sqrt i).
    pose proof (Nat.sqrt_spec i (Nat.le_0_l i)) as [Hlo Hhi]. fold n in Hlo, Hhi.
    simpl in Hhi.
    assert (Hn : n < K) by nia.
    replace i with (n * n + (i - n * n)) in Hrow by lia.
    rewrite Hw in Hrow by lia. inversion Hrow.
    unfold vscale. rewrite length_map. apply radial_filter_of_length.
Qed.

(** X3.  For every order [n <= SegN] and degree [m] in [-n .. n], row
    [n^2 + n + m] of the returned matrix is the radial filter of order [n]
    times the conjugate of [sph_harm(m, n, azimuth, colatitude)]. *)
Theorem ideal_wave_row_layout
    heap N az col ar acfg tr sr wt d fs F_NFFT delay c SegN l u Pnm (n : nat) (m : Z) :
  ideal_wave heap N az col ar acfg tr sr wt d fs F_NFFT delay c SegN l u = Ok Pnm ->
  (Z.of_nat n <= match SegN with None => N | Some s => s end)%Z ->
  (- Z.of_nat n <= m <= Z.of_nat n)%Z ->
  Pnm !! Z.to_nat (Z.of_nat n * Z.of_nat n + Z.of_nat n + m)
  = Some (vscale (fconj (sph_harm m n az col))
            (radial_filter_of n ar acfg tr wt d fs delay c
               (Z.to_nat (Z.quot (F_NFFT + 2) 2)))).
Proof.
  intros Hcall Hn Hm. apply ideal_wave_rows in Hcall. cbv zeta in Hcall.
  destruct Hcall as (_ & _ & _ & Hw).
  replace (Z.to_nat (Z.of_nat n * Z.of_nat n + Z.of_nat n + m))
    with (n * n + Z.to_nat (m + Z.of_nat n)) by nia.
  rewrite Hw by lia.
  replace (Z.of_nat (Z.to_nat (m + Z.of_nat n)) - Z.of_nat n)%Z with m by lia.
  reflexivity.
Qed.

(** X4.  At full order ([SegN] left out, or equal to [N]) and [N >= -1],
    the result of [ideal_wave] does not depend on what the block of
    [np.empty] held: every row is written. *)
Theorem ideal_wave_full_order_initialised
    heap1 heap2 N az col ar acfg tr sr wt d fs F_NFFT delay c SegN l u :
  (-1 <= N)%Z ->
  SegN = None \/ SegN = Some N ->
  ideal_wave heap1 N az col ar acfg tr sr wt d fs F_NFFT delay c SegN l u
  = ideal_wave heap2 N az col ar acfg tr sr wt d fs F_NFFT delay c SegN l u.
Proof.
  intros HN HSeg.
  destruct (ideal_wave heap1 N az col ar acfg tr sr wt d fs F_NFFT delay c SegN l u)
    as [P1|e1] eqn:E1.
  - pose proof (proj1 (ideal_wave_generator _ _ _ _ _ _ _ _ _ _ _ _ _ _ _ _ _ _ E1)) as Hv.
    destruct (ideal_wave_returns heap2 N az col ar acfg tr sr wt d fs F_NFFT delay c
                SegN l u Hv) as (P2 & E2 & _).
    rewrite E2. f_equal.
    apply ideal_wave_rows in E1. apply ideal_wave_rows in E2. cbv zeta in E1, E2.
    destruct E1 as (_ & Hlen1 & _ & Hw1). destruct E2 as (_ & Hlen2 & _ & Hw2).
    assert (HK : Z.to_nat (match SegN with None => N | Some s => s end + 1)
                 * Z.to_nat (match SegN with None => N | Some s => s end + 1)
                 = Z.to_nat ((N + 1) ^ 2)).
    { destruct HSeg as [-> | ->]; nia. }
    set (K := Z.to_nat (match SegN with None => N | Some s => s end + 1)) in *.
    apply list_eq. intros i.
    destruct (le_lt_dec (K * K) i) as [Hge | Hlt].
    + rewrite !lookup_ge_None_2 by lia. reflexivity.
    + set (n := Nat.sqrt i).
      pose proof (Nat.sqrt_spec i (Nat.le_0_l i)) as [Hlo Hhi]. fold n in Hlo, Hhi.
      simpl in Hhi.
      assert (Hn : n < K) by nia.
      replace i with (n * n + (i - n * n)) by lia.
      rewrite Hw1, Hw2 by lia. reflexivity.
  - destruct (ideal_wave heap2 N az col ar acfg tr sr wt d fs F_NFFT delay c SegN l u)
      as [P2|e2] eqn:E2.
    + pose proof (proj1 (ideal_wave_generator _ _ _ _ _ _ _ _ _ _ _ _ _ _ _ _ _ _ E2)) as Hv.
      destruct (ideal_wave_returns heap1 N az col ar acfg tr sr wt d fs F_NFFT delay c
                  SegN l u Hv) as (P1 & E1' & _).
      rewrite E1' in E1. discriminate.
    + unfold ideal_wave in E1, E2. cbv zeta in E1, E2.
      match type of E1 with
      | context [bind ?chk _] => destruct chk as [[]|e'] eqn:Hv
      end; simpl in E1, E2.
      * destruct (ideal_wave_returns heap1 N az col ar acfg tr sr wt d fs F_NFFT delay c
                    SegN l u Hv) as (P1 & _ & G1).
        rewrite G1 in E1. discriminate.
      * congruence.
Qed.
(** C8 (as the code has it).  Two calls of [ideal_wave] that differ in
    [lowerSegLim] and [upperSegLim] only, each on the block [np.empty]
    hands it, both return when the limits pass the safety checks, and
    their matrices agree in every row below [(SegN + 1)^2], the rows the
    call computes: the limits restrict nothing.  The matrices are equal
    exactly when the two blocks held the same in the rows from
    [(SegN + 1)^2] on, which no call writes; for [SegN < N] they differ as
    the blocks do. *)
Theorem ideal_wave_segment_limits_per_block
    heap1 heap2 N az col ar acfg tr sr wt d fs F_NFFT delay c SegN l1 u1 l2 u2 :
  passes_validation N ar acfg tr wt d fs F_NFFT delay SegN l1 u1 ->
  passes_validation N ar acfg tr wt d fs F_NFFT delay SegN l2 u2 ->
  exists Pnm1 Pnm2,
    ideal_wave heap1 N az col ar acfg tr sr wt d fs F_NFFT delay c SegN l1 u1 = Ok Pnm1
    /\ ideal_wave heap2 N az col ar acfg tr sr wt d fs F_NFFT delay c SegN l2 u2 = Ok Pnm2
    /\ (forall i,
          i < Z.to_nat (match SegN with None => N | Some s => s end + 1)
              * Z.to_nat (match SegN with None => N | Some s => s end + 1) ->
          Pnm1 !! i = Pnm2 !! i)
    /\ (Pnm1 = Pnm2
        <-> forall i j,
              Z.to_nat (match SegN with None => N | Some s => s end + 1)
              * Z.to_nat (match SegN with None => N | Some s => s end + 1) <= i ->
              i < Z.to_nat ((N + 1) ^ 2) ->
              j < Z.to_nat (Z.quot (F_NFFT + 2) 2) ->
              heap1 i j = heap2 i j).
Proof.
  intros Hv1 Hv2.
  destruct (ideal_wave_returns heap1 N az col ar acfg tr sr wt d fs F_NFFT delay c
              SegN l1 u1 Hv1) as (P1 & E1 & _).
  destruct (ideal_wave_returns heap2 N az col ar acfg tr sr wt d fs F_NFFT delay c
              SegN l2 u2 Hv2) as (P2 & E2 & _).
  exists P1, P2. split; [assumption |]. split; [assumption |].
  apply ideal_wave_rows in E1. apply ideal_wave_rows in E2. cbv zeta in E1, E2.
  destruct E1 as (HK & Hlen1 & Hhigh1 & Hw1). destruct E2 as (_ & Hlen2 & Hhigh2 & Hw2).
  set (K := Z.to_nat (match SegN with None => N | Some s => s end + 1)) in *.
  set (rows := Z.to_nat ((N + 1) ^ 2)) in *.
  set (nfft := Z.to_nat (Z.quot (F_NFFT + 2) 2)) in *.
  assert (Hlow : forall i, i < K * K -> P1 !! i = P2 !! i).
  { intros i Hi. set (n := Nat.sqrt i).
    pose proof (Nat.sqrt_spec i (Nat.le_0_l i)) as [Hlo Hhi]. fold n in Hlo, Hhi.
    simpl in Hhi.
    assert (Hn : n < K) by nia.
    replace i with (n * n + (i - n * n)) by lia.
    rewrite Hw1, Hw2 by lia. reflexivity. }
  split; [exact Hlow |]. split.
  - intros Heq i j HKi Hi Hj.
    pose proof (Hhigh1 i HKi) as R1. pose proof (Hhigh2 i HKi) as R2.
    rewrite np_empty_lookup in R1, R2 by assumption.
    rewrite Heq, R2 in R1. inversion R1 as [Hmap].
    assert (Hl : map (heap2 i) (seq 0 nfft) !! j = map (heap1 i) (seq 0 nfft) !! j)
      by (rewrite Hmap; reflexivity).
    rewrite !map_lookup, (lookup_seq_lt 0 nfft j Hj) in Hl.
    simpl in Hl. inversion Hl. reflexivity.
  - intros Hheap. apply list_eq. intros i.
    destruct (le_lt_dec (K * K) i) as [Hge | Hlt]; [| apply Hlow; assumption].
    destruct (le_lt_dec rows i) as [Hout | Hin].
    + rewrite !lookup_ge_None_2 by lia. reflexivity.
    + rewrite Hhigh1, Hhigh2 by assumption.
      rewrite !np_empty_lookup by assumption. f_equal.
      apply map_ext_in. intros j Hj. apply in_seq in Hj.
      apply Hheap; [assumption | assumption | lia].
Qed.
End IdealWaveLayout.

(** ** gaussGrid: layout and weights *)

Lemma rev_lookup {A : Type} (a : list A) (i : nat) :
  i < length a -> rev a !! i = a !! (length a - 1 - i).
Proof.
  intros Hi. rewrite rev_alt. change (rev_append a []) with (reverse a).
  rewrite reverse_lookup by assumption. f_equal. lia.
Qed.

Lemma zigzag_lookup {A : Type} (k : nat) (a : list A) (i : nat) :
  i < length a -> zigzag k a !! i = a !! (if Nat.even k then length a - 1 - i else i).
Proof.
  intros Hi. unfold zigzag.
  assert (E : (Z.of_nat k mod 2 =? 0)%Z = Nat.even k).
  { change 2%Z with (Z.of_nat 2). rewrite <- Nat2Z.inj_mod.
    destruct (Nat.even k) eqn:Ev.
    - apply Nat.even_spec in Ev as [h ->].
      replace (2 * h) with (h * 2) by lia. rewrite Nat.Div0.mod_mul. reflexivity.
    - assert (Hodd : Nat.odd k = true) by (rewrite <- Nat.negb_even, Ev; reflexivity).
      apply Nat.odd_spec in Hodd as [h ->].
      replace (2 * h + 1) with (1 + h * 2) by lia.
      rewrite Nat.Div0.mod_add. reflexivity. }
  rewrite E. destruct (Nat.even k); [apply rev_lookup; assumption | reflexivity].
Qed.

Lemma concat_lookup_uniform {A : Type} (n : nat) (bs : list (list A)) (k i : nat)
    (b : list A) :
  Forall (fun b => length b = n) bs ->
  bs !! k = Some b -> i < n ->
  concat bs !! (k * n + i) = b !! i.
Proof.
  intros Hbs. revert k. induction Hbs as [|b0 bs Hb0 _ IH]; intros k Hk Hi.
  - discriminate.
  - destruct k as [|k]; simpl in Hk.
    + inversion Hk; subst b0. simpl. apply lookup_app_l. lia.
    + simpl concat. rewrite lookup_app_r by lia.
      replace (S k * n + i - length b0) with (k * n + i) by lia.
      apply IH; assumption.
Qed.

Section GaussGridLayout.
Context {F : Type} `{Scalar F} `{RealFun F} `{External F}.

(** Row [k * ELnodes + i] of the grid: the azimuth of block [k], and the
    elevation node and weight the zig-zag puts at place [i]. *)
Lemma gauss_blocks_row (AZ EL : list F) (W : list (list F)) (k i : nat) AZk Wk e w :
  Forall (fun row => length row = length EL) W ->
  AZ !! k = Some AZk -> W !! k = Some Wk ->
  i < length EL ->
  EL !! (if Nat.even k then length EL - 1 - i else i) = Some e ->
  Wk !! (if Nat.even k then length EL - 1 - i else i) = Some w ->
  concat (gauss_blocks AZ EL W) !! (k * length EL + i) = Some [AZk; e; w].
Proof.
  intros HW HAZk HWk Hi He Hw.
  assert (HWklen : length Wk = length EL) by exact (Forall_lookup_1 _ _ _ _ HW HWk).
  rewrite (concat_lookup_uniform (length EL) _ k i (gauss_block k AZk EL Wk)).
  - unfold gauss_block. apply lookup_zip_with_Some.
    exists e, w. split; [reflexivity |].
    rewrite !zigzag_lookup by lia. rewrite HWklen. split; assumption.
  - apply gauss_blocks_uniform. assumption.
  - apply gauss_blocks_lookup; assumption.
  - assumption.
Qed.

Lemma azimuth_weights_length (n : nat) : length (azimuth_weights n) = n.
Proof. unfold azimuth_weights, np_ones. rewrite length_map, length_replicate. reflexivity. Qed.

(** X5.  The rows of the grid come in [AZnodes] blocks of [ELnodes] rows,
    azimuth increasing from block to block; inside block [k] the elevation
    nodes of [leggauss] run backwards when [k] is even and forwards when [k]
    is odd, each with its weight: row [k * ELnodes + i] is
    [[AZ[k], arccos(x[j]), W[k][j]]] with [j = ELnodes - 1 - i] or [j = i]. *)
Theorem gaussGrid_row_layout heap (AZnodes ELnodes k i : nat) :
  length (fst (leggauss ELnodes)) = ELnodes ->
  length (snd (leggauss ELnodes)) = ELnodes ->
  k < AZnodes -> i < ELnodes ->
  exists gridData AZk Wk x w,
    gaussGrid heap AZnodes ELnodes = Ok gridData
    /\ azimuth_nodes AZnodes !! k = Some AZk
    /\ grid_weights (azimuth_weights AZnodes) (snd (leggauss ELnodes)) !! k = Some Wk
    /\ fst (leggauss ELnodes) !! (if Nat.even k then ELnodes - 1 - i else i) = Some x
    /\ Wk !! (if Nat.even k then ELnodes - 1 - i else i) = Some w
    /\ gridData !! (k * ELnodes + i) = Some [AZk; farccos x; w].
Proof.
  intros Hx Hw Hk Hi.
  rewrite gaussGrid_blocks by (assumption || lia).
  set (AZ := azimuth_nodes AZnodes).
  set (EL := map farccos (fst (leggauss ELnodes))).
  set (W := grid_weights (azimuth_weights AZnodes) (snd (leggauss ELnodes))).
  assert (HELlen : length EL = ELnodes) by (subst EL; rewrite length_map; assumption).
  destruct (grid_weights_rows (azimuth_weights AZnodes) (snd (leggauss ELnodes)))
    as [HWlen HWrows].
  fold W in HWlen, HWrows. rewrite Hw, <- HELlen in HWrows.
  rewrite azimuth_weights_length in HWlen.
  destruct (lookup_lt_is_Some_2 AZ k) as [AZk HAZk];
    [subst AZ; rewrite azimuth_nodes_length; lia |].
  destruct (lookup_lt_is_Some_2 W k) as [Wk HWk]; [lia |].
  assert (HWklen : length Wk = ELnodes).
  { rewrite <- HELlen. exact (Forall_lookup_1 _ _ _ _ HWrows HWk). }
  set (j := if Nat.even k then ELnodes - 1 - i else i).
  assert (Hj : j < ELnodes) by (subst j; destruct (Nat.even k); lia).
  destruct (lookup_lt_is_Some_2 (fst (leggauss ELnodes)) j) as [x Hxj]; [lia |].
  destruct (lookup_lt_is_Some_2 Wk j) as [w Hwj]; [lia |].
  exists (concat (gauss_blocks AZ EL W)), AZk, Wk, x, w.
  split; [reflexivity |]. split; [assumption |]. split; [assumption |].
  split; [assumption |]. split; [assumption |].
  replace (k * ELnodes + i) with (k * length EL + i) by (rewrite HELlen; reflexivity).
  apply (gauss_blocks_row AZ EL W k i AZk Wk (farccos x) w);
    try assumption; rewrite HELlen; try assumption.
  fold j. subst EL. rewrite map_lookup, Hxj. reflexivity.
Qed.

(** X6.  [gaussGrid] hands back nothing of the block [np.empty] gave it:
    whatever the block held, the grid is the same. *)
Theorem gaussGrid_overwrites_block heap1 heap2 (AZnodes ELnodes : nat) :
  length (fst (leggauss ELnodes)) = ELnodes ->
  length (snd (leggauss ELnodes)) = ELnodes ->
  gaussGrid heap1 AZnodes ELnodes = gaussGrid heap2 AZnodes ELnodes.
Proof.
  intros Hx Hw. destruct ELnodes as [|n].
  - reflexivity.
  - rewrite !gaussGrid_blocks by (assumption || lia). reflexivity.
Qed.

(** X7.  Degenerate node counts: with no elevation node [gaussGrid] raises
    the [ValueError] of [leggauss]; with no azimuth node (and at least one
    elevation node) it returns a grid without rows. *)
Theorem gaussGrid_degenerate_counts heap (AZnodes ELnodes : nat) :
  (exists msg, gaussGrid heap AZnodes 0 = Err (ValueError msg))
  /\ (1 <= ELnodes -> gaussGrid heap 0 ELnodes = Ok []).
Proof.
  split.
  - eexists. reflexivity.
  - intros HEL. unfold gaussGrid.
    destruct (ELnodes =? 0) eqn:E0; [apply Nat.eqb_eq in E0; lia |].
    destruct (leggauss ELnodes) as [x w]. cbv zeta. simpl.
    rewrite Nat.mul_0_r. reflexivity.
Qed.
End GaussGridLayout.

Section GaussGridWeights.
Import Exact.
Context `{External R}.
Open Scope R_scope.

Lemma vsum_scale (c : R) (a : list R) :
  vsum (map (fun e => fdiv (fmul c e) (ofZ 3)) a) = c / 3 * vsum a.
Proof.
  induction a as [|x a IH].
  - cbn [map]. rewrite vsum_nil. lra.
  - cbn [map]. rewrite !vsum_cons, IH. simpl. lra.
Qed.

Lemma vsum_concat_replicate (n : nat) (row : list R) :
  vsum (concat (replicate n row)) = INR n * vsum row.
Proof.
  induction n as [|n IH].
  - simpl. lra.
  - cbn [replicate concat]. rewrite vsum_app, IH, S_INR. lra.
Qed.

(** Every azimuth block has the same weights: those of [leggauss], divided
    by their sum and by the number of azimuth nodes. *)
Lemma grid_weights_formula (AZnodes : nat) (ELw : list R) :
  (1 <= AZnodes)%nat -> vsum ELw <> 0 ->
  grid_weights (azimuth_weights AZnodes) ELw
  = replicate AZnodes (map (fun e => e / (INR AZnodes * vsum ELw)) ELw).
Proof.
  intros HAZ Hsum. unfold grid_weights, azimuth_weights, np_ones. cbv zeta.
  rewrite !map_replicate.
  rewrite vsum_concat_replicate, vsum_scale.
  f_equal. rewrite map_map. apply map_ext. intros e.
  assert (Hn : INR AZnodes <> 0) by (apply not_0_INR; lia).
  pose proof PI_RGT_0 as Hpi.
  simpl. rewrite <- INR_IZR_INZ. field. repeat split; try assumption; lra.
Qed.

(** X8.  In exact arithmetic, row [k * ELnodes + i] of the grid is
    [[2 pi k / AZnodes, arccos(x[j]), w[j] / (AZnodes * sum(w))]], with
    [x] and [w] the nodes and weights of [leggauss] and [j] as the zig-zag
    has it: the azimuth nodes are evenly spaced and share the weight
    evenly. *)
Theorem gaussGrid_row_values heap (AZnodes ELnodes k i : nat) :
  length (fst (leggauss ELnodes)) = ELnodes ->
  length (snd (leggauss ELnodes)) = ELnodes ->
  vsum (snd (leggauss ELnodes)) <> 0 ->
  (k < AZnodes)%nat -> (i < ELnodes)%nat ->
  exists gridData x w,
    gaussGrid heap AZnodes ELnodes = Ok gridData
    /\ fst (leggauss ELnodes) !! (if Nat.even k then ELnodes - 1 - i else i)%nat
       = Some x
    /\ snd (leggauss ELnodes) !! (if Nat.even k then ELnodes - 1 - i else i)%nat
       = Some w
    /\ gridData !! (k * ELnodes + i)%nat
       = Some [INR k * 2 * PI / INR AZnodes; acos x;
               w / (INR AZnodes * vsum (snd (leggauss ELnodes)))].
Proof.
  intros Hx Hw Hsum Hk Hi.
  rewrite gaussGrid_blocks by (assumption || lia).
  rewrite grid_weights_formula by (assumption || lia).
  set (EL := map farccos (fst (leggauss ELnodes))).
  assert (HELlen : length EL = ELnodes) by (subst EL; rewrite length_map; assumption).
  set (j := if Nat.even k then (ELnodes - 1 - i)%nat else i).
  assert (Hj : (j < ELnodes)%nat) by (subst j; destruct (Nat.even k); lia).
  destruct (lookup_lt_is_Some_2 (fst (leggauss ELnodes)) j) as [x Hxj]; [lia |].
  destruct (lookup_lt_is_Some_2 (snd (leggauss ELnodes)) j) as [w Hwj]; [lia |].
  eexists. exists x, w.
  split; [reflexivity |]. split; [assumption |]. split; [assumption |].
  replace (k * ELnodes + i)%nat with (k * length EL + i)%nat
    by (rewrite HELlen; reflexivity).
  eapply gauss_blocks_row.
  - apply Forall_forall. intros row Hrow.
    apply elem_of_replicate in Hrow as [-> _]. rewrite length_map. lia.
  - apply azimuth_nodes_lookup. assumption.
  - apply lookup_replicate_2. assumption.
  - lia.
  - rewrite HELlen. fold j. subst EL. rewrite map_lookup, Hxj. reflexivity.
  - rewrite HELlen, map_lookup. fold j. rewrite Hwj. reflexivity.
Qed.
End GaussGridWeights.

(** ** lebedev: the rows of the grid *)

Lemma traverse_get_item {A : Type} (d : A) (g : list A) (idx : list nat) (g' : list A) :
  traverse (get_item g) idx = Ok g' -> g' = map (fun i => nth i g d) idx.
Proof.
  revert g'. induction idx as [|i idx IH]; intros g' E; simpl in E.
  - inversion E. reflexivity.
  - unfold get_item in E at 1.
    destruct (g !! i) as [x|] eqn:Hx; simpl in E; [| discriminate].
    destruct (traverse (get_item g) idx) as [ys|] eqn:Eys; simpl in E; [| discriminate].
    inversion E. simpl. f_equal; [| apply IH; reflexivity].
    symmetry. apply nth_lookup_Some. assumption.
Qed.

Lemma map_nth_seq {A : Type} (d : A) (g : list A) :
  map (fun i => nth i g d) (seq 0 (length g)) = g.
Proof.
  apply list_eq. intros i. rewrite map_lookup.
  destruct (le_lt_dec (length g) i) as [Hge | Hlt].
  - rewrite lookup_seq_ge by lia. rewrite lookup_ge_None_2 by lia. reflexivity.
  - rewrite lookup_seq_lt by lia. simpl.
    destruct (lookup_lt_is_Some_2 g i Hlt) as [x Hx].
    rewrite Hx. f_equal. apply nth_lookup_Some. assumption.
Qed.

(** Taking the rows of [g] along a permutation of its indices keeps every
    row, once. *)
Lemma take_rows_permutation {F : Type} (g : list (list F)) (idx : list nat)
    (g' : list (list F)) :
  Permutation idx (seq 0 (length g)) ->
  take_rows g idx = Ok g' -> Permutation g' g.
Proof.
  intros Hperm E. unfold take_rows in E.
  apply (traverse_get_item []) in E. subst g'.
  transitivity (map (fun i => nth i g []) (seq 0 (length g))).
  - apply Permutation_map. assumption.
  - rewrite map_nth_seq. reflexivity.
Qed.

Lemma zip_with_zip_map {A B C D E : Type} (f : B * C -> D -> E)
    (a : A -> B) (b : A -> C) (c : A -> D) (l : list A) :
  zip_with f (zip (map a l) (map b l)) (map c l) = map (fun p => f (a p, b p) (c p)) l.
Proof. induction l as [|p l IH]; simpl; [reflexivity | rewrite IH; reflexivity]. Qed.

Section LebedevRows.
Context {F : Type} `{Scalar F} `{RealFun F} `{External F}.

(** X10.  For a degree of the list, the grid [lebedev] returns has one
    row [[theta mod 2 pi, phi + pi / 2, w]] for every point of
    [genGrid(degree)]: the double sort reorders the rows and neither drops,
    repeats nor mixes them.  ([argsort] is taken to return a permutation of
    the indices.) *)
Theorem lebedev_rows_permuted degree printInfo t points :
  argsort_permutes ->
  In degree deg_avail ->
  genGrid degree = Ok points ->
  exists gridData Nmax,
    snd (lebedev degree printInfo t) = Ok (gridData, Nmax)
    /\ Permutation gridData
         (map (fun p => let '(x, y, z, w) := p in
                        let '(theta, phi, _) := cart2sph x y z in
                        [fmod theta (fmul (ofZ 2) fpi);
                         fadd phi (fdiv fpi (ofZ 2)); w]) points)
    /\ length gridData = length points.
Proof.
  intros Hsort Hin Epoints.
  assert (Hex : existsb (Z.eqb degree) deg_avail = true).
  { apply existsb_exists. exists degree. split; [assumption | apply Z.eqb_refl]. }
  assert (Hgrid : forall t', exists gridData Nmax,
             snd (lebedev_grid degree t') = Ok (gridData, Nmax)
             /\ Permutation gridData
                  (map (fun p => let '(x, y, z, w) := p in
                                 let '(theta, phi, _) := cart2sph x y z in
                                 [fmod theta (fmul (ofZ 2) fpi);
                                  fadd phi (fdiv fpi (ofZ 2)); w]) points)).
  { intros t'. unfold lebedev_grid.
    unfold py_bind at 1. unfold lift at 1. rewrite Epoints. cbv zeta.
    rewrite !map_map.
    rewrite (zip_with_zip_map
               (fun tp wi => [fst tp; fadd (snd tp) (fdiv fpi (ofZ 2)); wi])).
    match goal with
    | |- context [column (map ?f points) 1] => set (g0 := map f points)
    end.
    assert (Hg0 : Forall (fun row : list F => length row = 3) g0).
    { subst g0. apply Forall_forall. intros row Hrow.
      apply list_elem_of_In, in_map_iff in Hrow as (p & <- & _).
      destruct p as [[[x y] z] w]. reflexivity. }
    destruct (column_returns g0 1 Hg0) as (col1 & Ecol1 & Hcol1); [lia |].
    destruct (take_rows_returns g0 (argsort col1) Hg0) as (g1 & Eg1 & Hg1 & Hlen1).
    { rewrite <- Hcol1. apply argsort_in_range. assumption. }
    destruct (column_returns g1 0 Hg1) as (col0 & Ecol0 & Hcol0); [lia |].
    destruct (take_rows_returns g1 (argsort col0) Hg1) as (g2 & Eg2 & _ & _).
    { rewrite <- Hcol0. apply argsort_in_range. assumption. }
    exists g2. eexists.
    unfold py_bind, lift, py_ret.
    rewrite Ecol1, Eg1, Ecol0, Eg2. split; [reflexivity |].
    assert (P1 : Permutation g1 g0).
    { apply (take_rows_permutation g0 (argsort col1)); [| assumption].
      rewrite <- Hcol1. apply Hsort. }
    assert (P2 : Permutation g2 g1).
    { apply (take_rows_permutation g1 (argsort col0)); [| assumption].
      rewrite <- Hcol0. apply Hsort. }
    rewrite P2, P1. subst g0.
    apply Permutation_refl'. apply map_ext. intros [[[x y] z] w].
    destruct (cart2sph x y z) as [[theta phi] r]. reflexivity. }
  assert (Hrun : exists t', snd (lebedev degree printInfo t)
                           = snd (lebedev_grid degree t')).
  { unfold lebedev. rewrite Hex. simpl negb. cbv iota.
    destruct printInfo.
    - unfold when, print, emit. unfold py_bind at 1. eexists. reflexivity.
    - unfold when, py_ret at 1. unfold py_bind at 1. eexists. reflexivity. }
  destruct Hrun as (t' & ->).
  destruct (Hgrid t') as (g & Nmax & E & P).
  exists g, Nmax. split; [assumption |]. split; [assumption |].
  rewrite (Permutation_length P). apply length_map.
Qed.
End LebedevRows.

(** ** radFilter: success, filter bank, beam response *)

Section RadFilterRuns.
Context {F : Type} `{Scalar F} `{RealFun F} `{External F}.

Lemma filter_row_length ctr (v : list F) ac lim a_max :
  length (filter_row ctr v v ac lim a_max) = length v.
Proof.
  unfold filter_row, vdiv. cbv zeta.
  destruct lim; rewrite length_zip_with, length_map, length_zip_with; lia.
Qed.

(** The loop of lines 211-217 overwrites every row of the block [np.empty]
    handed out. *)
Lemma bn_filters_closed heap N (krm krs : list F) ac lim a_max :
  bn_filters heap N krm krs ac lim a_max
  = Ok (map (fun ctr => filter_row ctr krm krs ac lim a_max) (seq 0 (N + 1))).
Proof.
  unfold bn_filters.
  match goal with
  | |- for_each ?xs ?body ?st = _ =>
      destruct (for_each_inv
                  (fun i O => length O = N + 1
                              /\ forall n, n < i ->
                                   O !! n = Some (filter_row n krm krs ac lim a_max))
                  xs body st) as (O & E & HO)
  end.
  - split; [apply np_empty_length | intros n Hn; lia].
  - intros i ctr O Hctr (HlenO & Hdone). apply range_lookup in Hctr as [-> Hi].
    rewrite set_item_ok by lia.
    eexists. split; [reflexivity |]. split; [rewrite length_insert; assumption |].
    intros n Hn. destruct (decide (n = i)) as [-> | Hne].
    + rewrite list_lookup_insert_eq by lia. reflexivity.
    + rewrite list_lookup_insert_ne by lia. apply Hdone. lia.
  - rewrite E. f_equal. rewrite range_length in HO. destruct HO as (Hlen & Hdone).
    apply list_eq. intros n. rewrite map_lookup.
    destruct (le_lt_dec (N + 1) n) as [Hge | Hlt].
    + rewrite lookup_ge_None_2 by lia. rewrite lookup_seq_ge by lia. reflexivity.
    + rewrite Hdone by assumption. rewrite lookup_seq_lt by assumption. reflexivity.
Qed.

Lemma filter_bank_lookup N (v : list F) ac lim a_max n :
  n < N + 1 ->
  map (fun ctr => filter_row ctr v v ac lim a_max) (seq 0 (N + 1)) !! n
  = Some (filter_row n v v ac lim a_max).
Proof. intros Hn. rewrite map_lookup, lookup_seq_lt by assumption. reflexivity. Qed.

(** The compensation curve of lines 226-231 never indexes out of range. *)
Lemma plc_curve_returns N (v : list F) ac lim a_max :
  exists xi,
    plc_curve N v v ac (map (fun ctr => filter_row ctr v v ac lim a_max) (seq 0 (N + 1)))
    = Ok xi.
Proof.
  unfold plc_curve.
  match goal with
  | |- context [for_each ?xs ?body ?st] =>
      destruct (for_each_inv (fun _ (xi : list F) => length xi = length v) xs body st)
        as (xi & E & _)
  end.
  - apply length_replicate.
  - intros i ctr xi Hctr Hxi. apply range_lookup in Hctr as [-> Hi].
    destruct (get_item_ok v i Hi) as (k & Ek & _). rewrite Ek. simpl bind.
    match goal with
    | |- context [for_each ?xs ?body xi] =>
        destruct (for_each_inv (fun _ (x : list F) => length x = length v) xs body xi)
          as (xi1 & E1 & Hxi1)
    end.
    { assumption. }
    { intros j ctrb x Hctrb Hx. apply range_lookup in Hctrb as [-> Hj].
      unfold get_item at 1. rewrite filter_bank_lookup by assumption. simpl bind.
      destruct (get_item_ok (filter_row j v v ac lim a_max) i) as (o & Eo & _).
      { rewrite filter_row_length. assumption. }
      rewrite Eo. simpl bind. eexists. split; [reflexivity |].
      rewrite length_map. assumption. }
    rewrite E1. simpl bind.
    destruct (get_item_ok xi1 i) as (x & Ex & _); [lia |].
    rewrite Ex. simpl bind. rewrite set_item_ok by lia. simpl bind.
    match goal with
    | |- context [get_item (<[i := ?y]> xi1) i] =>
        destruct (get_item_ok (<[i := y]> xi1) i) as (x' & Ex' & _);
          [rewrite length_insert; lia |]
    end.
    rewrite Ex'. simpl bind.
    unfold get_item at 1. rewrite filter_bank_lookup by lia. simpl bind.
    destruct (get_item_ok (filter_row 0 v v ac lim a_max) i) as (o0 & Eo0 & _).
    { rewrite filter_row_length. assumption. }
    rewrite Eo0. simpl bind. rewrite set_item_ok by (rewrite length_insert; lia).
    eexists. split; [reflexivity |]. rewrite !length_insert. lia.
  - exists xi. assumption.
Qed.

(** The beam response of lines 262-268 never indexes out of range. *)
Lemma beam_response_returns N (v : list F) ac lim a_max :
  exists B,
    beam_response N v v ac
      (map (fun ctr => filter_row ctr v v ac lim a_max) (seq 0 (N + 1))) = Ok B
    /\ length B = length v.
Proof.
  unfold beam_response.
  match goal with
  | |- context [for_each ?xs ?body ?st] =>
      destruct (for_each_inv (fun _ (B : list F) => length B = length v) xs body st)
        as (B & E & HB)
  end.
  - apply length_replicate.
  - intros i ctrb B Hctrb HB. apply range_lookup in Hctrb as [-> Hi].
    unfold get_item. rewrite filter_bank_lookup by assumption. simpl bind.
    eexists. split; [reflexivity |].
    unfold vadd, vmul. rewrite !length_zip_with, length_map, length_zip_with.
    rewrite filter_row_length. lia.
  - rewrite E. simpl bind. eexists. split; [reflexivity |].
    rewrite length_map. assumption.
Qed.

(** Lines 208-272 for every [plc] but 1 and 2: the filter bank is returned
    as the loop of lines 211-217 left it. *)
Lemma radFilter_vector_run heap N (v : list F) ac amp_maxdB plc fadeover printInfo
    a_max lim t :
  plc <> 1%Z -> plc <> 2%Z ->
  exists B,
    beam_response N v v ac
      (map (fun ctr => filter_row ctr v v ac lim a_max) (seq 0 (N + 1))) = Ok B
    /\ radFilter_vector heap N v ac amp_maxdB plc fadeover printInfo a_max lim t
       = (t ++ (if plc_guard (length v) plc
                then [Printed "Not enough kr values for PLC fading. PLC disabled."]
                else []),
          Ok (map (fun ctr => filter_row ctr v v ac lim a_max) (seq 0 (N + 1)), B)).
Proof.
  intros Hp1 Hp2.
  destruct (beam_response_returns N v ac lim a_max) as (B & EB & _).
  exists B. split; [assumption |].
  unfold beam_response in EB.
  match type of EB with
  | context [for_each ?xs ?body ?st] => destruct (for_each xs body st) as [B0|] eqn:EB0
  end; simpl in EB; [| discriminate].
  inversion EB; subst B. clear EB.
  destruct (plc_curve_returns N v ac lim a_max) as (xi & Exi).
  unfold radFilter_vector. cbv zeta.
  unfold py_bind at 1. unfold lift at 1. rewrite bn_filters_closed.
  destruct (plc_guard (length v) plc).
  - unfold py_bind, print, emit, lift, py_ret. rewrite Exi. simpl.
    rewrite EB0. reflexivity.
  - rewrite app_nil_r.
    destruct (Z.eqb_spec plc 0) as [-> | Hp0].
    + unfold py_bind, lift, py_ret. rewrite Exi. simpl. rewrite EB0. reflexivity.
    + unfold py_bind, lift, py_ret.
      destruct (Z.eqb_spec plc 0) as [| _]; [contradiction |].
      destruct (Z.eqb_spec plc 1) as [| _]; [contradiction |].
      destruct (Z.eqb_spec plc 2) as [| _]; [contradiction |].
      rewrite EB0. reflexivity.
Qed.

Lemma degenerate_guard_vec_cases (v : list F) :
  degenerate_guard (Vec v)
  = match v with
    | [] => Err (IndexError "index is out of bounds")
    | k0 :: rest =>
        if feqb k0 fzero then
          match rest with
          | [] => Err (IndexError "index is out of bounds")
          | k1 :: _ => Ok (Vec (k1 :: rest))
          end
        else Ok (Vec v)
    end.
Proof.
  destruct v as [|k0 [|k1 rest]]; simpl; try reflexivity;
    destruct (feqb k0 fzero); reflexivity.
Qed.

Lemma radFilter_vec_ok heap N (v v' : list F) ac amp_maxdB plc fadeover printInfo :
  degenerate_guard (Vec v) = Ok (Vec v') ->
  radFilter heap N (Vec v) ac amp_maxdB plc fadeover printInfo
  = let r := radFilter_vector heap N v' ac amp_maxdB plc fadeover printInfo
               (fpow (ofZ 10) (ofQ (inject_Z amp_maxdB / 20)%Q))
               (negb (amp_maxdB =? 0)%Z)
               (if printInfo then [Printed "radFilter - Modal radial filter generator"]
                else []) in
    RadOutcome (Vec v') (fst r) (snd r).
Proof.
  intros G. unfold radFilter. cbv zeta. rewrite G.
  destruct (radFilter_vector _ _ _ _ _ _ _ _ _ _ _). reflexivity.
Qed.

Lemma radFilter_guard_err heap N (kr : ndarray F) ac amp_maxdB plc fadeover printInfo e :
  degenerate_guard kr = Err e ->
  radFilter heap N kr ac amp_maxdB plc fadeover printInfo
  = RadOutcome kr
      (if printInfo then [Printed "radFilter - Modal radial filter generator"] else [])
      (Err e).
Proof. intros G. unfold radFilter. cbv zeta. rewrite G. reflexivity. Qed.

Lemma degenerate_guard_vec_ok (v : list F) :
  (exists k0, v !! 0 = Some k0 /\ (feqb k0 fzero = true -> 2 <= length v))
  <-> exists v', degenerate_guard (Vec v) = Ok (Vec v').
Proof.
  rewrite degenerate_guard_vec_cases. split.
  - intros (k0 & Hk0 & Hlen). destruct v as [|k rest]; [discriminate |].
    simpl in Hk0. inversion Hk0; subst k.
    destruct (feqb k0 fzero).
    + specialize (Hlen eq_refl). destruct rest as [|k1 rest]; [simpl in Hlen; lia |].
      eexists. reflexivity.
    + eexists. reflexivity.
  - intros (v' & G). destruct v as [|k0 rest]; [discriminate |].
    exists k0. split; [reflexivity |]. intros Hz. rewrite Hz in G.
    destruct rest as [|k1 rest]; [discriminate |]. simpl. lia.
Qed.

(** X11.  For a [kr] vector, [radFilter] returns a filter bank and a beam
    response exactly when [kr] has a first bin, a second one too in case the
    first is zero, and [plc] is neither 1 nor 2; every other call raises. *)
Theorem radFilter_returns_iff heap N (v : list F) ac amp_maxdB plc fadeover printInfo :
  (exists OutputArray BeamResponse,
     rad_returned (radFilter heap N (Vec v) ac amp_maxdB plc fadeover printInfo)
     = Ok (OutputArray, BeamResponse))
  <-> (exists k0, v !! 0 = Some k0 /\ (feqb k0 fzero = true -> 2 <= length v))
      /\ plc <> 1%Z /\ plc <> 2%Z.
Proof.
  rewrite degenerate_guard_vec_ok. split.
  - intros (O & B & E).
    destruct (degenerate_guard (Vec v)) as [kr'|e] eqn:G.
    + destruct (degenerate_guard_vec v kr' G) as (v' & ->).
      split; [eauto |].
      rewrite (radFilter_vec_ok _ _ _ _ _ _ _ _ _ G) in E. simpl in E.
      split; intros ->; rewrite radFilter_vector_plc in E by auto; discriminate.
    + rewrite (radFilter_guard_err _ _ _ _ _ _ _ _ _ G) in E. discriminate.
  - intros ((v' & G) & Hp1 & Hp2).
    rewrite (radFilter_vec_ok _ _ _ _ _ _ _ _ _ G). cbv zeta.
    match goal with
    | |- context [radFilter_vector ?h ?n ?w ?a ?am ?p ?f ?pi ?amax ?lim ?t] =>
        destruct (radFilter_vector_run h n w a am p f pi amax lim t Hp1 Hp2)
          as (B & _ & ->)
    end.
    eexists. exists B. reflexivity.
Qed.

(** X12.  Whenever [radFilter] returns, whatever [plc] was: row [n] of the
    filter bank is the (limited) inverse of the array response of order [n]
    at the bins of [kr] as the call left it, nothing of the block [np.empty]
    handed out is in it, no compensation has been applied to order 0, and
    the beam response is the one of that bank, one value per bin. *)
Theorem radFilter_returns_plain_bank
    heap N (v v' : list F) ac amp_maxdB plc fadeover printInfo OutputArray BeamResponse :
  kr_after (radFilter heap N (Vec v) ac amp_maxdB plc fadeover printInfo) = Vec v' ->
  rad_returned (radFilter heap N (Vec v) ac amp_maxdB plc fadeover printInfo)
  = Ok (OutputArray, BeamResponse) ->
  OutputArray
  = map (fun n => filter_row n v' v' ac (negb (amp_maxdB =? 0)%Z)
                    (fpow (ofZ 10) (ofQ (inject_Z amp_maxdB / 20)%Q)))
        (seq 0 (N + 1))
  /\ Forall (fun row => length row = length v') OutputArray
  /\ beam_response N v' v' ac OutputArray = Ok BeamResponse
  /\ length BeamResponse = length v'.
Proof.
  intros Hkr E.
  destruct (degenerate_guard (Vec v)) as [kr'|e] eqn:G.
  2: { rewrite (radFilter_guard_err _ _ _ _ _ _ _ _ _ G) in E. discriminate. }
  destruct (degenerate_guard_vec v kr' G) as (w & ->).
  rewrite (radFilter_vec_ok _ _ _ _ _ _ _ _ _ G) in Hkr, E. simpl in Hkr, E.
  inversion Hkr; subst w. clear Hkr.
  assert (Hp : plc <> 1%Z /\ plc <> 2%Z).
  { split; intros ->; rewrite radFilter_vector_plc in E by auto; discriminate. }
  destruct Hp as [Hp1 Hp2].
  match type of E with
  | context [radFilter_vector ?h ?n ?w ?a ?am ?p ?f ?pi ?amax ?lim ?t] =>
      destruct (radFilter_vector_run h n w a am p f pi amax lim t Hp1 Hp2)
        as (B & EB & Erun)
  end.
  rewrite Erun in E. simpl in E. inversion E; subst OutputArray BeamResponse.
  split; [reflexivity |]. split; [| split; [assumption |]].
  - apply Forall_forall. intros row Hrow.
    apply list_elem_of_In, in_map_iff in Hrow as (n & <- & _).
    apply filter_row_length.
  - match type of EB with
    | context [filter_row _ _ _ _ ?lim ?amax] =>
        destruct (beam_response_returns N v' ac lim amax) as (B' & EB' & Hlen)
    end.
    rewrite EB in EB'. inversion EB'; subst B'. assumption.
Qed.

(** X13.  [radFilter] prints that the compensation is disabled exactly
    when [kr] gets past the guard on its first bin, has fewer than 32 bins,
    and bit 5 of [plc] is set (32, 33, ...). *)
Theorem radFilter_plc_diagnostic heap N (v : list F) ac amp_maxdB plc fadeover printInfo :
  In (Printed "Not enough kr values for PLC fading. PLC disabled.")
     (rad_trace (radFilter heap N (Vec v) ac amp_maxdB plc fadeover printInfo))
  <-> (exists k0, v !! 0 = Some k0 /\ (feqb k0 fzero = true -> 2 <= length v))
      /\ length v < 32 /\ Z.testbit plc 5 = true.
Proof.
  rewrite degenerate_guard_vec_ok.
  assert (Hbanner : ~ In (Printed "Not enough kr values for PLC fading. PLC disabled.")
                        (if printInfo
                         then [Printed "radFilter - Modal radial filter generator"]
                         else [])).
  { destruct printInfo; simpl; [intros [E | []]; discriminate | intros []]. }
  destruct (degenerate_guard (Vec v)) as [kr'|e] eqn:G.
  - destruct (degenerate_guard_vec v kr' G) as (v' & ->).
    assert (Hlen : length v' = length v).
    { rewrite degenerate_guard_vec_cases in G.
      destruct v as [|k0 rest]; [discriminate |].
      destruct (feqb k0 fzero).
      - destruct rest as [|k1 rest]; [discriminate |]. inversion G. reflexivity.
      - inversion G. reflexivity. }
    rewrite (radFilter_vec_ok _ _ _ _ _ _ _ _ _ G). cbv zeta. simpl rad_trace.
    rewrite <- Hlen, <- plc_guard_spec.
    destruct (decide (plc = 1%Z \/ plc = 2%Z)) as [Hplc | Hplc].
    + rewrite radFilter_vector_plc by assumption. simpl fst.
      split; [intros Hin; contradiction |].
      intros (_ & Hg). apply plc_guard_spec in Hg as [_ Hbit].
      destruct Hplc as [-> | ->]; discriminate.
    + match goal with
      | |- context [radFilter_vector ?h ?n ?w ?a ?am ?p ?f ?pi ?amax ?lim ?t] =>
          destruct (radFilter_vector_run h n w a am p f pi amax lim t)
            as (B & _ & ->); [tauto | tauto |]
      end.
      simpl fst. rewrite in_app_iff.
      destruct (plc_guard (length v') plc); simpl.
      * split; [intros _; split; [eauto | reflexivity] | intros _; right; left; reflexivity].
      * split; [intros [Hin | []]; contradiction | intros (_ & Hf); discriminate].
  - rewrite (radFilter_guard_err _ _ _ _ _ _ _ _ _ G). simpl rad_trace.
    split; [intros Hin; contradiction |].
    intros ((v' & Hv') & _). discriminate.
Qed.
End RadFilterRuns.

Section RadFilterExact.
Import Exact.
Context `{External R}.
Open Scope R_scope.

(** One step of the beam loop on the bins of an unlimited filter row: the
    order's share is [2 n + 1] at every bin. *)
Lemma beam_step (g : R -> R -> R) (b c : R) (l : list R) :
  Forall (fun k => g k k <> 0) l ->
  vadd (map (fun _ => b) l)
    (vmul (map (fmul c) (zip_with g l l))
       (vdiv (map (fun _ => ofZ 1) (zip_with g l l)) (zip_with g l l)))
  = map (fun _ => b + c) l.
Proof.
  induction 1 as [|k l Hk _ IH]; [reflexivity |].
  cbn [map zip_with vadd vmul vdiv] in *. f_equal; [| exact IH].
  simpl. field. assumption.
Qed.

Lemma map_const_replicate {A B : Type} (b : B) (l : list A) :
  map (fun _ => b) l = replicate (length l) b.
Proof. induction l as [|x l IH]; simpl; [reflexivity | rewrite IH; reflexivity]. Qed.

Lemma beam_response_unit N (v : list R) ac a_max :
  (forall n k, (n <= N)%nat -> In k v -> array_extrapolation_kr n k k ac <> 0) ->
  beam_response N v v ac
    (map (fun ctr => filter_row ctr v v ac false a_max) (seq 0 (N + 1)))
  = Ok (replicate (length v) 1).
Proof.
  intros Hnz. unfold beam_response.
  match goal with
  | |- context [for_each ?xs ?body ?st] =>
      destruct (for_each_inv
                  (fun i (B : list R) => B = map (fun _ => INR i * INR i) v)
                  xs body st) as (B & E & HB)
  end.
  - unfold np_zeros. rewrite map_const_replicate. simpl. f_equal. lra.
  - intros i ctrb B Hctrb HB. apply range_lookup in Hctrb as [-> Hi].
    unfold get_item. rewrite filter_bank_lookup by assumption. simpl bind.
    eexists. split; [reflexivity |]. subst B.
    unfold filter_row. cbv zeta.
    rewrite (beam_step (fun m s => array_extrapolation_kr i m s ac)).
    + apply map_ext. intros _. rewrite S_INR.
      change (@ofZ R scalar) with IZR.
      rewrite plus_IZR, mult_IZR, <- INR_IZR_INZ. lra.
    + apply Forall_forall. intros k Hk. apply Hnz; [lia |].
      apply list_elem_of_In. assumption.
  - rewrite E. simpl bind. f_equal. rewrite range_length in HB. subst B.
    rewrite map_map, map_const_replicate. f_equal.
    change (@ofZ R scalar) with IZR. change (@fdiv R scalar) with Rdiv.
    replace (IZR ((Z.of_nat N + 1) ^ 2)) with (INR (N + 1) * INR (N + 1)).
    + field. apply not_0_INR. lia.
    + rewrite !INR_IZR_INZ, <- mult_IZR. f_equal. lia.
Qed.

(** X14.  In exact arithmetic, with array responses none of which is zero:
    without the limiter ([amp_maxdB] 0), [radFilter] returns a beam response
    that is 1 at every bin. *)
Theorem radFilter_unit_beam heap N (v v' : list R) ac plc fadeover printInfo :
  degenerate_guard (Vec v) = Ok (Vec v') ->
  plc <> 1%Z -> plc <> 2%Z ->
  (forall n k, (n <= N)%nat -> In k v' -> array_extrapolation_kr n k k ac <> 0) ->
  exists OutputArray,
    rad_returned (radFilter heap N (Vec v) ac 0 plc fadeover printInfo)
    = Ok (OutputArray, replicate (length v') 1).
Proof.
  intros G Hp1 Hp2 Hnz.
  rewrite (radFilter_vec_ok _ _ _ _ _ _ _ _ _ G). cbv zeta.
  match goal with
  | |- context [radFilter_vector ?h ?n ?w ?a ?am ?p ?f ?pi ?amax ?lim ?t] =>
      destruct (radFilter_vector_run h n w a am p f pi amax lim t Hp1 Hp2)
        as (B & EB & ->)
  end.
  change (negb (0 =? 0)%Z) with false in EB.
  rewrite beam_response_unit in EB by assumption. inversion EB.
  eexists. reflexivity.
Qed.

(** Line 216: the soft limiter keeps the magnitude of a filter entry below
    [a_max]. *)
Lemma soft_limit_bound (a_max bnval : R) :
  0 < a_max -> bnval <> 0 -> Rabs (soft_limit a_max bnval / bnval) < a_max.
Proof.
  intros Ha Hb. unfold soft_limit. simpl.
  pose proof PI_RGT_0 as Hpi.
  assert (Hab : 0 < Rabs bnval) by (apply Rabs_pos_lt; assumption).
  set (A := atan (PI / (2 * a_max * Rabs bnval))).
  assert (HA : Rabs A < PI / 2).
  { apply Rabs_def1; [apply atan_bound | ].
    replace (- (PI / 2)) with (- PI / 2) by lra. apply atan_bound. }
  unfold Rdiv at 1. rewrite Rabs_mult, Rabs_inv.
  rewrite !Rabs_mult, Rabs_Rabsolu.
  rewrite (Rabs_right (2 * a_max / PI)).
  2: { apply Rle_ge. apply Rlt_le. apply Rdiv_lt_0_compat; lra. }
  replace (2 * a_max / PI * Rabs bnval * Rabs A * / Rabs bnval)
    with (2 * a_max / PI * Rabs A) by (field; split; lra).
  apply (Rlt_le_trans _ (2 * a_max / PI * (PI / 2))).
  - apply Rmult_lt_compat_l; [apply Rdiv_lt_0_compat; lra | assumption].
  - right. field. lra.
Qed.

(** X15.  In exact arithmetic, with real array responses none of which is
    zero: when the limiter is on ([amp_maxdB] not 0), every entry of the
    filter bank [radFilter] returns is smaller in magnitude than
    [10^(amp_maxdB / 20)]. *)
Theorem radFilter_limiter_bound heap N (v v' : list R) ac amp_maxdB plc fadeover printInfo :
  amp_maxdB <> 0%Z ->
  degenerate_guard (Vec v) = Ok (Vec v') ->
  plc <> 1%Z -> plc <> 2%Z ->
  (forall n k, (n <= N)%nat -> In k v' -> array_extrapolation_kr n k k ac <> 0) ->
  exists OutputArray BeamResponse,
    rad_returned (radFilter heap N (Vec v) ac amp_maxdB plc fadeover printInfo)
    = Ok (OutputArray, BeamResponse)
    /\ Forall (Forall (fun d => Rabs d < Rpower 10 (Q2R (inject_Z amp_maxdB / 20))))
         OutputArray.
Proof.
  intros Hamp G Hp1 Hp2 Hnz.
  rewrite (radFilter_vec_ok _ _ _ _ _ _ _ _ _ G). cbv zeta.
  match goal with
  | |- context [radFilter_vector ?h ?n ?w ?a ?am ?p ?f ?pi ?amax ?lim ?t] =>
      destruct (radFilter_vector_run h n w a am p f pi amax lim t Hp1 Hp2)
        as (B & _ & ->)
  end.
  eexists. exists B. split; [reflexivity |].
  apply Forall_forall. intros row Hrow.
  apply list_elem_of_In, in_map_iff in Hrow as (n & <- & Hn).
  apply in_seq in Hn.
  destruct (Z.eqb_spec amp_maxdB 0) as [| _]; [contradiction |]. simpl negb.
  unfold filter_row. cbv zeta.
  apply Forall_forall. intros d Hd.
  unfold vdiv in Hd.
  apply elem_of_lookup_zip_with in Hd as (i & s & b & -> & Hs & Hb).
  rewrite map_lookup, Hb in Hs. inversion Hs; subst s.
  apply lookup_zip_with_Some in Hb as (k1 & k2 & -> & Hk1 & Hk2).
  rewrite Hk1 in Hk2. inversion Hk2; subst k2.
  apply soft_limit_bound.
  - apply exp_pos.
  - apply Hnz; [lia |]. apply list_elem_of_In. eapply list_elem_of_lookup_2. exact Hk1.
Qed.
End RadFilterExact.

(** ** sampledWave: the calls of ideal_wave *)

Lemma calls_nothing_lift {A : Type} (r : result A) : calls_nothing (lift r).
Proof. intros t. exists []. split; [symmetry; apply app_nil_r | constructor]. Qed.

Lemma calls_nothing_ret {A : Type} (a : A) : calls_nothing (py_ret a).
Proof. intros t. exists []. split; [symmetry; apply app_nil_r | constructor]. Qed.

Lemma calls_nothing_raise {A : Type} (e : exn) : calls_nothing (@raise A e).
Proof. intros t. exists []. split; [symmetry; apply app_nil_r | constructor]. Qed.

Lemma calls_nothing_emit (e : event) :
  is_ideal_wave_call e = false -> calls_nothing (emit e).
Proof. intros He t. exists [e]. split; [reflexivity | repeat constructor; assumption]. Qed.

Lemma calls_nothing_when (b : bool) (line : string) :
  calls_nothing (when b (print line)).
Proof.
  destruct b; [apply calls_nothing_emit; reflexivity | apply calls_nothing_ret].
Qed.

Lemma calls_nothing_bind {A B : Type} (m : py A) (k : A -> py B) :
  calls_nothing m -> (forall a, calls_nothing (k a)) -> calls_nothing (py_bind m k).
Proof.
  intros Hm Hk t. unfold py_bind.
  destruct (Hm t) as (p1 & E1 & H1).
  destruct (m t) as [t1 [a|e]]; simpl in E1; subst t1.
  - destruct (Hk a (t ++ p1)) as (p2 & E2 & H2).
    exists (p1 ++ p2). rewrite E2, app_assoc. split; [reflexivity |].
    apply Forall_app. split; assumption.
  - exists p1. split; [reflexivity | assumption].
Qed.

Lemma stops_of_calls_nothing {A : Type} (e : exn) (m : py A) :
  calls_nothing m -> stops_at_first_call e m.
Proof.
  intros Hm t. destruct (Hm t) as (p & E & Hp).
  exists p, []. rewrite app_nil_r. auto.
Qed.

Lemma stops_bind {A B : Type} (e : exn) (m : py A) (k : A -> py B) :
  calls_nothing m -> (forall a, stops_at_first_call e (k a)) ->
  stops_at_first_call e (py_bind m k).
Proof.
  intros Hm Hk t. unfold py_bind.
  destruct (Hm t) as (p1 & E1 & H1).
  destruct (m t) as [t1 [a|e']]; simpl in E1; subst t1.
  - destruct (Hk a (t ++ p1)) as (p2 & calls & E2 & H2 & Hcalls).
    exists (p1 ++ p2), calls. rewrite E2, <- !app_assoc. split; [reflexivity |].
    split; [apply Forall_app; split; assumption | assumption].
  - exists p1, []. rewrite app_nil_r. simpl. auto.
Qed.

(** A computation that stops at its first call and always fails, followed by
    anything. *)
Lemma stops_bind_fails {A B : Type} (e : exn) (m : py A) (k : A -> py B) :
  stops_at_first_call e m -> (forall t, fails (m t)) ->
  stops_at_first_call e (py_bind m k).
Proof.
  intros Hm Hf t. unfold py_bind.
  destruct (Hm t) as (p & calls & E & Hp & Hcalls).
  destruct (Hf t) as (e' & He').
  destruct (m t) as [t1 [a|e'']]; simpl in *; [discriminate |].
  exists p, calls. split; [assumption |]. split; [assumption |].
  destruct Hcalls as [-> | (order & lo & hi & -> & Ee)]; [left; reflexivity |].
  right. exists order, lo, hi. split; [reflexivity |]. inversion Ee. reflexivity.
Qed.

Section SampledWaveCalls.
Context {F : Type} `{Scalar F} `{RealFun F} `{ComplexFun F} `{External F}.

Lemma lebedev_calls_nothing degree printInfo :
  calls_nothing (lebedev degree printInfo).
Proof.
  unfold lebedev. apply calls_nothing_bind; [apply calls_nothing_when |].
  intros _. destruct (negb _); [apply calls_nothing_raise |].
  unfold lebedev_grid.
  repeat (apply calls_nothing_bind; [apply calls_nothing_lift | intros ?]).
  apply calls_nothing_ret.
Qed.

(** X24.  In every run of [sampledWave], [ideal_wave] is called at most
    once, and a run that calls it ends at that call, with the [TypeError]
    about the keyword argument [ds]: no second segment is ever
    generated. *)
Theorem sampledWave_stops_at_first_call
    heap r gridData ac FS NFFT AZ EL c wavetype ds Nlim printInfo t :
  exists before calls,
    fst (sampledWave heap r gridData ac FS NFFT AZ EL c wavetype ds Nlim printInfo t)
    = t ++ before ++ calls
    /\ Forall (fun e => is_ideal_wave_call e = false) before
    /\ (calls = []
        \/ exists order lo hi,
             calls = [IdealWaveCall order lo hi]
             /\ snd (sampledWave heap r gridData ac FS NFFT AZ EL c wavetype ds Nlim
                       printInfo t)
                = Err (TypeError "ideal_wave() got an unexpected keyword argument 'ds'")).
Proof.
  revert t.
  change (stops_at_first_call
            (TypeError "ideal_wave() got an unexpected keyword argument 'ds'")
            (sampledWave heap r gridData ac FS NFFT AZ EL c wavetype ds Nlim printInfo)).
  unfold sampledWave.
  apply stops_bind.
  { destruct gridData; [apply calls_nothing_ret |].
    apply calls_nothing_bind; [apply lebedev_calls_nothing |].
    intros g. apply calls_nothing_ret. }
  intros g. apply stops_bind; [apply calls_nothing_lift |].
  intros [kr krRef]. apply stops_bind; [apply calls_nothing_lift |].
  intros maxReqOrder. apply stops_bind; [apply calls_nothing_lift |].
  intros Ng. apply stops_bind.
  { destruct (_ >? _)%Z; [apply calls_nothing_emit; reflexivity |].
    destruct (_ =? _)%Z; apply calls_nothing_when. }
  intros _.
  match goal with
  | |- stops_at_first_call _ (py_bind (py_for_each (imap ?f ?orders) ?body ?st) ?k) =>
      destruct orders as [|o rest]
  end.
  - apply stops_of_calls_nothing.
    apply calls_nothing_bind; [apply calls_nothing_ret |].
    intros Pnm. apply calls_nothing_ret.
  - simpl imap. simpl py_for_each.
    match goal with
    | |- stops_at_first_call ?e (py_bind (py_bind ?first ?more) ?k) =>
        assert (Hfirst : stops_at_first_call e first /\ forall t, fails (first t))
    end.
    { split.
      - apply stops_bind; [apply calls_nothing_emit; reflexivity |].
        intros _. apply stops_bind; [apply calls_nothing_lift |].
        intros lo. apply stops_bind; [apply calls_nothing_lift |].
        intros hi t. exists [], [IdealWaveCall o (Z.of_nat lo) (Z.of_nat hi)].
        split; [reflexivity |]. split; [constructor |].
        right. exists o, (Z.of_nat lo), (Z.of_nat hi). split; reflexivity.
      - intros t.
        apply py_bind_fails. intros _u1 t7 _.
        apply py_bind_fails. intros lo t8 _.
        apply py_bind_fails. intros hi t9 _.
        apply py_bind_fails. intros _u2 t10 _.
        apply py_bind_fails. intros _u3 t11 Hbind.
        unfold lift in Hbind. rewrite sampledWave_call_does_not_bind in Hbind.
        discriminate. }
    destruct Hfirst as [Hstops Hfails].
    apply stops_bind_fails.
    + apply stops_bind_fails; assumption.
    + intros t. apply py_bind_fails. intros a t' E.
      destruct (Hfails t) as (e' & He'). rewrite E in He'. discriminate.
Qed.
End SampledWaveCalls.

(** ** whiteNoise and spherical_noise *)

Lemma traverse_map {X Y : Type} (f : X -> result Y) (g : X -> Y) (xs : list X) :
  Forall (fun x => f x = Ok (g x)) xs -> traverse f xs = Ok (map g xs).
Proof.
  induction 1 as [|x xs Hx _ IH]; simpl; [reflexivity |].
  rewrite Hx. simpl. rewrite IH. reflexivity.
Qed.

Lemma traverse_fails {X Y : Type} (f : X -> result Y) (P : exn -> Prop) (xs : list X) :
  (forall x e, f x = Err e -> P e) ->
  Exists (fun x => exists e, f x = Err e) xs ->
  exists e, traverse f xs = Err e /\ P e.
Proof.
  intros HP. induction 1 as [x xs (e & He) | x xs _ (e & He & Pe)]; simpl.
  - rewrite He. simpl. exists e. split; [reflexivity | eapply HP; exact He].
  - destruct (f x) as [y|e'] eqn:Ex; simpl.
    + rewrite He. simpl. exists e. split; [reflexivity | assumption].
    + exists e'. split; [reflexivity | eapply HP; exact Ex].
Qed.

Section NoiseFacts.
Context {F : Type} `{Scalar F} `{RealFun F} `{ComplexFun F} `{Spectral F}.

Lemma np_random_rand_returns (draw : nat -> nat -> F) (rows : nat) (cols : Z) :
  (0 <= cols)%Z ->
  exists raw,
    np_random_rand draw rows cols = Ok raw
    /\ length raw = rows
    /\ Forall (fun row => length row = Z.to_nat cols) raw.
Proof.
  intros Hc. unfold np_random_rand.
  destruct (Z.ltb_spec cols 0); [lia |].
  eexists. split; [reflexivity |]. split.
  - rewrite length_map, length_seq. reflexivity.
  - apply Forall_forall. intros row Hrow.
    apply list_elem_of_In, in_map_iff in Hrow as (i & <- & _).
    rewrite length_map, length_seq. reflexivity.
Qed.

Lemma scale_noise_shape (d : F) (raw : list (list F)) (n : nat) :
  Forall (fun row => length row = n) raw ->
  length (scale_noise d raw) = length raw
  /\ Forall (fun row => length row = n) (scale_noise d raw).
Proof.
  intros Hraw. unfold scale_noise. cbv zeta. split; [apply length_map |].
  apply Forall_forall. intros row Hrow.
  apply list_elem_of_In, in_map_iff in Hrow as (row0 & <- & Hrow0).
  rewrite length_map. apply list_elem_of_In in Hrow0.
  exact (proj1 (Forall_forall _ _) Hraw row0 Hrow0).
Qed.

Lemma add_matrices_same_shape (a b : list (list F)) (n : nat) :
  Forall (fun row => length row = n) a ->
  Forall (fun row => length row = n) b ->
  add_matrices a b = Ok (zip_with vadd a b).
Proof.
  intros Ha Hb. unfold add_matrices.
  rewrite (traverse_map _ (fun uv => vadd (fst uv) (snd uv))).
  - f_equal. clear Ha Hb. revert b.
    induction a as [|u a IH]; intros [|v b]; simpl; try reflexivity.
    rewrite IH. reflexivity.
  - apply Forall_forall. intros [u v] Huv.
    apply elem_of_lookup_zip_with in Huv as (i & u' & v' & Heq & Hu & Hv).
    inversion Heq; subst u' v'. simpl. unfold add_rows.
    pose proof (Forall_lookup_1 _ _ _ _ Ha Hu) as Hlu.
    pose proof (Forall_lookup_1 _ _ _ _ Hb Hv) as Hlv. simpl in Hlu, Hlv.
    destruct (decide (length u = length v)); [reflexivity | lia].
Qed.

Lemma ncols_uniform (a : list (list F)) (n : nat) :
  a <> [] -> Forall (fun row => length row = n) a -> ncols a = n.
Proof.
  intros Hne Ha. destruct Ha as [|row a Hrow _]; [congruence | exact Hrow].
Qed.

(** X17.  For a block of at least two bins per channel, [whiteNoise]
    returns a block of the same channels and bins: the input, row by row,
    plus the spectrum of that row's scaled noise ([2 * bins - 2] samples per
    channel).  A one-dimensional input counts as one channel.  ([rfft] is
    taken to return [n // 2 + 1] bins for [n] samples.) *)
Theorem whiteNoise_shape draw fftData noiseLevel printInfo t (bins : nat) :
  rfft_returns ->
  atleast_2d fftData <> [] ->
  Forall (fun row => length row = bins) (atleast_2d fftData) ->
  2 <= bins ->
  exists nNoise noisyData,
    noise_block draw (length (atleast_2d fftData)) (Z.of_nat bins * 2 - 2) noiseLevel
    = Ok nNoise
    /\ whiteNoise draw fftData noiseLevel printInfo t
       = (t ++ (if printInfo then [Printed "Additive White Gaussian Noise Generator"]
                else []),
          Ok noisyData)
    /\ noisyData = zip_with vadd (atleast_2d fftData) (map np_rfft nNoise)
    /\ length noisyData = length (atleast_2d fftData)
    /\ Forall (fun row => length row = bins) noisyData.
Proof.
  intros Hfft Hne Hrows Hbins.
  set (a := atleast_2d fftData) in *.
  set (NFFT := (Z.of_nat bins * 2 - 2)%Z).
  destruct (np_random_rand_returns draw (length a) NFFT) as (raw & Eraw & Hlen & Hraw);
    [lia |].
  set (d := fpow (ofZ 10) (ofQ (inject_Z noiseLevel / 20)%Q)).
  destruct (scale_noise_shape d raw (Z.to_nat NFFT) Hraw) as [Hslen Hsrows].
  assert (Hspec : Forall (fun row => length row = bins) (map np_rfft (scale_noise d raw))).
  { apply Forall_forall. intros row Hrow.
    apply list_elem_of_In, in_map_iff in Hrow as (row0 & <- & Hrow0).
    apply list_elem_of_In in Hrow0.
    pose proof (proj1 (Forall_forall _ _) Hsrows row0 Hrow0) as Hlen0. simpl in Hlen0.
    rewrite Hfft by (intros ->; simpl in Hlen0; lia).
    rewrite Hlen0.
    subst NFFT. replace (Z.to_nat (Z.of_nat bins * 2 - 2)) with ((bins - 1) * 2) by lia.
    rewrite Nat.div_mul by lia. lia. }
  exists (scale_noise d raw), (zip_with vadd a (map np_rfft (scale_noise d raw))).
  split; [unfold noise_block; cbv zeta; fold NFFT; rewrite Eraw; reflexivity |].
  split; [| split; [reflexivity | split]].
  - unfold whiteNoise. cbv zeta. fold a.
    rewrite (ncols_uniform a bins Hne Hrows). fold NFFT.
    unfold noise_block. cbv zeta. rewrite Eraw. simpl bind. fold d.
    unfold np_fft_rfft.
    destruct (Nat.eqb_spec (Z.to_nat NFFT) 0) as [E0 | _]; [lia |].
    pose proof (add_matrices_same_shape a _ bins Hrows Hspec) as Eadd.
    destruct printInfo; unfold when, print, emit, py_bind, lift, py_ret;
      rewrite Eadd; [reflexivity | rewrite app_nil_r; reflexivity].
  - rewrite length_zip_with, length_map, Hslen, Hlen. lia.
  - apply Forall_forall. intros row Hrow.
    apply elem_of_lookup_zip_with in Hrow as (i & u & v & -> & Hu & Hv).
    unfold vadd. rewrite length_zip_with.
    rewrite (Forall_lookup_1 _ _ _ _ Hrows Hu), (Forall_lookup_1 _ _ _ _ Hspec Hv). lia.
Qed.

(** X18.  A block of at least one channel with fewer than two bins per
    channel is rejected: with one bin there is no sample to transform, with
    none the sample count is negative; both are [ValueError]s of numpy. *)
Theorem whiteNoise_needs_two_bins draw fftData noiseLevel printInfo t :
  atleast_2d fftData <> [] ->
  ncols (atleast_2d fftData) < 2 ->
  exists msg,
    snd (whiteNoise draw fftData noiseLevel printInfo t) = Err (ValueError msg).
Proof.
  intros _ Hbins. unfold whiteNoise. cbv zeta.
  set (a := atleast_2d fftData) in *.
  assert (Hcases : ncols a = 0 \/ ncols a = 1) by lia.
  assert (Hrun : forall t',
             exists msg,
               snd ((nNoise <~ lift (noise_block draw (length a)
                                       (Z.of_nat (ncols a) * 2 - 2) noiseLevel) ;;
                     nNoiseSpectrum <~ lift (np_fft_rfft
                                               (Z.to_nat (Z.of_nat (ncols a) * 2 - 2))
                                               nNoise) ;;
                     lift (add_matrices a nNoiseSpectrum)) t')
               = Err (ValueError msg)).
  { intros t'. destruct Hcases as [-> | ->]; eexists; reflexivity. }
  destruct printInfo; unfold when, print, emit; unfold py_bind at 1.
  - apply Hrun.
  - unfold py_ret at 1. apply Hrun.
Qed.

(** X20.  With a basis of at least one row supplied, [spherical_noise]
    returns one value per row of the basis when every row has
    [(order_max + 1)^2] entries, and raises [ValueError] when some row has
    not. *)
Theorem spherical_noise_shape randn_re randn_im az col order_max
    (bases : list (list F)) :
  (bases <> [] ->
   Forall (fun row => length row = Z.to_nat ((order_max + 1) ^ 2)) bases ->
   exists w,
     spherical_noise randn_re randn_im az col order_max (Some bases) = Ok w
     /\ length w = length bases)
  /\ (Exists (fun row => length row <> Z.to_nat ((order_max + 1) ^ 2)) bases ->
      exists msg,
        spherical_noise randn_re randn_im az col order_max (Some bases)
        = Err (ValueError msg)).
Proof.
  unfold spherical_noise. cbv zeta.
  set (n := Z.to_nat ((order_max + 1) ^ 2)).
  set (weights := vadd (map randn_re (seq 0 n))
                    (map (fun i => fmul fimag (randn_im i)) (seq 0 n))).
  assert (Hw : length weights = n).
  { subst weights. unfold vadd. rewrite length_zip_with, !length_map, length_seq. lia. }
  split.
  - intros _ Hrows. unfold np_inner.
    rewrite (traverse_map _ (fun row => vsum (vmul row weights))).
    + eexists. split; [reflexivity | apply length_map].
    + eapply Forall_impl; [exact Hrows |]. intros row Hrow. simpl in *.
      destruct (decide (length row = length weights)); [reflexivity | lia].
  - intros Hbad. unfold np_inner.
    match goal with
    | |- context [traverse ?f bases] =>
        destruct (traverse_fails f (fun e => exists msg, e = ValueError msg) bases)
          as (e & -> & msg & ->)
    end.
    + intros row e. destruct (decide _); intros E; inversion E. eauto.
    + eapply Exists_impl; [exact Hbad |]. intros row Hrow. simpl in *.
      destruct (decide (length row = length weights)); [lia |]. eauto.
    + eauto.
Qed.
End NoiseFacts.

Section NoiseExact.
Import Exact.
Open Scope R_scope.

Lemma vsum_abs_nonneg (l : list R) : 0 <= vsum (map Rabs l).
Proof.
  induction l as [|x l IH]; [cbn [map]; rewrite vsum_nil; lra |].
  cbn [map]. rewrite vsum_cons. pose proof (Rabs_pos x). lra.
Qed.

Lemma vsum_abs_scaled (d m : R) (l : list R) :
  0 <= d -> 0 < m ->
  vsum (map Rabs (map (fun x => fdiv (fmul d x) m) l)) = d / m * vsum (map Rabs l).
Proof.
  intros Hd Hm. induction l as [|x l IH].
  - cbn [map]. rewrite vsum_nil. lra.
  - cbn [map]. rewrite !vsum_cons, IH. simpl.
    unfold Rdiv. rewrite !Rabs_mult, Rabs_inv.
    rewrite (Rabs_right d) by lra. rewrite (Rabs_right m) by lra. lra.
Qed.

Lemma mean_abs_scaled (d : R) (L : list R) :
  0 < d ->
  vsum (map Rabs L) / IZR (Z.of_nat (length L)) <> 0 ->
  vsum (map Rabs
          (map (fun x => fdiv (fmul d x)
                           (vsum (map Rabs L) / IZR (Z.of_nat (length L)))) L))
  / IZR (Z.of_nat (length L)) = d.
Proof.
  intros Hd Hm.
  assert (Hcount : (0 < length L)%nat).
  { destruct L as [|x L]; [| simpl; lia]. exfalso. apply Hm.
    cbn [map]. rewrite vsum_nil. unfold Rdiv. apply Rmult_0_l. }
  assert (Hc : 0 < IZR (Z.of_nat (length L))) by (apply IZR_lt; lia).
  pose proof (vsum_abs_nonneg L) as Hs.
  assert (Hs' : vsum (map Rabs L) <> 0).
  { intros Hz. apply Hm. rewrite Hz. unfold Rdiv. apply Rmult_0_l. }
  assert (Hmpos : 0 < vsum (map Rabs L) / IZR (Z.of_nat (length L))).
  { apply Rdiv_lt_0_compat; lra. }
  rewrite vsum_abs_scaled by lra.
  field. split; lra.
Qed.

(** X19.  In exact arithmetic the noise [whiteNoise] builds in the time
    domain has mean absolute amplitude [10^(noiseLevel / 20)], whatever the
    generator drew, as long as the drawn samples are not all zero. *)
Theorem whiteNoise_mean_amplitude (draw : nat -> nat -> R) (channels : nat)
    (NFFT noiseLevel : Z) (raw : list (list R)) :
  np_random_rand draw channels NFFT = Ok raw ->
  np_mean (map (map fabs) raw) <> 0 ->
  exists nNoise,
    noise_block draw channels NFFT noiseLevel = Ok nNoise
    /\ np_mean (map (map fabs) nNoise) = Rpower 10 (Q2R (inject_Z noiseLevel / 20)).
Proof.
  intros Eraw Hm. unfold noise_block. cbv zeta. rewrite Eraw. simpl bind.
  eexists. split; [reflexivity |].
  unfold scale_noise. cbv zeta.
  unfold np_mean in *.
  rewrite <- !concat_map in *. rewrite !length_map in *.
  change (@fabs R realfun) with Rabs in *.
  change (@fdiv R scalar (vsum (map Rabs (concat raw)))
            (@ofZ R scalar (Z.of_nat (length (concat raw)))))
    with (vsum (map Rabs (concat raw)) / IZR (Z.of_nat (length (concat raw)))) in *.
  apply (mean_abs_scaled (Rpower 10 (Q2R (inject_Z noiseLevel / 20))) (concat raw)).
  - apply exp_pos.
  - exact Hm.
Qed.
End NoiseExact.

(** ** setup.py *)

Lemma split_from_spaces (tok trail : list ascii) :
  Forall (fun c => is_space c = true) trail ->
  split_from tok trail = match tok with [] => [] | _ => [tok] end.
Proof.
  intros Htrail. revert tok.
  induction Htrail as [|c trail Hc _ IH]; intros tok; simpl; [reflexivity |].
  rewrite Hc, (IH []). destruct tok; reflexivity.
Qed.

Lemma split_from_word (tok w trail : list ascii) :
  Forall (fun c => is_space c = false) w ->
  Forall (fun c => is_space c = true) trail ->
  tok ++ w <> [] ->
  split_from tok (w ++ trail) = [tok ++ w].
Proof.
  intros Hw Htrail. revert tok.
  induction Hw as [|c w Hc _ IH]; intros tok Hne.
  - rewrite app_nil_r in *. simpl. rewrite split_from_spaces by assumption.
    destruct tok; [congruence | reflexivity].
  - simpl. rewrite Hc. rewrite IH.
    + rewrite <- app_assoc. reflexivity.
    + rewrite <- app_assoc. simpl. destruct tok; discriminate.
Qed.

Lemma split_from_app_space (tok a b : list ascii) (c : ascii) :
  is_space c = true ->
  split_from tok (a ++ c :: b) = split_from tok a ++ split_from [] b.
Proof.
  intros Hc. revert tok. induction a as [|x a IH]; intros tok; simpl.
  - rewrite Hc. destruct tok; reflexivity.
  - destruct (is_space x).
    + destruct tok; [apply IH | simpl; f_equal; apply IH].
    + apply IH.
Qed.

Lemma split_from_words (tok s : list ascii) :
  Forall (fun c => is_space c = false) tok ->
  Forall (fun w => w <> [] /\ Forall (fun c => is_space c = false) w)
    (split_from tok s).
Proof.
  revert tok. induction s as [|c s IH]; intros tok Htok; simpl.
  - destruct tok; [constructor |]. constructor; [| constructor].
    split; [discriminate | assumption].
  - destruct (is_space c) eqn:Hc.
    + destruct tok as [|x tok]; [apply IH; constructor |].
      constructor; [split; [discriminate | assumption] | apply IH; constructor].
    + apply IH. apply Forall_app. split; [assumption |].
      constructor; [assumption | constructor].
Qed.

Lemma lstrip_app_in (chars q s : list ascii) :
  Forall (fun c => existsb (Ascii.eqb c) chars = true) q ->
  lstrip chars (q ++ s) = lstrip chars s.
Proof.
  induction 1 as [|c q Hc _ IH]; simpl; [reflexivity |].
  rewrite Hc. assumption.
Qed.

Lemma lstrip_clean (chars s : list ascii) :
  (forall c, head s = Some c -> existsb (Ascii.eqb c) chars = false) ->
  lstrip chars s = s.
Proof.
  destruct s as [|c s]; [reflexivity |]. intros Hc. simpl.
  rewrite (Hc c eq_refl). reflexivity.
Qed.

Lemma lstrip_head (chars s : list ascii) (c : ascii) :
  head (lstrip chars s) = Some c -> existsb (Ascii.eqb c) chars = false.
Proof.
  induction s as [|x s IH]; simpl; [discriminate |].
  destruct (existsb (Ascii.eqb x) chars) eqn:Hx; [assumption |].
  simpl. intros E. inversion E; subst x. assumption.
Qed.

Lemma lstrip_suffix (chars s : list ascii) :
  exists p, s = p ++ lstrip chars s.
Proof.
  induction s as [|x s (p & Hp)]; simpl; [exists []; reflexivity |].
  destruct (existsb (Ascii.eqb x) chars).
  - exists (x :: p). simpl. f_equal. assumption.
  - exists []. reflexivity.
Qed.

Lemma lstrip_Forall (P : ascii -> Prop) (chars s : list ascii) :
  Forall P s -> Forall P (lstrip chars s).
Proof.
  intros Hs. destruct (lstrip_suffix chars s) as (p & Hp).
  rewrite Hp in Hs. apply Forall_app in Hs as [_ Hs]. assumption.
Qed.

Lemma lstrip_last (chars s : list ascii) (c : ascii) :
  last (lstrip chars s) = Some c -> last s = Some c.
Proof.
  intros Hc. destruct (lstrip_suffix chars s) as (p & Hp).
  rewrite Hp. destruct (lstrip chars s) as [|x r] eqn:E; [discriminate |].
  rewrite last_app_cons. simpl in Hc. rewrite last_cons in Hc.
  rewrite last_cons. assumption.
Qed.

Lemma head_rev {A : Type} (a : list A) : head (rev a) = last a.
Proof.
  induction a as [|x a IH]; [reflexivity |].
  simpl rev. destruct a as [|y a]; [reflexivity |].
  rewrite last_cons_cons, <- IH. simpl rev.
  destruct (rev a ++ [y]) eqn:E; [| reflexivity].
  apply app_eq_nil in E as [_ E]. discriminate.
Qed.

Lemma last_rev {A : Type} (a : list A) : last (rev a) = head a.
Proof. rewrite <- (rev_involutive a) at 2. rewrite head_rev. reflexivity. Qed.

(** What [strip] leaves of a word: neither end is one of [chars]. *)
Lemma strip_ends (chars s : list ascii) (c : ascii) :
  head (strip chars s) = Some c \/ last (strip chars s) = Some c ->
  existsb (Ascii.eqb c) chars = false.
Proof.
  unfold strip, rstrip. rewrite head_rev, last_rev. intros [Hc | Hc].
  - apply lstrip_last in Hc. rewrite last_rev in Hc.
    eapply lstrip_head. exact Hc.
  - eapply lstrip_head. exact Hc.
Qed.

Lemma strip_quoted (chars q1 v q2 : list ascii) :
  Forall (fun c => existsb (Ascii.eqb c) chars = true) q1 ->
  Forall (fun c => existsb (Ascii.eqb c) chars = true) q2 ->
  (forall c, head v = Some c \/ last v = Some c ->
             existsb (Ascii.eqb c) chars = false) ->
  v <> [] ->
  strip chars (q1 ++ v ++ q2) = v.
Proof.
  intros Hq1 Hq2 Hv Hne. unfold strip, rstrip.
  rewrite lstrip_app_in by assumption.
  rewrite (lstrip_clean chars (v ++ q2)).
  - rewrite rev_app_distr.
    rewrite lstrip_app_in.
    + rewrite lstrip_clean; [apply rev_involutive |].
      intros c Hc. rewrite head_rev in Hc. apply Hv. right. assumption.
    + apply Forall_forall. intros c Hc.
      apply list_elem_of_In, in_rev, list_elem_of_In in Hc.
      exact (proj1 (Forall_forall _ _) Hq2 c Hc).
  - intros c Hc. destruct v as [|x v]; [congruence |].
    simpl in Hc. apply Hv. left. assumption.
Qed.

(** X21.  Only the last line of the version file counts.  When it ends, after
    a white-space character, with a word [v] between quotation marks
    (any number of them on either side, of either kind) and then only white
    space, and [v] neither contains white space nor begins or ends with a
    quotation mark, the version is [v]. *)
Theorem version_of_quoted_word (earlier : list (list ascii))
    (pre q1 v q2 trail : list ascii) (sp : ascii) :
  is_space sp = true ->
  Forall (fun c => existsb (Ascii.eqb c) quotes = true) q1 ->
  Forall (fun c => existsb (Ascii.eqb c) quotes = true) q2 ->
  Forall (fun c => is_space c = false) v ->
  (forall c, head v = Some c \/ last v = Some c ->
             existsb (Ascii.eqb c) quotes = false) ->
  v <> [] ->
  Forall (fun c => is_space c = true) trail ->
  version (earlier ++ [pre ++ sp :: (q1 ++ v ++ q2) ++ trail]) = Ok v.
Proof.
  intros Hsp Hq1 Hq2 Hv Hends Hne Htrail. unfold version, py_last.
  rewrite last_snoc. simpl bind. unfold py_split.
  rewrite split_from_app_space by assumption.
  assert (Hq : forall q, Forall (fun c => existsb (Ascii.eqb c) quotes = true) q ->
                         Forall (fun c => is_space c = false) q).
  { intros q Hq. eapply Forall_impl; [exact Hq |]. intros c Hc. simpl in Hc.
    unfold quotes in Hc. simpl in Hc.
    destruct (Ascii.eqb_spec c (ascii_of_nat 34)) as [E34 | _];
      [rewrite E34; reflexivity |].
    destruct (Ascii.eqb_spec c (ascii_of_nat 39)) as [E39 | _];
      [rewrite E39; reflexivity |].
    discriminate. }
  rewrite (split_from_word [] (q1 ++ v ++ q2) trail).
  - rewrite last_snoc. simpl bind. f_equal.
    apply strip_quoted; assumption.
  - apply Forall_app. split; [apply Hq; assumption |].
    apply Forall_app. split; [assumption | apply Hq; assumption].
  - assumption.
  - simpl. intros E. apply app_eq_nil in E as [_ E].
    apply app_eq_nil in E as [E _]. contradiction.
Qed.

(** X22.  Without lines, or with a last line of white space only (a blank
    line at the end of the file), the version cannot be read: the script
    stops with an [IndexError]. *)
Theorem version_needs_a_word (earlier : list (list ascii)) (blank : list ascii) :
  version [] = Err (IndexError "list index out of range")
  /\ (Forall (fun c => is_space c = true) blank ->
      version (earlier ++ [blank]) = Err (IndexError "list index out of range")).
Proof.
  split; [reflexivity |].
  intros Hblank. unfold version, py_last. rewrite last_snoc. simpl bind.
  unfold py_split. rewrite split_from_spaces by assumption. reflexivity.
Qed.

(** X23.  A version that is read holds no white space and neither begins nor
    ends with a quotation mark. *)
Theorem version_is_bare (lines : list (list ascii)) (v : list ascii) :
  version lines = Ok v ->
  Forall (fun c => is_space c = false) v
  /\ forall c, head v = Some c \/ last v = Some c ->
               existsb (Ascii.eqb c) quotes = false.
Proof.
  unfold version, py_last. intros E.
  destruct (last lines) as [line|]; simpl in E; [| discriminate].
  destruct (last (py_split line)) as [word|] eqn:Hword; simpl in E; [| discriminate].
  inversion E; subst v. split.
  - unfold strip, rstrip. apply Forall_rev, lstrip_Forall, Forall_rev, lstrip_Forall.
    apply last_Some_elem_of in Hword.
    pose proof (split_from_words [] line (Forall_nil_2 _)) as Hwords.
    exact (proj2 (proj1 (Forall_forall _ _) Hwords word Hword)).
  - apply strip_ends.
Qed.

(** ** Sample runs *)

Section SampleRuns.
Import Rational.

(** A plane wave at full order: every row of [Pnm] is written. *)
Example ideal_wave_full_order_run :
  ideal_wave stale_heap 1 angle angle (1 # 10) open_sphere pressure VNone plane
    1 (100 # 1) 2 0 (343 # 1) None 0 None
  = Ok [[226 # 226; 11526 # 226]; [452 # 226; 11752 # 226];
        [904 # 226; 23504 # 226]; [1356 # 226; 35256 # 226]]%Q.
Proof. vm_compute. reflexivity. Qed.

(** Without compensation [radFilter] returns; the zero in [kr[0]] is gone
    from the caller's array. *)
Example radFilter_run :
  radFilter stale_heap 1 (Vec [0; 1; 2]%Q) 0 0 0 0 false
  = RadOutcome (Vec [1; 1; 2]%Q) []
      (Ok ([[1 # 2; 1 # 2; 1 # 5]; [1 # 3; 1 # 3; 1 # 6]],
           [24 # 24; 24 # 24; 120 # 120])%Q).
Proof. vm_compute. reflexivity. Qed.

(** [sampledWave] with its default radius and 512 FFT bins. *)
Example sampledWave_run :
  sampledWave stale_heap (Atom (VFloat (1 # 100))) (Some []) 0 48000 512 0
    (355 # 226) (343 # 1) 0 1 120 true []
  = ([Printed "Full spectrum generator order: 70";
      ProgressBar 0 1 "sampledWave - Sampled Wave Generator";
      IdealWaveCall 70 0 256],
     Err (TypeError "ideal_wave() got an unexpected keyword argument 'ds'")).
Proof. vm_compute. reflexivity. Qed.

(** A three by two Gauss grid: six rows, azimuth blocks of two. *)
Example gaussGrid_run :
  match gaussGrid stale_heap 3 2 with
  | Ok g => map (fun row => row !! 0) g
  | Err _ => []
  end
  = [Some (0 # 678); Some (0 # 678); Some (1420 # 678); Some (1420 # 678);
     Some (2840 # 678); Some (2840 # 678)]%Q.
Proof. vm_compute. reflexivity. Qed.
End SampleRuns.

(** ** The claims on concrete calls *)

Section Witnesses.
Import Rational.

Lemma radFilter_plc_raises_witness :
  32 <= length (replicate 32 1%Q)
  /\ rad_returned (radFilter zero_heap 1 (Vec (replicate 32 1%Q)) 0 0 2 0 false)
     = Err (UnboundLocalError "xi").
Proof.
  split; [simpl; lia |].
  apply radFilter_plc_raises; [simpl; lia | right; reflexivity].
Defined.

Lemma radFilter_short_kr_plc_not_disabled_witness :
  length [1%Q; 2%Q] < 32
  /\ (exists e, rad_returned (radFilter zero_heap 0 (Vec [1%Q; 2%Q]) 0 0 1 0 true)
                = Err e)
  /\ ~ In (Printed "Not enough kr values for PLC fading. PLC disabled.")
          (rad_trace (radFilter zero_heap 0 (Vec [1%Q; 2%Q]) 0 0 1 0 true)).
Proof.
  split; [simpl; lia |].
  apply (radFilter_short_kr_plc_not_disabled zero_heap 0 [1%Q; 2%Q] 0 0 1 0 true);
    [simpl; lia | left; reflexivity].
Defined.

Lemma ideal_wave_rows_above_segment_order_witness :
  exists Pnm,
    ideal_wave stale_heap 1 angle angle (1 # 10) open_sphere pressure VNone plane
      1 (100 # 1) 4 0 (343 # 1) (Some 0%Z) 0 None = Ok Pnm
    /\ Pnm !! 1 = Some [(7 # 1)%Q; (7 # 1)%Q; (7 # 1)%Q].
Proof.
  eexists. split; [vm_compute; reflexivity |].
  apply (ideal_wave_rows_above_segment_order stale_heap 1 angle angle (1 # 10)
           open_sphere pressure VNone plane 1 (100 # 1) 4 0 (343 # 1) 0 0 None);
    [vm_compute; reflexivity | lia | simpl; lia].
Defined.

Lemma ideal_wave_plane_source_inside_array_witness :
  ((1 # 10) <= (1 # 10))%Q
  /\ exists msg,
       ideal_wave zero_heap 1 angle angle (1 # 10) open_sphere pressure VNone
         plane (1 # 10) (100 # 1) 4 0 (343 # 1) None 0 None
       = Err (ValueError msg).
Proof.
  split; [apply Qle_refl |].
  apply (ideal_wave_plane_source_inside_array zero_heap 1 angle angle (1 # 10)
           open_sphere pressure VNone (1 # 10) (100 # 1) 4 0 (343 # 1) None 0 None).
  apply Qle_refl.
Defined.

Lemma ideal_wave_plane_check_by_identity_witness :
  ((1 # 2) <= 1)%Q
  /\ passes_validation 1 1 open_sphere pressure (VStr (lit "plane")) 2 (100 # 1) 4 0
       None 0 None
  /\ exists Pnm,
       ideal_wave zero_heap 1 angle angle 1 open_sphere pressure VNone
         (VStr (PyStr "plane" false)) (1 # 2) (100 # 1) 4 0 (343 # 1) None 0 None
       = Ok Pnm.
Proof.
  split; [discriminate |].
  split; [vm_compute; reflexivity |].
  apply (ideal_wave_plane_check_by_identity zero_heap 1 angle angle 1 open_sphere
           pressure VNone (1 # 2) 2 (100 # 1) 4 0 (343 # 1) None 0 None);
    [discriminate | vm_compute; reflexivity].
Defined.

Lemma ideal_wave_ignores_segment_limits_witness :
  passes_validation 1 (1 # 10) open_sphere pressure plane 1 (100 # 1) 4 0
    (Some 1%Z) 0 None
  /\ passes_validation 1 (1 # 10) open_sphere pressure plane 1 (100 # 1) 4 0
       (Some 1%Z) 1 (Some 1%Z)
  /\ exists Pnm,
       ideal_wave zero_heap 1 angle angle (1 # 10) open_sphere pressure VNone
         plane 1 (100 # 1) 4 0 (343 # 1) (Some 1%Z) 0 None = Ok Pnm
       /\ ideal_wave zero_heap 1 angle angle (1 # 10) open_sphere pressure VNone
            plane 1 (100 # 1) 4 0 (343 # 1) (Some 1%Z) 1 (Some 1%Z) = Ok Pnm.
Proof.
  split; [vm_compute; reflexivity |].
  split; [vm_compute; reflexivity |].
  apply ideal_wave_ignores_segment_limits; vm_compute; reflexivity.
Defined.

Lemma lebedev_degree_check_witness :
  @genGrid_has_tables Q external
  /\ @argsort_permutes Q external
  /\ snd (lebedev 13 true [])
     = Err (InvalidDegree 13 [6; 14; 26; 38; 50; 74; 86; 110; 146; 170; 194]%Z)
  /\ exists gridData Nmax, snd (lebedev 110 true []) = Ok (gridData, Nmax).
Proof.
  split; [exact genGrid_Q_has_tables |].
  split; [exact argsort_Q_permutes |].
  split.
  - apply (lebedev_degree_check 13 true []);
      [exact genGrid_Q_has_tables | exact argsort_Q_permutes |].
    simpl. intuition discriminate.
  - apply (lebedev_degree_check 110 true []);
      [exact genGrid_Q_has_tables | exact argsort_Q_permutes |].
    simpl. tauto.
Defined.

Lemma radFilter_mutates_kr_witness :
  feqb 0%Q fzero = true
  /\ kr_after (radFilter zero_heap 1 (Vec [0; 3; 5]%Q) 0 0 0 0 false)
     = Vec [3; 3; 5]%Q
  /\ first_bin (Vec [2; 3; 5]%Q) = Some 2%Q
  /\ feqb 2%Q fzero = false
  /\ kr_after (radFilter zero_heap 1 (Vec [2; 3; 5]%Q) 0 0 0 0 false)
     = Vec [2; 3; 5]%Q.
Proof.
  split; [reflexivity |].
  split.
  { apply (proj1 (radFilter_mutates_kr zero_heap 1 0 0 0 0 false)). reflexivity. }
  split; [reflexivity |].
  split; [reflexivity |].
  apply (proj2 (proj2 (radFilter_mutates_kr zero_heap 1 0 0 0 0 false)) _ 2%Q);
    reflexivity.
Defined.

Lemma radFilter_two_row_kr_raises_witness :
  1 < length [0; 1]%Q
  /\ length [2; 3]%Q = length [0; 1]%Q
  /\ radFilter zero_heap 1 (Mat [[0; 1]; [2; 3]]%Q) 2 0 0 0 false
     = RadOutcome (Mat [[0; 1]; [2; 3]]%Q) []
         (Err (ValueError
            "The truth value of an array with more than one element is ambiguous. Use a.any() or a.all()")).
Proof.
  split; [simpl; lia |].
  split; [reflexivity |].
  apply (radFilter_two_row_kr_raises zero_heap 1 [0; 1]%Q [2; 3]%Q 2 0 0 0 false);
    [simpl; lia | reflexivity].
Defined.
End Witnesses.

Section ExactWitness.
Import Exact.
Open Scope R_scope.

Lemma gaussGrid_rows_weights_angles_witness :
  (1 <= 2)%nat
  /\ (1 <= 1)%nat
  /\ @leggauss_returns R one_point_rule (fun x => -1 <= x <= 1) (fun w => 0 < w) 1
  /\ exists gridData,
       @gaussGrid R scalar realfun one_point_rule (fun _ _ => 0) 2 1 = Ok gridData
       /\ length gridData = (2 * 1)%nat
       /\ (exists W, column gridData 2 = Ok W /\ vsum W = 1)
       /\ Forall (fun row => exists az el w,
                      row = [az; el; w]
                      /\ 0 <= az < 2 * PI /\ 0 <= el <= PI) gridData.
Proof.
  assert (Hleg : @leggauss_returns R one_point_rule
                   (fun x => -1 <= x <= 1) (fun w => 0 < w) 1).
  { unfold leggauss_returns. simpl.
    repeat split; try reflexivity; repeat constructor; lra. }
  split; [lia |]. split; [lia |]. split; [exact Hleg |].
  apply (@gaussGrid_rows_weights_angles one_point_rule (fun _ _ => 0) 2 1);
    [lia | lia | exact Hleg].
Defined.
End ExactWitness.

(** ** The rational stand-in for [rfft] has the shape of [rfft] *)

Section RationalNoiseFacts.
Import Rational.

Lemma rfft_Q_returns : @rfft_returns Q spectral.
Proof.
  intros v Hv. change (np_rfft v) with (take (length v / 2 + 1) v).
  rewrite length_take.
  assert (Hlen : 0 < length v) by (destruct v; [congruence | simpl; lia]).
  pose proof (Nat.div_lt (length v) 2 Hlen). lia.
Qed.
End RationalNoiseFacts.

(** ** Sample runs of the noise generators and of the version string *)

Section FurtherRuns.
Import Rational.

(** One channel of three bins: four samples of noise, scaled to mean
    amplitude 1, and the first three of them added (the stand-in for
    [rfft]). *)
Example whiteNoise_run :
  whiteNoise ramp (Vec [1; 2; 3]%Q) 0 false []
  = ([], Ok [[788 # 308; 1404 # 462; 2328 # 616]]%Q).
Proof. vm_compute. reflexivity. Qed.

(** One grid point, order 1: the inner product of the basis row with the
    four weights. *)
Example spherical_noise_run :
  spherical_noise (ramp 0) (ramp 1) angle angle 1 None = Ok [(18480 # 14400)%Q].
Proof. vm_compute. reflexivity. Qed.

Example version_run :
  version [list_ascii_of_string "# version file";
           list_ascii_of_string "__version__ = '2017.2'"]
  = Ok (list_ascii_of_string "2017.2").
Proof. vm_compute. reflexivity. Qed.
End FurtherRuns.

(** ** The further properties on concrete calls *)

Section FurtherWitnesses.
Import Rational.

Lemma ideal_wave_shape_witness :
  exists Pnm,
    ideal_wave stale_heap 1 angle angle (1 # 10) open_sphere pressure VNone plane
      1 (100 # 1) 4 0 (343 # 1) (Some 0%Z) 0 None = Ok Pnm
    /\ length Pnm = Z.to_nat ((1 + 1) ^ 2)
    /\ Forall (fun row => length row = Z.to_nat (Z.quot (4 + 2) 2)) Pnm.
Proof.
  eexists. split; [vm_compute; reflexivity |].
  apply (ideal_wave_shape stale_heap 1 angle angle (1 # 10) open_sphere pressure VNone
           plane 1 (100 # 1) 4 0 (343 # 1) (Some 0%Z) 0 None).
  vm_compute. reflexivity.
Defined.

Lemma ideal_wave_row_layout_witness :
  exists Pnm,
    ideal_wave zero_heap 1 angle angle (1 # 10) open_sphere pressure VNone plane
      1 (100 # 1) 4 0 (343 # 1) None 0 None = Ok Pnm
    /\ Pnm !! Z.to_nat (Z.of_nat 1 * Z.of_nat 1 + Z.of_nat 1 + -1)
       = Some (vscale (fconj (sph_harm (-1) 1 angle angle))
                 (radial_filter_of 1 (1 # 10) open_sphere pressure plane 1 (100 # 1)
                    0 (343 # 1) (Z.to_nat (Z.quot (4 + 2) 2)))).
Proof.
  eexists. split; [vm_compute; reflexivity |].
  apply (ideal_wave_row_layout zero_heap 1 angle angle (1 # 10) open_sphere pressure
           VNone plane 1 (100 # 1) 4 0 (343 # 1) None 0 None _ 1 (-1));
    [vm_compute; reflexivity | simpl; lia | simpl; lia].
Defined.

Lemma ideal_wave_segment_limits_per_block_witness :
  passes_validation 1 (1 # 10) open_sphere pressure plane 1 (100 # 1) 4 0
    (Some 0%Z) 0 None
  /\ passes_validation 1 (1 # 10) open_sphere pressure plane 1 (100 # 1) 4 0
       (Some 0%Z) 1 (Some 1%Z)
  /\ exists Pnm1 Pnm2,
       ideal_wave zero_heap 1 angle angle (1 # 10) open_sphere pressure VNone
         plane 1 (100 # 1) 4 0 (343 # 1) (Some 0%Z) 0 None = Ok Pnm1
       /\ ideal_wave stale_heap 1 angle angle (1 # 10) open_sphere pressure VNone
            plane 1 (100 # 1) 4 0 (343 # 1) (Some 0%Z) 1 (Some 1%Z) = Ok Pnm2
       /\ Pnm1 !! 0 = Pnm2 !! 0
       /\ Pnm1 <> Pnm2.
Proof.
  assert (Hv1 : passes_validation 1 (1 # 10) open_sphere pressure plane 1 (100 # 1) 4 0
                  (Some 0%Z) 0 None) by (vm_compute; reflexivity).
  assert (Hv2 : passes_validation 1 (1 # 10) open_sphere pressure plane 1 (100 # 1) 4 0
                  (Some 0%Z) 1 (Some 1%Z)) by (vm_compute; reflexivity).
  split; [exact Hv1 |]. split; [exact Hv2 |].
  destruct (ideal_wave_segment_limits_per_block zero_heap stale_heap 1 angle angle
              (1 # 10) open_sphere pressure VNone plane 1 (100 # 1) 4 0 (343 # 1)
              (Some 0%Z) 0 None 1 (Some 1%Z) Hv1 Hv2)
    as (P1 & P2 & E1 & E2 & Hlow & Hiff).
  exists P1, P2. split; [exact E1 |]. split; [exact E2 |].
  split; [apply Hlow; simpl; lia |].
  intros Heq.
  assert (Hd : zero_heap 1 0 = stale_heap 1 0)
    by (apply (proj1 Hiff Heq); vm_compute; lia).
  discriminate Hd.
Defined.

Lemma ideal_wave_full_order_initialised_witness :
  ideal_wave zero_heap 1 angle angle (1 # 10) open_sphere pressure VNone plane
    1 (100 # 1) 4 0 (343 # 1) None 0 None
  = ideal_wave stale_heap 1 angle angle (1 # 10) open_sphere pressure VNone plane
      1 (100 # 1) 4 0 (343 # 1) None 0 None.
Proof.
  apply ideal_wave_full_order_initialised; [lia | left; reflexivity].
Defined.

Lemma gaussGrid_row_layout_witness :
  exists gridData AZk Wk x w,
    gaussGrid stale_heap 3 2 = Ok gridData
    /\ azimuth_nodes 3 !! 1 = Some AZk
    /\ grid_weights (azimuth_weights 3) (snd (leggauss 2)) !! 1 = Some Wk
    /\ fst (leggauss 2) !! (if Nat.even 1 then 2 - 1 - 0 else 0) = Some x
    /\ Wk !! (if Nat.even 1 then 2 - 1 - 0 else 0) = Some w
    /\ gridData !! (1 * 2 + 0) = Some [AZk; farccos x; w].
Proof.
  apply (gaussGrid_row_layout stale_heap 3 2 1 0); [reflexivity | reflexivity | lia | lia].
Defined.

Lemma gaussGrid_overwrites_block_witness :
  gaussGrid zero_heap 3 2 = gaussGrid stale_heap 3 2.
Proof.
  apply (gaussGrid_overwrites_block zero_heap stale_heap 3 2); reflexivity.
Defined.

Lemma gaussGrid_degenerate_counts_witness :
  (exists msg, gaussGrid stale_heap 4 0 = Err (ValueError msg))
  /\ gaussGrid stale_heap 0 3 = Ok [].
Proof.
  split.
  - apply (proj1 (gaussGrid_degenerate_counts stale_heap 4 3)).
  - apply (proj2 (gaussGrid_degenerate_counts stale_heap 4 3)). lia.
Defined.

Lemma lebedev_rows_permuted_witness :
  exists gridData Nmax,
    snd (lebedev 14 false []) = Ok (gridData, Nmax)
    /\ Permutation gridData
         (map (fun p => let '(x, y, z, w) := p in
                        let '(theta, phi, _) := cart2sph x y z in
                        [fmod theta (fmul (ofZ 2) fpi);
                         fadd phi (fdiv fpi (ofZ 2)); w])
              [(1, 0, 0, 1 # 6); (-1, 0, 0, 1 # 6); (0, 1, 0, 1 # 6);
               (0, -1, 0, 1 # 6); (0, 0, 1, 1 # 6); (0, 0, -1, 1 # 6)]%Q)
    /\ length gridData = 6.
Proof.
  apply (lebedev_rows_permuted 14 false []);
    [exact argsort_Q_permutes | simpl; tauto | reflexivity].
Defined.

Lemma radFilter_returns_plain_bank_witness :
  kr_after (radFilter stale_heap 1 (Vec [0; 1; 2]%Q) 0 0 0 0 false) = Vec [1; 1; 2]%Q
  /\ rad_returned (radFilter stale_heap 1 (Vec [0; 1; 2]%Q) 0 0 0 0 false)
     = Ok ([[1 # 2; 1 # 2; 1 # 5]; [1 # 3; 1 # 3; 1 # 6]],
           [24 # 24; 24 # 24; 120 # 120])%Q
  /\ [[1 # 2; 1 # 2; 1 # 5]; [1 # 3; 1 # 3; 1 # 6]]%Q
     = map (fun n => filter_row n [1; 1; 2]%Q [1; 1; 2]%Q 0 (negb (0 =? 0)%Z)
                       (fpow (ofZ 10) (ofQ (inject_Z 0 / 20)%Q)))
           (seq 0 (1 + 1))
  /\ Forall (fun row => length row = length [1; 1; 2]%Q)
       [[1 # 2; 1 # 2; 1 # 5]; [1 # 3; 1 # 3; 1 # 6]]%Q
  /\ beam_response 1 [1; 1; 2]%Q [1; 1; 2]%Q 0
       [[1 # 2; 1 # 2; 1 # 5]; [1 # 3; 1 # 3; 1 # 6]]%Q
     = Ok [24 # 24; 24 # 24; 120 # 120]%Q
  /\ length [24 # 24; 24 # 24; 120 # 120]%Q = length [1; 1; 2]%Q.
Proof.
  split; [vm_compute; reflexivity |].
  split; [vm_compute; reflexivity |].
  apply (radFilter_returns_plain_bank stale_heap 1 [0; 1; 2]%Q [1; 1; 2]%Q 0 0 0 0 false);
    vm_compute; reflexivity.
Defined.

Lemma sampledWave_single_segment_witness :
  sampledWave stale_heap (Atom (VFloat (1 # 100))) (Some []) 0 48000 8 0
    (355 # 226) (343 # 1) 0 1 120 true []
  = ([] ++ [Printed "Full spectrum generator order: 70"]
        ++ [ProgressBar 0 1 "sampledWave - Sampled Wave Generator";
            IdealWaveCall 70 0 (Z.quot (8 + 2) 2 - 1)],
     Err (TypeError "ideal_wave() got an unexpected keyword argument 'ds'")).
Proof.
  apply (sampledWave_single_segment stale_heap (1 # 100) [] 0 48000 8 0 (355 # 226)
           (343 # 1) 0 1 120 true []).
  - intros E. discriminate.
  - lia.
  - lia.
  - intros kr E. vm_compute in E. inversion E.
    repeat constructor; apply Z.leb_le; vm_compute; reflexivity.
Defined.

Lemma whiteNoise_shape_witness :
  exists nNoise noisyData,
    noise_block ramp (length (atleast_2d (Vec [1; 2; 3]%Q))) (Z.of_nat 3 * 2 - 2) 0
    = Ok nNoise
    /\ whiteNoise ramp (Vec [1; 2; 3]%Q) 0 true []
       = ([] ++ [Printed "Additive White Gaussian Noise Generator"], Ok noisyData)
    /\ noisyData = zip_with vadd (atleast_2d (Vec [1; 2; 3]%Q)) (map np_rfft nNoise)
    /\ length noisyData = length (atleast_2d (Vec [1; 2; 3]%Q))
    /\ Forall (fun row => length row = 3) noisyData.
Proof.
  apply (whiteNoise_shape ramp (Vec [1; 2; 3]%Q) 0 true [] 3).
  - exact rfft_Q_returns.
  - discriminate.
  - repeat constructor.
  - lia.
Defined.

Lemma whiteNoise_needs_two_bins_witness :
  exists msg, snd (whiteNoise ramp (Vec [1%Q]) 0 true []) = Err (ValueError msg).
Proof.
  apply (whiteNoise_needs_two_bins ramp (Vec [1%Q]) 0 true []);
    [discriminate | simpl; lia].
Defined.

Lemma spherical_noise_shape_witness :
  (exists w,
     spherical_noise (ramp 0) (ramp 1) angle angle 1
       (Some [[1; 2; 3; 4]; [5; 6; 7; 8]]%Q) = Ok w
     /\ length w = 2)
  /\ exists msg,
       spherical_noise (ramp 0) (ramp 1) angle angle 1
         (Some [[1; 2; 3; 4]; [5; 6; 7]]%Q) = Err (ValueError msg).
Proof.
  split.
  - apply (proj1 (spherical_noise_shape (ramp 0) (ramp 1) angle angle 1
                    [[1; 2; 3; 4]; [5; 6; 7; 8]]%Q));
      [discriminate | repeat constructor].
  - apply (proj2 (spherical_noise_shape (ramp 0) (ramp 1) angle angle 1
                    [[1; 2; 3; 4]; [5; 6; 7]]%Q)).
    apply Exists_cons_tl. apply Exists_cons_hd. simpl. lia.
Defined.
End FurtherWitnesses.

Section FurtherExactWitnesses.
Import Exact.
Open Scope R_scope.

Lemma gaussGrid_row_values_witness :
  exists gridData x w,
    @gaussGrid R scalar realfun one_point_rule (fun _ _ => 0) 2 1 = Ok gridData
    /\ fst (@leggauss R one_point_rule 1) !! (if Nat.even 1 then 1 - 1 - 0 else 0)%nat
       = Some x
    /\ snd (@leggauss R one_point_rule 1) !! (if Nat.even 1 then 1 - 1 - 0 else 0)%nat
       = Some w
    /\ gridData !! (1 * 1 + 0)%nat
       = Some [INR 1 * 2 * PI / INR 2; acos x;
               w / (INR 2 * vsum (snd (@leggauss R one_point_rule 1)))].
Proof.
  apply (@gaussGrid_row_values one_point_rule (fun _ _ => 0) 2 1 1 0);
    [reflexivity | reflexivity | | lia | lia].
  simpl. lra.
Defined.

Lemma radFilter_unit_beam_witness :
  exists OutputArray,
    rad_returned (@radFilter R scalar realfun one_point_rule (fun _ _ => 0) 1
                    (Vec [1; 2]) 0 0 0 0 false)
    = Ok (OutputArray, replicate (length [1; 2]) 1).
Proof.
  apply (@radFilter_unit_beam one_point_rule (fun _ _ => 0) 1 [1; 2] [1; 2] 0 0 0 false).
  - unfold degenerate_guard. simpl.
    destruct (Req_dec_T 1 0) as [E | _]; [lra | reflexivity].
  - discriminate.
  - discriminate.
  - intros n k _ [<- | [<- | []]]; simpl; lra.
Defined.

Lemma radFilter_limiter_bound_witness :
  exists OutputArray BeamResponse,
    rad_returned (@radFilter R scalar realfun one_point_rule (fun _ _ => 0) 1
                    (Vec [1; 2]) 0 20 0 0 false)
    = Ok (OutputArray, BeamResponse)
    /\ Forall (Forall (fun d => Rabs d < Rpower 10 (Q2R (inject_Z 20 / 20))))
         OutputArray.
Proof.
  apply (@radFilter_limiter_bound one_point_rule (fun _ _ => 0) 1 [1; 2] [1; 2] 0 20 0 0
           false).
  - discriminate.
  - unfold degenerate_guard. simpl.
    destruct (Req_dec_T 1 0) as [E | _]; [lra | reflexivity].
  - discriminate.
  - discriminate.
  - intros n k _ [<- | [<- | []]]; simpl; lra.
Defined.

Lemma whiteNoise_mean_amplitude_witness :
  exists nNoise,
    @noise_block R scalar realfun (fun _ _ => 1) 1 2 0 = Ok nNoise
    /\ np_mean (map (map fabs) nNoise) = Rpower 10 (Q2R (inject_Z 0 / 20)).
Proof.
  apply (whiteNoise_mean_amplitude (fun _ _ => 1) 1 2 0 [[1; 1]]).
  - reflexivity.
  - unfold np_mean. simpl. rewrite Rabs_R1.
    change (IZR (Z.of_nat 2)) with 2. apply Rgt_not_eq. lra.
Defined.
End FurtherExactWitnesses.

(** ** The version string on a concrete file *)

Section VersionWitnesses.

Lemma version_of_quoted_word_witness :
  version ([] ++ [list_ascii_of_string "__version__ ="
                  ++ ascii_of_nat 32
                     :: ([ascii_of_nat 39] ++ list_ascii_of_string "1.0.2"
                         ++ [ascii_of_nat 39])
                     ++ [ascii_of_nat 10]])
  = Ok (list_ascii_of_string "1.0.2").
Proof.
  apply (version_of_quoted_word [] (list_ascii_of_string "__version__ =")
           [ascii_of_nat 39] (list_ascii_of_string "1.0.2") [ascii_of_nat 39]
           [ascii_of_nat 10] (ascii_of_nat 32)).
  - reflexivity.
  - repeat constructor.
  - repeat constructor.
  - repeat constructor.
  - intros c [E | E]; inversion E; reflexivity.
  - discriminate.
  - repeat constructor.
Defined.

Lemma version_needs_a_word_witness :
  version [] = Err (IndexError "list index out of range")
  /\ version ([list_ascii_of_string "__version__ = '1.0.2'"] ++ [[ascii_of_nat 10]])
     = Err (IndexError "list index out of range").
Proof.
  split.
  - apply (proj1 (version_needs_a_word [] [])).
  - apply (proj2 (version_needs_a_word [list_ascii_of_string "__version__ = '1.0.2'"]
                    [ascii_of_nat 10])).
    repeat constructor.
Defined.

Lemma version_is_bare_witness :
  version [list_ascii_of_string "__version__ = '1.0.2'"]
  = Ok (list_ascii_of_string "1.0.2")
  /\ Forall (fun c => is_space c = false) (list_ascii_of_string "1.0.2")
  /\ forall c,
       head (list_ascii_of_string "1.0.2") = Some c
       \/ last (list_ascii_of_string "1.0.2") = Some c ->
       existsb (Ascii.eqb c) quotes = false.
Proof.
  split; [vm_compute; reflexivity |].
  apply (version_is_bare [list_ascii_of_string "__version__ = '1.0.2'"]).
  vm_compute. reflexivity.
Defined.
End VersionWitnesses.
